(** * WebSeif: the Seif Protocol Version 0 over WebCrypto

    A shallow embedding of the protocol engine of WebSeif (protocol.js,
    elliptic.js, party.js) together with the properties of its
    specification.

    Conventions of the embedding.
    - A byte is an integer in [0, 256); an ArrayBuffer is a [list Z].
    - A JavaScript number that the code only ever uses as an integer is a
      [Z].  The IV counter is such a number: it starts at 0, grows by 1 and
      is refused beyond [2^53 - 1], a range in which a double is exact.
    - A function that may throw returns a [result].
    - A callback handed to the engine by its caller, and every call on the
      transport, is recorded as an [action] in the order in which the code
      performs it.
    - A promise the engine waits for is a pending operation of the state;
      its settlement is an event of the step function. *)

From Stdlib Require Import ZArith String Ascii List Bool Lia DecimalString Sorted.
Import ListNotations.

Open Scope Z_scope.

Set Warnings "-register-all".
Set Default Proof Using "Type".

(** ** Buffers and DataView *)

Definition ArrayBuffer := list Z.

Definition byteLength (b : ArrayBuffer) : Z := Z.of_nat (length b).

Definition new_ArrayBuffer (n : nat) : ArrayBuffer := repeat 0 n.

(** [concat_buffers a b] copies [a] and then [b] into a fresh buffer. *)
Definition concat_buffers (a b : ArrayBuffer) : ArrayBuffer := a ++ b.

Inductive result (A : Type) : Type :=
| Ok (a : A)
| Throw (message : string).
Arguments Ok {A} a.
Arguments Throw {A} message.

Definition bind {A B : Type} (r : result A) (k : A -> result B) : result B :=
  match r with
  | Ok a => k a
  | Throw m => Throw m
  end.

Notation "x <- r ;; k" := (bind r (fun x => k))
  (at level 61, r at next level, right associativity).

Definition ToUint32 (v : Z) : Z := v mod 2 ^ 32.
Definition ToUint16 (v : Z) : Z := v mod 2 ^ 16.

(** Overwrites [length bs] bytes of [buf] from byte offset [off]; a DataView
    raises a RangeError when the bytes do not fit. *)
Definition write_at (buf : ArrayBuffer) (off : nat) (bs : list Z)
  : result ArrayBuffer :=
  if (off + length bs <=? length buf)%nat
  then Ok (firstn off buf ++ bs ++ skipn (off + length bs) buf)
  else Throw "RangeError".

(** DataView.prototype.setUint32(off, v): big-endian by default. *)
Definition setUint32 (buf : ArrayBuffer) (off : nat) (v : Z)
  : result ArrayBuffer :=
  let u := ToUint32 v in
  write_at buf off
    [(u / 2 ^ 24) mod 256; (u / 2 ^ 16) mod 256; (u / 2 ^ 8) mod 256; u mod 256].

(** DataView.prototype.setUint16(off, v): big-endian by default. *)
Definition setUint16 (buf : ArrayBuffer) (off : nat) (v : Z)
  : result ArrayBuffer :=
  let u := ToUint16 v in
  write_at buf off [(u / 2 ^ 8) mod 256; u mod 256].

(** DataView.prototype.getUint16(0) of a two-byte buffer. *)
Definition getUint16 (buf : ArrayBuffer) : result Z :=
  match buf with
  | hi :: lo :: _ => Ok (hi * 256 + lo)
  | _ => Throw "RangeError"
  end.

(** The big-endian encoding of [v] on [w] bytes, most significant first. *)
Fixpoint big_endian (w : nat) (v : Z) : list Z :=
  match w with
  | O => []
  | S w' => (v / 256 ^ Z.of_nat w') mod 256 :: big_endian w' v
  end.

(** ** The IV generator (protocol.js, [iv]) *)

Definition MAX_SAFE_INTEGER : Z := 2 ^ 53 - 1.

(** One call of the generator returned by [iv(fixed_field)], as a function
    of the enclosed [counter]: the IV and the counter's next value. *)
Definition iv_generator (fixed_field : Z) (counter : Z)
  : result (ArrayBuffer * Z) :=
  if counter >? MAX_SAFE_INTEGER then Throw "Counter exhausted."
  else
    let buffer := new_ArrayBuffer 12 in
    buffer <- setUint32 buffer 0 fixed_field ;;
    buffer <- setUint32 buffer 4 (counter / 2 ^ 32) ;;
    buffer <- setUint32 buffer 8 (Z.rem counter (2 ^ 32)) ;;
    Ok (buffer, counter + 1).

(** The enclosed counter after [n] calls on a generator made by
    [iv(fixed_field)]. *)
Fixpoint counter_after (fixed_field : Z) (n : nat) : result Z :=
  match n with
  | O => Ok 0
  | S n' =>
      c <- counter_after fixed_field n' ;;
      r <- iv_generator fixed_field c ;;
      Ok (snd r)
  end.

(** The outcome of call number [n] (the first call is number 0). *)
Definition nth_call (fixed_field : Z) (n : nat) : result (ArrayBuffer * Z) :=
  c <- counter_after fixed_field n ;;
  iv_generator fixed_field c.

(** What the specification says an IV is. *)
Definition spec_iv (fixed_field counter : Z) : ArrayBuffer :=
  big_endian 4 fixed_field ++ big_endian 8 counter.

(** An IV generator is the closure made by [iv(fixed_field)]: the fixed
    field and the enclosed counter. *)
Record iv_closure : Type := {
  fixed_field : Z;
  counter : Z
}.

Definition iv (fixed : Z) : iv_closure :=
  {| fixed_field := fixed; counter := 0 |}.

(** A call of the closure: the IV or the exception, and the closure after. *)
Definition call_iv (g : iv_closure) : result ArrayBuffer * iv_closure :=
  match iv_generator (fixed_field g) (counter g) with
  | Ok (buffer, c) => (Ok buffer, {| fixed_field := fixed_field g; counter := c |})
  | Throw m => (Throw m, g)
  end.

(** ** ArrayBuffer.prototype.slice *)

Definition relative_index (len rel : Z) : Z :=
  if rel <? 0 then Z.max (len + rel) 0 else Z.min rel len.

Definition slice (b : ArrayBuffer) (first : Z) (final : option Z)
  : ArrayBuffer :=
  let len := byteLength b in
  let from := relative_index len first in
  let to := match final with
            | Some e => relative_index len e
            | None => len
            end in
  firstn (Z.to_nat (Z.max (to - from) 0)) (skipn (Z.to_nat from) b).

(** ** JavaScript values

    [json] is the set of values that JSON.stringify and JSON.parse exchange;
    the numbers the engine reads and writes are integers.  A [jsvalue] is
    what a field of a message may hold. *)

Inductive json : Type :=
| JNull
| JBool (b : bool)
| JNumber (n : Z)
| JString (s : string)
| JArray (items : list json)
| JObject (props : list (string * json)).

Inductive jsvalue : Type :=
| VUndefined
| VArrayBuffer (b : ArrayBuffer)
| VJson (j : json)
| VError (message : string).

(** The own enumerable properties of an object, in the order in which
    Object.keys lists them; a key occurs once. *)
Definition jsobject := list (string * jsvalue).

Definition is_undefined (v : jsvalue) : bool :=
  match v with
  | VUndefined => true
  | _ => false
  end.

(** [o[k]] *)
Fixpoint get_property (o : jsobject) (k : string) : jsvalue :=
  match o with
  | [] => VUndefined
  | (k', v) :: o' => if String.eqb k' k then v else get_property o' k
  end.

(** [o[k] = v]: an existing property keeps its place, a new one goes last. *)
Fixpoint set_property {V : Type} (o : list (string * V)) (k : string) (v : V)
  : list (string * V) :=
  match o with
  | [] => [(k, v)]
  | (k', v') :: o' =>
      if String.eqb k' k then (k, v) :: o' else (k', v') :: set_property o' k v
  end.

(** [v === s] for a string literal [s]. *)
Definition is_string (v : json) (s : string) : bool :=
  match v with
  | JString s' => String.eqb s' s
  | _ => false
  end.

(** ** Promises

    A promise is represented by the way it settles. *)
Inductive promise (A : Type) : Type :=
| Resolved (a : A)
| Rejected (reason : jsvalue).
Arguments Resolved {A} a.
Arguments Rejected {A} reason.

(** [p.then(k)] *)
Definition then_ {A B : Type} (p : promise A) (k : A -> promise B)
  : promise B :=
  match p with
  | Resolved a => k a
  | Rejected r => Rejected r
  end.

(** A callback of [then] that throws rejects the promise it makes. *)
Definition settle {A : Type} (r : result A) : promise A :=
  match r with
  | Ok a => Resolved a
  | Throw m => Rejected (VError m)
  end.

(** Promise.all over promises that have all been made: the values in the
    order of the promises, or the reason of the first that rejects. *)
Fixpoint Promise_all {A : Type} (ps : list (promise A)) : promise (list A) :=
  match ps with
  | [] => Resolved []
  | Resolved a :: ps' =>
      match Promise_all ps' with
      | Resolved l => Resolved (a :: l)
      | Rejected r => Rejected r
      end
  | Rejected r :: _ => Rejected r
  end.

(** ** The message argument of [make_record] *)
Inductive message_arg : Type :=
| MObject (props : jsobject)
| MNull
| MPrimitive.

(** A function that encrypts a buffer, as [make_record] receives it: it may
    throw, it returns a promise of the ciphertext, and it acts on a state
    of type [St] (the IV generator it draws from). *)
Definition encryptor (St : Type) : Type :=
  ArrayBuffer -> St -> result (promise ArrayBuffer) * St.

(** [buffers.map(encrypt_buffer)]: the calls are made from left to right,
    and an exception ends the traversal. *)
Fixpoint map_encrypt {St : Type} (encrypt_buffer : encryptor St)
  (buffers : list ArrayBuffer) (st : St)
  : result (list (promise ArrayBuffer)) * St :=
  match buffers with
  | [] => (Ok [], st)
  | b :: bs =>
      match encrypt_buffer b st with
      | (Throw m, st1) => (Throw m, st1)
      | (Ok p, st1) =>
          match map_encrypt encrypt_buffer bs st1 with
          | (Throw m, st2) => (Throw m, st2)
          | (Ok ps, st2) => (Ok (p :: ps), st2)
          end
      end
  end.

(** The callback of [then] in [make_record]: the length field, then every
    buffer, reduced with [concat_buffers]. *)
Definition assemble_record (encrypted_buffers : list ArrayBuffer)
  : result ArrayBuffer :=
  match encrypted_buffers with
  | [] => Throw "TypeError"
  | first :: _ =>
      length_buffer <- setUint16 (new_ArrayBuffer 2) 0 (byteLength first) ;;
      Ok (fold_left concat_buffers encrypted_buffers length_buffer)
  end.

(** A CryptoKeyPair, over the type of the keys. *)
Record KeyPair (K : Type) : Type := {
  publicKey : K;
  privateKey : K
}.
Arguments publicKey {K} k.
Arguments privateKey {K} k.

Inductive key_format : Type := Raw | Pkcs8.

Inductive algorithm : Type :=
| AES_GCM
| ECDH (namedCurve : string).

(** ** hex.js

    The codec between buffers and strings of hexadecimal digits.  A
    character of a string is a UTF-16 code unit below 256. *)

(** The digit of value [d] that [Number.prototype.toString] writes. *)
Definition digit_of (d : Z) : ascii :=
  match String.get (Z.to_nat d) "0123456789abcdefghijklmnopqrstuvwxyz"%string with
  | Some c => c
  | None => "0"%char
  end.

(** The digits of a positive integer in a radix, most significant first,
    before [acc]. *)
Fixpoint digits_of (fuel : nat) (n radix : Z) (acc : string) : string :=
  match fuel with
  | O => acc
  | S fuel' =>
      let acc' := String (digit_of (n mod radix)) acc in
      if n / radix =? 0 then acc' else digits_of fuel' (n / radix) radix acc'
  end.

(** [n.toString(radix)] for an integer [n]. *)
Definition Number_toString (n radix : Z) : string :=
  if n <? 0
  then String "-"%char (digits_of (S (Z.to_nat (- n))) (- n) radix EmptyString)
  else digits_of (S (Z.to_nat n)) n radix EmptyString.

Fixpoint repeat_string (fill : string) (n : nat) : string :=
  match n with
  | O => EmptyString
  | S n' => fill ++ repeat_string fill n'
  end.

(** [s.padStart(targetLength, fill)] *)
Definition padStart (s : string) (targetLength : nat) (fill : string)
  : string :=
  let len := String.length s in
  if (targetLength <=? len)%nat || String.eqb fill EmptyString then s
  else
    String.substring 0 (targetLength - len)
                     (repeat_string fill (targetLength - len)) ++ s.

(** [s.toUpperCase()], on the characters below 128; [encode] applies it to
    digits and to the letters a to f. *)
Definition upper_char (c : ascii) : ascii :=
  let n := nat_of_ascii c in
  if ((97 <=? n) && (n <=? 122))%nat then ascii_of_nat (n - 32) else c.

Fixpoint toUpperCase (s : string) : string :=
  match s with
  | EmptyString => EmptyString
  | String c s' => String (upper_char c) (toUpperCase s')
  end.

(** [byte.toString(16).padStart(2, "0")] *)
Definition hexify (byte : Z) : string :=
  padStart (Number_toString byte 16) 2 "0"%string.

(** [encode(buffer)] of hex.js. *)
Definition hex_encode_buffer (buffer : ArrayBuffer) : string :=
  toUpperCase (String.concat EmptyString (map hexify buffer)).

(** A character that [.] of a regular expression does not match: a line
    terminator (below 256: line feed and carriage return). *)
Definition is_line_terminator (c : ascii) : bool :=
  let n := nat_of_ascii c in ((n =? 10) || (n =? 13))%nat.

(** The matches of [/../g] in a string, from left to right. *)
Fixpoint match_pairs (s : string) : list string :=
  match s with
  | EmptyString => []
  | String a tail =>
      match tail with
      | EmptyString => []
      | String b rest =>
          if negb (is_line_terminator a) && negb (is_line_terminator b)
          then String a (String b EmptyString) :: match_pairs rest
          else match_pairs tail
      end
  end.

(** White space that [parseInt] skips (below 256). *)
Definition is_white_space (c : ascii) : bool :=
  let n := nat_of_ascii c in
  ((n =? 9) || (n =? 10) || (n =? 11) || (n =? 12) || (n =? 13) || (n =? 32)
   || (n =? 160))%nat.

Fixpoint trim_start (s : string) : string :=
  match s with
  | EmptyString => EmptyString
  | String c s' => if is_white_space c then trim_start s' else s
  end.

Definition hex_digit_value (c : ascii) : option Z :=
  let n := Z.of_nat (nat_of_ascii c) in
  if (48 <=? n) && (n <=? 57) then Some (n - 48)
  else if (97 <=? n) && (n <=? 102) then Some (n - 87)
  else if (65 <=? n) && (n <=? 70) then Some (n - 55)
  else None.

(** The value of the longest prefix of hexadecimal digits, after [acc];
    [None] when there is no digit. *)
Fixpoint parse_digits (s : string) (acc : option Z) : option Z :=
  match s with
  | EmptyString => acc
  | String c s' =>
      match hex_digit_value c with
      | Some d =>
          parse_digits s' (Some (16 * match acc with
                                      | Some n => n
                                      | None => 0
                                      end + d))
      | None => acc
      end
  end.

(** [parseInt(s, 16)]; [None] is NaN. *)
Definition parseInt_16 (s : string) : option Z :=
  let s := trim_start s in
  let (sign, s) :=
    match s with
    | String "-"%char s' => (-1, s')
    | String "+"%char s' => (1, s')
    | _ => (1, s)
    end in
  let s :=
    match s with
    | String "0"%char (String "x"%char s') => s'
    | String "0"%char (String "X"%char s') => s'
    | _ => s
    end in
  option_map (Z.mul sign) (parse_digits s None).

(** The conversion of a number to an element of a Uint8Array. *)
Definition ToUint8 (v : option Z) : Z :=
  match v with
  | Some n => n mod 256
  | None => 0
  end.

(** [decode(string)] of hex.js; a value that is not a string has no method
    [replace]. *)
Definition hex_decode_string (v : jsvalue) : result ArrayBuffer :=
  match v with
  | VJson (JString s) =>
      Ok (map (fun pair => ToUint8 (parseInt_16 pair)) (match_pairs s))
  | _ => Throw "TypeError"
  end.

Definition is_byte (x : Z) : Prop := 0 <= x < 256.

(** A character that [encode] writes. *)
Definition is_upper_hex_digit (c : ascii) : bool :=
  let n := nat_of_ascii c in
  (((48 <=? n) && (n <=? 57)) || ((65 <=? n) && (n <=? 70)))%nat.

(** What [encode] writes for one byte, and [decode] reads back. *)
Definition byte_round_trip (x : Z) : bool :=
  match toUpperCase (hexify x) with
  | String h (String l EmptyString) =>
      is_upper_hex_digit h && is_upper_hex_digit l
      && negb (is_line_terminator h) && negb (is_line_terminator l)
      && (ToUint8 (parseInt_16 (String h (String l EmptyString))) =? x)
  | _ => false
  end.

Fixpoint has_line_terminator (s : string) : bool :=
  match s with
  | EmptyString => false
  | String c s' => is_line_terminator c || has_line_terminator s'
  end.

(** ** A model of the platform

    A JSON.stringify for the values of [json], a TextEncoder for strings of
    bytes, and a WebCrypto of the right sizes: an AES-GCM ciphertext is
    the plaintext and a tag of 16 bytes, a raw P-521 public key has 133
    bytes.  The model serves to evaluate the engine on concrete inputs. *)

Local Open Scope string_scope.

Definition double_quote : ascii := ascii_of_nat 34.

Definition model_escape (c : ascii) : string :=
  if Ascii.eqb c double_quote then String "\" (String double_quote EmptyString)
  else if Ascii.eqb c "\" then "\\"
  else if Ascii.eqb c (ascii_of_nat 10) then "\n"
  else if Ascii.eqb c (ascii_of_nat 13) then "\r"
  else if Ascii.eqb c (ascii_of_nat 9) then "\t"
  else String c EmptyString.

Fixpoint model_escape_all (s : string) : string :=
  match s with
  | EmptyString => EmptyString
  | String c s' => model_escape c ++ model_escape_all s'
  end.

Definition model_quote (s : string) : string :=
  String double_quote (model_escape_all s ++ String double_quote EmptyString).

Fixpoint model_join (l : list string) : string :=
  match l with
  | [] => EmptyString
  | [s] => s
  | s :: l' => s ++ "," ++ model_join l'
  end.

Fixpoint model_stringify_json (j : json) : string :=
  match j with
  | JNull => "null"
  | JBool true => "true"
  | JBool false => "false"
  | JNumber n => DecimalString.NilZero.string_of_int (Z.to_int n)
  | JString s => model_quote s
  | JArray items => "[" ++ model_join (map model_stringify_json items) ++ "]"
  | JObject props =>
      "{" ++ model_join
               (map (fun p => model_quote (fst p) ++ ":"
                              ++ model_stringify_json (snd p)) props)
          ++ "}"
  end.

Definition model_stringify (v : jsvalue) : string :=
  match v with
  | VJson j => model_stringify_json j
  | VUndefined => EmptyString
  | _ => "{}"
  end.

Fixpoint model_encode (s : string) : ArrayBuffer :=
  match s with
  | EmptyString => []
  | String c s' => Z.of_N (N_of_ascii c) :: model_encode s'
  end.

Fixpoint model_letters (n : nat) : string :=
  match n with
  | O => EmptyString
  | S n' => String "k" (model_letters n')
  end.

(** A name of [n] letters. *)
Definition model_name (n : Z) : string := model_letters (Z.to_nat n).

(** An encryption of the size of AES-GCM. *)
Definition model_gcm : encryptor unit :=
  fun plaintext st =>
    (Ok (Resolved (plaintext ++ repeat 0 16)%list), st).

(** Keys are their raw bytes; the entropy is a counter. *)
Definition model_generateKey_AES (e : Z) : promise ArrayBuffer * Z :=
  (Resolved (repeat e 32), e + 1).

Definition model_generateKey_ECDH (namedCurve : string) (e : Z)
  : promise (KeyPair ArrayBuffer) * Z :=
  (Resolved {| publicKey := (4 :: repeat e 132)%list;
               privateKey := repeat e 66 |}, e + 1).

Definition model_importKey (format : key_format) (data : ArrayBuffer)
  (a : algorithm) : promise ArrayBuffer := Resolved data.

Definition model_exportKey (format : key_format) (key : ArrayBuffer)
  : promise ArrayBuffer := Resolved key.

Definition model_deriveBits (public private : ArrayBuffer) (bits : Z)
  : promise ArrayBuffer :=
  Resolved (firstn (Z.to_nat (bits / 8)) (private ++ public)%list).

Definition model_encrypt (iv key plaintext : ArrayBuffer)
  : promise ArrayBuffer :=
  Resolved (plaintext ++ repeat 0 16)%list.

Definition model_decrypt (iv key ciphertext : ArrayBuffer)
  : promise ArrayBuffer :=
  if (16 <=? length ciphertext)%nat
  then Resolved (firstn (length ciphertext - 16) ciphertext)
  else Rejected (VError "OperationError").

(** A JSON.parse for the texts that [model_stringify] writes: no white
    space, integers for numbers, the escapes of [model_escape]. *)
Fixpoint model_parse_string (s : string) : option (string * string) :=
  match s with
  | EmptyString => None
  | String c rest =>
      if Ascii.eqb c double_quote then Some (EmptyString, rest)
      else if Ascii.eqb c "\" then
        match rest with
        | EmptyString => None
        | String e rest' =>
            let unescaped :=
              if Ascii.eqb e "n" then ascii_of_nat 10
              else if Ascii.eqb e "r" then ascii_of_nat 13
              else if Ascii.eqb e "t" then ascii_of_nat 9
              else e in
            match model_parse_string rest' with
            | Some (text, r) => Some (String unescaped text, r)
            | None => None
            end
        end
      else
        match model_parse_string rest with
        | Some (text, r) => Some (String c text, r)
        | None => None
        end
  end.

Definition model_digit (c : ascii) : option Z :=
  let d := Z.of_N (N_of_ascii c) - 48 in
  if ((0 <=? d) && (d <=? 9))%Z then Some d else None.

Fixpoint model_parse_digits (s : string) (n : Z) : Z * string :=
  match s with
  | EmptyString => (n, s)
  | String c rest =>
      match model_digit c with
      | Some d => model_parse_digits rest (10 * n + d)
      | None => (n, s)
      end
  end.

Fixpoint model_parse_value (fuel : nat) (s : string)
  : option (json * string) :=
  match fuel with
  | O => None
  | S fuel =>
      match s with
      | EmptyString => None
      | String c rest =>
          if Ascii.eqb c double_quote then
            match model_parse_string rest with
            | Some (text, r) => Some (JString text, r)
            | None => None
            end
          else if Ascii.eqb c "[" then
            match rest with
            | String "]" r => Some (JArray []%list, r)
            | _ =>
                match model_parse_items fuel rest with
                | Some (items, r) => Some (JArray items, r)
                | None => None
                end
            end
          else if Ascii.eqb c "{" then
            match rest with
            | String "}" r => Some (JObject []%list, r)
            | _ =>
                match model_parse_members fuel rest with
                | Some (members, r) => Some (JObject members, r)
                | None => None
                end
            end
          else if Ascii.eqb c "-" then
            let (n, r) := model_parse_digits rest 0 in Some (JNumber (- n), r)
          else
            match model_digit c with
            | Some _ =>
                let (n, r) := model_parse_digits s 0 in Some (JNumber n, r)
            | None =>
                match s with
                | String "n" (String "u" (String "l" (String "l" r))) =>
                    Some (JNull, r)
                | String "t" (String "r" (String "u" (String "e" r))) =>
                    Some (JBool true, r)
                | String "f" (String "a" (String "l" (String "s"
                    (String "e" r)))) =>
                    Some (JBool false, r)
                | _ => None
                end
            end
      end
  end
with model_parse_items (fuel : nat) (s : string)
  : option (list json * string) :=
  match fuel with
  | O => None
  | S fuel =>
      match model_parse_value fuel s with
      | Some (v, String "," rest) =>
          match model_parse_items fuel rest with
          | Some (items, r) => Some ((v :: items)%list, r)
          | None => None
          end
      | Some (v, String "]" rest) => Some ([v]%list, rest)
      | _ => None
      end
  end
with model_parse_members (fuel : nat) (s : string)
  : option (list (string * json) * string) :=
  match fuel with
  | O => None
  | S fuel =>
      match s with
      | EmptyString => None
      | String c rest =>
          if Ascii.eqb c double_quote then
            match model_parse_string rest with
            | Some (name, String ":" rest1) =>
                match model_parse_value fuel rest1 with
                | Some (v, String "," rest2) =>
                    match model_parse_members fuel rest2 with
                    | Some (members, r) => Some (((name, v) :: members)%list, r)
                    | None => None
                    end
                | Some (v, String "}" rest2) => Some ([(name, v)]%list, rest2)
                | _ => None
                end
            | _ => None
            end
          else None
      end
  end.

Definition model_parse (text : string) : result json :=
  match model_parse_value (S (String.length text)) text with
  | Some (j, EmptyString) => Ok j
  | _ => Throw "SyntaxError"
  end.

Fixpoint model_decode (b : ArrayBuffer) : string :=
  match b with
  | []%list => EmptyString
  | (x :: b')%list => String (ascii_of_N (Z.to_N x)) (model_decode b')
  end.

Definition model_hex_digit (n : Z) : ascii :=
  match String.get (Z.to_nat n) "0123456789ABCDEF" with
  | Some c => c
  | None => "0"%char
  end.

Fixpoint model_hex_encode (b : ArrayBuffer) : string :=
  match b with
  | []%list => EmptyString
  | (x :: b')%list =>
      String (model_hex_digit (x / 16))
             (String (model_hex_digit (x mod 16)) (model_hex_encode b'))
  end.

Definition model_hex_value (c : ascii) : Z :=
  let n := Z.of_N (N_of_ascii c) in
  if ((48 <=? n) && (n <=? 57))%Z then n - 48
  else if ((65 <=? n) && (n <=? 70))%Z then n - 55
  else if ((97 <=? n) && (n <=? 102))%Z then n - 87
  else 0.

Fixpoint model_hex_pairs (s : string) : ArrayBuffer :=
  match s with
  | String a (String b s') =>
      (model_hex_value a * 16 + model_hex_value b :: model_hex_pairs s')%list
  | _ => []%list
  end.

Definition model_hex_decode (v : jsvalue) : result ArrayBuffer :=
  match v with
  | VJson (JString s) => Ok (model_hex_pairs s)
  | _ => Throw "TypeError"
  end.

(** An ECDH on which the two sides agree: the bits derived from a public
    key and a private key depend on the sum of their marks. *)
Definition model_agreed_bits (public private : ArrayBuffer) (bits : Z)
  : promise ArrayBuffer :=
  Resolved (repeat ((nth 1 public 0 + nth 0 private 0) mod 256)
                   (Z.to_nat (bits / 8))).

Local Close Scope string_scope.

Section Engine.

(** ** The platform

    JSON, the text codecs and WebCrypto are the platform's; the engine
    receives the WebCrypto object as a parameter.  Their functions are
    variables of the development.  The functions of WebCrypto are
    deterministic in their arguments, apart from key generation, which draws
    from a source of [entropy]. *)

Variable JSON_stringify : jsvalue -> string.
Variable TextEncoder_encode : string -> ArrayBuffer.
Variable JSON_parse : string -> result json.
Variable TextDecoder_decode : ArrayBuffer -> string.

Definition encode_json (value : jsvalue) : ArrayBuffer :=
  TextEncoder_encode (JSON_stringify value).

Definition decode_json (buffer : ArrayBuffer) : result json :=
  JSON_parse (TextDecoder_decode buffer).

(** ** [make_record] *)

(** The callback of [map] in [make_record], with the array
    [identifier.blobs] that it pushes to. *)
Definition blob_of_field (blobs : list json) (field : string * jsvalue)
  : list json * ArrayBuffer :=
  let (id, v) := field in
  let (buffer, blob_type) :=
    match v with
    | VArrayBuffer b => (b, "Buffer"%string)
    | _ => (encode_json v, "JSON"%string)
    end in
  (blobs ++ [JObject [("id"%string, JString id);
                      ("type"%string, JString blob_type);
                      ("length"%string, JNumber (byteLength buffer))]],
   buffer).

Fixpoint map_fields (fields : jsobject) (blobs : list json)
  : list json * list ArrayBuffer :=
  match fields with
  | [] => (blobs, [])
  | field :: rest =>
      let (blobs1, buffer) := blob_of_field blobs field in
      let (blobs2, buffers) := map_fields rest blobs1 in
      (blobs2, buffer :: buffers)
  end.

(** The identifier as it is serialised, and the plaintext of the blobs. *)
Definition record_parts (identifier : list (string * json)) (props : jsobject)
  : list (string * json) * list ArrayBuffer :=
  let (blobs, blob_buffers) :=
    map_fields (filter (fun field => negb (is_undefined (snd field))) props)
               [] in
  (set_property identifier "blobs" (JArray blobs), blob_buffers).

Definition make_record {St : Type} (identifier : list (string * json))
  (message : message_arg) (encrypt_buffer : encryptor St) (st : St)
  : result (promise ArrayBuffer) * St :=
  match message with
  | MPrimitive => (Throw "Bad message.", st)
  | MNull => (Throw "TypeError", st)
  | MObject props =>
      let (identifier, blob_buffers) := record_parts identifier props in
      let identifier_buffer := encode_json (VJson (JObject identifier)) in
      if byteLength identifier_buffer >=? 2 ^ 16
      then (Throw "Identifier too big.", st)
      else
        match map_encrypt encrypt_buffer (identifier_buffer :: blob_buffers) st
        with
        | (Throw m, st1) => (Throw m, st1)
        | (Ok promises, st1) =>
            (Ok (then_ (Promise_all promises)
                       (fun encrypted_buffers =>
                          settle (assemble_record encrypted_buffers))),
             st1)
        end
  end.

(** ** WebCrypto *)

Variable CryptoKey : Type.
Variable entropy : Type.

Definition CryptoKeyPair : Type := KeyPair CryptoKey.

Variable subtle_generateKey_AES : entropy -> promise CryptoKey * entropy.
Variable subtle_generateKey_ECDH :
  string -> entropy -> promise CryptoKeyPair * entropy.
Variable subtle_importKey :
  key_format -> ArrayBuffer -> algorithm -> promise CryptoKey.
Variable subtle_exportKey : key_format -> CryptoKey -> promise ArrayBuffer.
(** [deriveBits({name: "ECDH", public}, private, length)] *)
Variable subtle_deriveBits : CryptoKey -> CryptoKey -> Z -> promise ArrayBuffer.
(** [encrypt({name: "AES-GCM", iv}, key, plaintext)] and its inverse. *)
Variable subtle_encrypt :
  ArrayBuffer -> CryptoKey -> ArrayBuffer -> promise ArrayBuffer.
Variable subtle_decrypt :
  ArrayBuffer -> CryptoKey -> ArrayBuffer -> promise ArrayBuffer.

(** The hex codec of hex.js, applied to what the peer sent; nothing below
    depends on what it computes. *)
Variable hex_encode : ArrayBuffer -> string.
Variable hex_decode : jsvalue -> result ArrayBuffer.

Definition Promise_all2 {A B : Type} (p : promise A) (q : promise B)
  : promise (A * B) :=
  match p, q with
  | Resolved a, Resolved b => Resolved (a, b)
  | Rejected r, _ => Rejected r
  | _, Rejected r => Rejected r
  end.

(** A promise made by a function that may throw inside a [then]. *)
Definition flatten {A : Type} (r : result (promise A)) : promise A :=
  match r with
  | Ok p => p
  | Throw m => Rejected (VError m)
  end.

(** ** elliptic.js *)

Definition keysize : Z := 521.
Definition curve : string := "P-521".

(** Math.ceil(a / b) for positive integers. *)
Definition ceil_div (a b : Z) : Z := - ((- a) / b).

Definition generate_keypair (rng : entropy) : promise CryptoKeyPair * entropy :=
  subtle_generateKey_ECDH curve rng.

Definition import_public_key (buffer : ArrayBuffer) : promise CryptoKey :=
  subtle_importKey Raw buffer (ECDH curve).

Definition export_public_key (public_key : CryptoKey) : promise ArrayBuffer :=
  subtle_exportKey Raw public_key.

(** [new Uint8Array(12)] *)
Definition ecies_iv : ArrayBuffer := new_ArrayBuffer 12.

(** The ciphertext the last callback of [encrypt] assembles. *)
Definition ecies_ciphertext (ephemeral_public_key_buffer encrypted_buffer
  : ArrayBuffer) : result ArrayBuffer :=
  let ciphertext_buffer :=
    new_ArrayBuffer (length ephemeral_public_key_buffer
                     + length encrypted_buffer) in
  view <- write_at ciphertext_buffer 0 ephemeral_public_key_buffer ;;
  write_at view (length ephemeral_public_key_buffer) encrypted_buffer.

(** ECIES, [encrypt(plaintext, public_key)]. *)
Definition ecies_encrypt (plaintext : ArrayBuffer) (public_key : CryptoKey)
  (rng : entropy) : promise ArrayBuffer * entropy :=
  let (keypair, rng1) := generate_keypair rng in
  (then_ keypair (fun ephemeral =>
   then_ (Promise_all2
            (subtle_exportKey Raw (publicKey ephemeral))
            (subtle_deriveBits public_key (privateKey ephemeral) 256))
         (fun '(ephemeral_public_key_buffer, aes_key_buffer) =>
   then_ (subtle_importKey Raw aes_key_buffer AES_GCM) (fun aes_key =>
   then_ (subtle_encrypt ecies_iv aes_key plaintext) (fun encrypted_buffer =>
   settle (ecies_ciphertext ephemeral_public_key_buffer encrypted_buffer))))),
   rng1).

Definition nr_raw_key_bytes : Z := 2 * ceil_div keysize 8 + 1.

(** [v.slice(first, final)] on a field of a message: a value that is not a
    buffer has no such method (a string, which has one, is not a key). *)
Definition slice_value (v : jsvalue) (first : Z) (final : option Z)
  : result ArrayBuffer :=
  match v with
  | VArrayBuffer b => Ok (slice b first final)
  | _ => Throw "TypeError"
  end.

(** ECIES, [decrypt(ciphertext, private_key)]. *)
Definition ecies_decrypt (ciphertext : jsvalue) (private_key : CryptoKey)
  : result (promise ArrayBuffer) :=
  raw_key <- slice_value ciphertext 0 (Some nr_raw_key_bytes) ;;
  Ok (then_ (subtle_importKey Raw raw_key (ECDH curve))
        (fun ephemeral_public_key =>
   then_ (subtle_deriveBits ephemeral_public_key private_key 256)
        (fun aes_key_buffer =>
   then_ (subtle_importKey Raw aes_key_buffer AES_GCM) (fun aes_key =>
   then_ (settle (slice_value ciphertext nr_raw_key_bytes None))
        (fun encrypted_buffer =>
   subtle_decrypt ecies_iv aes_key encrypted_buffer))))).

(** ** The state the cryptography of one connection acts on

    The two IV generators of the connection, the platform's entropy, and
    the history of the calls of [aes.encrypt]: the key and the IV of each,
    oldest first. *)
Record crypto_state : Type := {
  next_encryption_iv : iv_closure;
  next_decryption_iv : iv_closure;
  rng : entropy;
  encryptions : list (CryptoKey * ArrayBuffer)
}.

Definition with_rng (st : crypto_state) (r : entropy) : crypto_state :=
  {| next_encryption_iv := next_encryption_iv st;
     next_decryption_iv := next_decryption_iv st;
     rng := r;
     encryptions := encryptions st |}.

(** [next_encryption_iv()] *)
Definition draw_encryption_iv (st : crypto_state)
  : result ArrayBuffer * crypto_state :=
  let (r, g) := call_iv (next_encryption_iv st) in
  (r, {| next_encryption_iv := g;
         next_decryption_iv := next_decryption_iv st;
         rng := rng st;
         encryptions := encryptions st |}).

(** [next_decryption_iv()] *)
Definition draw_decryption_iv (st : crypto_state)
  : result ArrayBuffer * crypto_state :=
  let (r, g) := call_iv (next_decryption_iv st) in
  (r, {| next_encryption_iv := next_encryption_iv st;
         next_decryption_iv := g;
         rng := rng st;
         encryptions := encryptions st |}).

(** ** make_aes *)

Definition aes_generate_key (st : crypto_state)
  : promise CryptoKey * crypto_state :=
  let (p, r) := subtle_generateKey_AES (rng st) in (p, with_rng st r).

Definition aes_import_key (buffer : ArrayBuffer) : promise CryptoKey :=
  subtle_importKey Raw buffer AES_GCM.

Definition aes_encrypt (plaintext : ArrayBuffer) (key : CryptoKey)
  (iv : ArrayBuffer) (st : crypto_state)
  : promise ArrayBuffer * crypto_state :=
  (subtle_encrypt iv key plaintext,
   {| next_encryption_iv := next_encryption_iv st;
      next_decryption_iv := next_decryption_iv st;
      rng := rng st;
      encryptions := encryptions st ++ [(key, iv)] |}).

Definition aes_decrypt (ciphertext : ArrayBuffer) (key : CryptoKey)
  (iv : ArrayBuffer) : promise ArrayBuffer :=
  subtle_decrypt iv key ciphertext.

(** An asynchronous computation on the cryptographic state: the promise it
    makes and the state it leaves.  [p >>= k] is [p.then(k)]: [k] runs only
    if [p] resolves. *)
Definition async (A : Type) : Type := crypto_state -> promise A * crypto_state.

Definition async_then {A B : Type} (p : async A) (k : A -> async B) : async B :=
  fun st =>
    match p st with
    | (Resolved a, st1) => k a st1
    | (Rejected r, st1) => (Rejected r, st1)
    end.

Definition lift {A : Type} (p : promise A) : async A := fun st => (p, st).

Notation "p >>= k" := (async_then p k) (at level 58, left associativity).

(** [elliptic.encrypt] on the connection's entropy. *)
Definition elliptic_encrypt (plaintext : ArrayBuffer) (public_key : CryptoKey)
  : async ArrayBuffer :=
  fun st =>
    let (p, r) := ecies_encrypt plaintext public_key (rng st) in
    (p, with_rng st r).

(** [a.property] for a parsed value. *)
Definition json_property (j : json) (k : string) : result (option json) :=
  match j with
  | JNull => Throw "TypeError"
  | JObject props =>
      Ok (match find (fun p => String.eqb (fst p) k) props with
          | Some p => Some (snd p)
          | None => None
          end)
  | _ => Ok None
  end.

(** An object literal whose property [k] may be undefined, as
    JSON.stringify sees it. *)
Definition optional_property (k : string) (v : option json)
  : list (string * json) :=
  match v with
  | Some j => [(k, j)]
  | None => []
  end.

Definition optional_value (v : option json) : jsvalue :=
  match v with
  | Some j => VJson j
  | None => VUndefined
  end.

(** ** The handshake records *)

Definition identity_encrypt {St : Type} : encryptor St :=
  fun buffer st => (Ok (Resolved buffer), st).

(** [function encrypt(buffer) { return aes.encrypt(buffer, key,
    next_encryption_iv()); }] *)
Definition encrypt_with (key : option CryptoKey) : encryptor crypto_state :=
  fun buffer st =>
    match draw_encryption_iv st with
    | (Throw m, st1) => (Throw m, st1)
    | (Ok iv, st1) =>
        match key with
        | Some k => let (p, st2) := aes_encrypt buffer k iv st1 in (Ok p, st2)
        | None => (Ok (Rejected (VError "TypeError")), st1)
        end
    end.

Record hello_result : Type := {
  hello_record : ArrayBuffer;
  hello_handshake_key : CryptoKey
}.

Definition hello (initiator_public_key receiver_public_key : CryptoKey)
  (encryption_iv : ArrayBuffer) (connection_info : jsvalue)
  (hello_value : option json) : async hello_result :=
  (fun st =>
     let (handshake_key, st1) := aes_generate_key st in
     (Promise_all2 handshake_key (export_public_key initiator_public_key), st1))
  >>= fun '(handshake_key, initiator_public_key_buffer) =>
  (fun st =>
     let (encrypted_key, st1) :=
       (lift (export_public_key handshake_key) >>= fun handshake_key_buffer =>
        elliptic_encrypt handshake_key_buffer receiver_public_key) st in
     let (encrypted_data, st2) :=
       aes_encrypt
         (encode_json
            (VJson (JObject
               (("initiatorPublicKey"%string,
                 JString (hex_encode initiator_public_key_buffer))
                :: optional_property "value" hello_value))))
         handshake_key encryption_iv st1 in
     (Promise_all2 encrypted_key encrypted_data, st2))
  >>= fun '(encrypted_handshake_key_buffer, encrypted_hello_data_buffer) =>
  lift (flatten (fst (make_record
          [("type"%string, JString "Hello")]
          (MObject [("version"%string, VJson (JNumber 0));
                    ("handshakeKey"%string,
                     VArrayBuffer encrypted_handshake_key_buffer);
                    ("helloData"%string,
                     VArrayBuffer encrypted_hello_data_buffer);
                    ("connectionInfo"%string, connection_info)])
          identity_encrypt tt)))
  >>= fun record =>
  lift (Resolved {| hello_record := record;
                    hello_handshake_key := handshake_key |}).

Record auth_hello_result : Type := {
  auth_hello_record : ArrayBuffer;
  auth_session_key : CryptoKey;
  auth_hello_value : option json;
  auth_initiator_public_key : CryptoKey
}.

Definition is_zero (v : jsvalue) : bool :=
  match v with
  | VJson (JNumber 0) => true
  | _ => false
  end.

(** [aes.decrypt] on a field of a message: WebCrypto rejects what is not a
    buffer. *)
Definition aes_decrypt_value (ciphertext : jsvalue) (key : CryptoKey)
  (iv : ArrayBuffer) : promise ArrayBuffer :=
  match ciphertext with
  | VArrayBuffer b => aes_decrypt b key iv
  | _ => Rejected (VError "TypeError")
  end.

Definition auth_hello (hello_message : jsobject) (private_key : CryptoKey)
  (st : crypto_state) : result (promise auth_hello_result) * crypto_state :=
  if negb (is_zero (get_property hello_message "version"))
  then (Ok (Rejected (VError "Unsupported Seif version.")), st)
  else
    match ecies_decrypt (get_property hello_message "handshakeKey") private_key
    with
    | Throw m => (Throw m, st)
    | Ok decrypted =>
        let (p, st1) :=
          (lift decrypted >>= fun handshake_key_buffer =>
           lift (aes_import_key handshake_key_buffer) >>= fun handshake_key =>
           (fun st =>
              match draw_decryption_iv st with
              | (Throw m, st1) => (Rejected (VError m), st1)
              | (Ok iv, st1) =>
                  (aes_decrypt_value (get_property hello_message "helloData")
                                     handshake_key iv, st1)
              end)
           >>= fun hello_buffer =>
           lift (settle (parsed <- decode_json hello_buffer ;;
                         key <- json_property parsed "initiatorPublicKey" ;;
                         value <- json_property parsed "value" ;;
                         Ok (key, value)))
           >>= fun '(initiatorPublicKey, value) =>
           (fun st =>
              let (generated, st1) := aes_generate_key st in
              (Promise_all2
                 generated
                 (then_ (settle (hex_decode (optional_value initiatorPublicKey)))
                        import_public_key), st1))
           >>= fun '(the_session_key, the_initiator_public_key) =>
           lift (export_public_key the_session_key)
           >>= fun session_key_buffer =>
           elliptic_encrypt session_key_buffer the_initiator_public_key
           >>= fun encrypted_session_key =>
           (fun st =>
              let (r, st1) :=
                make_record
                  [("type"%string, JString "AuthHello")]
                  (MObject [("sessionKey"%string,
                             VArrayBuffer encrypted_session_key)])
                  (encrypt_with (Some handshake_key)) st in
              (flatten r, st1))
           >>= fun record =>
           lift (Resolved {| auth_hello_record := record;
                             auth_session_key := the_session_key;
                             auth_hello_value := value;
                             auth_initiator_public_key :=
                               the_initiator_public_key |})) st in
        (Ok p, st1)
    end.

(** ** The consumer *)

(** An entry of [identifier.blobs], and an identifier, as [consume] and
    [receive] read them.  An identifier that does not have this shape is not
    one of the wire format; it is treated as one that fails to parse. *)
Record blob_info : Type := {
  blob_id : string;
  blob_type : option json;
  blob_length : Z
}.

Record identifier_info : Type := {
  id_type : option json;
  id_blobs : list blob_info
}.

Definition blob_view (j : json) : result blob_info :=
  id <- json_property j "id" ;;
  type <- json_property j "type" ;;
  len <- json_property j "length" ;;
  match id, len with
  | Some (JString s), Some (JNumber n) =>
      Ok {| blob_id := s; blob_type := type; blob_length := n |}
  | _, _ => Throw "TypeError"
  end.

Fixpoint blobs_view (items : list json) : result (list blob_info) :=
  match items with
  | [] => Ok []
  | j :: rest =>
      b <- blob_view j ;;
      bs <- blobs_view rest ;;
      Ok (b :: bs)
  end.

Definition identifier_view (j : json) : result identifier_info :=
  type <- json_property j "type" ;;
  blobs <- json_property j "blobs" ;;
  match blobs with
  | Some (JArray items) =>
      bs <- blobs_view items ;;
      Ok {| id_type := type; id_blobs := bs |}
  | _ => Throw "TypeError"
  end.

Definition decode_identifier (buffer : ArrayBuffer) : result identifier_info :=
  j <- decode_json buffer ;;
  identifier_view j.

(** What a caller's callback or the transport is asked to do. *)
Inductive action : Type :=
| Transport_send (record : ArrayBuffer)
| Transport_close
| On_open (connection : nat) (public_key : option CryptoKey)
          (hello_value : option json) (connection_info : jsvalue)
| On_message (connection : option nat) (message : jsobject)
| On_close (connection : option nat) (reason : jsvalue)
| On_redirect (connection : option nat) (address : jsvalue)
              (public_key : CryptoKey) (permanent redirect_context : jsvalue)
| Resolve (waiter : nat)
| Reject (waiter : nat) (reason : jsvalue)
| Uncaught (exception : jsvalue).

(** A callback then'd to the outgoing queue. *)
Inductive task : Type :=
| Task_redirect (address : jsvalue) (public_key : CryptoKey)
                (permanent redirect_context : jsvalue)
| Task_send (waiter : nat) (message : message_arg)
| Task_status_send (message : message_arg)
| Task_acknowledge.

(** A promise the incoming side waits for, with what [then] will do. *)
Inductive operation : Type :=
| Decrypt_identifier (p : promise ArrayBuffer)
| Decrypt_blob (p : promise ArrayBuffer)
| Auth_hello (message : jsobject) (p : promise auth_hello_result)
| Decrypt_session_key (p : promise CryptoKey)
| Import_redirect_key (message : jsobject) (p : promise CryptoKey).

Record consumer : Type := {
  (* parameters of make_consumer *)
  connection_id : nat;
  private_key : CryptoKey;
  on_redirect : bool;
  handshake_key : option CryptoKey;
  (* variables *)
  transport_connection : bool;
  crypto : crypto_state;
  session_key : option CryptoKey;
  seif_connection : option nat;
  buffer : ArrayBuffer;
  busy : bool;
  identifier : option identifier_info;
  identifier_length : option Z;
  blob_buffers : list ArrayBuffer;
  queue : list task;
  sending : option (promise ArrayBuffer);
  pending_acks : list nat;
  (* promises *)
  in_flight : list operation;
  next_waiter : nat
}.

Definition set_transport_connection (c : consumer) (x : bool) : consumer :=
  {| connection_id := connection_id c; private_key := private_key c;
     on_redirect := on_redirect c; handshake_key := handshake_key c;
     transport_connection := x; crypto := crypto c;
     session_key := session_key c; seif_connection := seif_connection c;
     buffer := buffer c; busy := busy c; identifier := identifier c;
     identifier_length := identifier_length c;
     blob_buffers := blob_buffers c; queue := queue c; sending := sending c;
     pending_acks := pending_acks c; in_flight := in_flight c;
     next_waiter := next_waiter c |}.

Definition set_crypto (c : consumer) (x : crypto_state) : consumer :=
  {| connection_id := connection_id c; private_key := private_key c;
     on_redirect := on_redirect c; handshake_key := handshake_key c;
     transport_connection := transport_connection c; crypto := x;
     session_key := session_key c; seif_connection := seif_connection c;
     buffer := buffer c; busy := busy c; identifier := identifier c;
     identifier_length := identifier_length c;
     blob_buffers := blob_buffers c; queue := queue c; sending := sending c;
     pending_acks := pending_acks c; in_flight := in_flight c;
     next_waiter := next_waiter c |}.

(** [session_key = k; seif_connection = Object.freeze({...})] *)
Definition open_session (c : consumer) (k : CryptoKey) : consumer :=
  {| connection_id := connection_id c; private_key := private_key c;
     on_redirect := on_redirect c; handshake_key := handshake_key c;
     transport_connection := transport_connection c; crypto := crypto c;
     session_key := Some k; seif_connection := Some (connection_id c);
     buffer := buffer c; busy := busy c; identifier := identifier c;
     identifier_length := identifier_length c;
     blob_buffers := blob_buffers c; queue := queue c; sending := sending c;
     pending_acks := pending_acks c; in_flight := in_flight c;
     next_waiter := next_waiter c |}.

Definition set_buffer (c : consumer) (x : ArrayBuffer) : consumer :=
  {| connection_id := connection_id c; private_key := private_key c;
     on_redirect := on_redirect c; handshake_key := handshake_key c;
     transport_connection := transport_connection c; crypto := crypto c;
     session_key := session_key c; seif_connection := seif_connection c;
     buffer := x; busy := busy c; identifier := identifier c;
     identifier_length := identifier_length c;
     blob_buffers := blob_buffers c; queue := queue c; sending := sending c;
     pending_acks := pending_acks c; in_flight := in_flight c;
     next_waiter := next_waiter c |}.

Definition set_busy (c : consumer) (x : bool) : consumer :=
  {| connection_id := connection_id c; private_key := private_key c;
     on_redirect := on_redirect c; handshake_key := handshake_key c;
     transport_connection := transport_connection c; crypto := crypto c;
     session_key := session_key c; seif_connection := seif_connection c;
     buffer := buffer c; busy := x; identifier := identifier c;
     identifier_length := identifier_length c;
     blob_buffers := blob_buffers c; queue := queue c; sending := sending c;
     pending_acks := pending_acks c; in_flight := in_flight c;
     next_waiter := next_waiter c |}.

Definition set_identifier (c : consumer) (x : option identifier_info)
  : consumer :=
  {| connection_id := connection_id c; private_key := private_key c;
     on_redirect := on_redirect c; handshake_key := handshake_key c;
     transport_connection := transport_connection c; crypto := crypto c;
     session_key := session_key c; seif_connection := seif_connection c;
     buffer := buffer c; busy := busy c; identifier := x;
     identifier_length := identifier_length c;
     blob_buffers := blob_buffers c; queue := queue c; sending := sending c;
     pending_acks := pending_acks c; in_flight := in_flight c;
     next_waiter := next_waiter c |}.

Definition set_identifier_length (c : consumer) (x : option Z) : consumer :=
  {| connection_id := connection_id c; private_key := private_key c;
     on_redirect := on_redirect c; handshake_key := handshake_key c;
     transport_connection := transport_connection c; crypto := crypto c;
     session_key := session_key c; seif_connection := seif_connection c;
     buffer := buffer c; busy := busy c; identifier := identifier c;
     identifier_length := x;
     blob_buffers := blob_buffers c; queue := queue c; sending := sending c;
     pending_acks := pending_acks c; in_flight := in_flight c;
     next_waiter := next_waiter c |}.

Definition set_blob_buffers (c : consumer) (x : list ArrayBuffer) : consumer :=
  {| connection_id := connection_id c; private_key := private_key c;
     on_redirect := on_redirect c; handshake_key := handshake_key c;
     transport_connection := transport_connection c; crypto := crypto c;
     session_key := session_key c; seif_connection := seif_connection c;
     buffer := buffer c; busy := busy c; identifier := identifier c;
     identifier_length := identifier_length c;
     blob_buffers := x; queue := queue c; sending := sending c;
     pending_acks := pending_acks c; in_flight := in_flight c;
     next_waiter := next_waiter c |}.

Definition set_queue (c : consumer) (x : list task) : consumer :=
  {| connection_id := connection_id c; private_key := private_key c;
     on_redirect := on_redirect c; handshake_key := handshake_key c;
     transport_connection := transport_connection c; crypto := crypto c;
     session_key := session_key c; seif_connection := seif_connection c;
     buffer := buffer c; busy := busy c; identifier := identifier c;
     identifier_length := identifier_length c;
     blob_buffers := blob_buffers c; queue := x; sending := sending c;
     pending_acks := pending_acks c; in_flight := in_flight c;
     next_waiter := next_waiter c |}.

Definition set_sending (c : consumer) (x : option (promise ArrayBuffer))
  : consumer :=
  {| connection_id := connection_id c; private_key := private_key c;
     on_redirect := on_redirect c; handshake_key := handshake_key c;
     transport_connection := transport_connection c; crypto := crypto c;
     session_key := session_key c; seif_connection := seif_connection c;
     buffer := buffer c; busy := busy c; identifier := identifier c;
     identifier_length := identifier_length c;
     blob_buffers := blob_buffers c; queue := queue c; sending := x;
     pending_acks := pending_acks c; in_flight := in_flight c;
     next_waiter := next_waiter c |}.

Definition set_pending_acks (c : consumer) (x : list nat) : consumer :=
  {| connection_id := connection_id c; private_key := private_key c;
     on_redirect := on_redirect c; handshake_key := handshake_key c;
     transport_connection := transport_connection c; crypto := crypto c;
     session_key := session_key c; seif_connection := seif_connection c;
     buffer := buffer c; busy := busy c; identifier := identifier c;
     identifier_length := identifier_length c;
     blob_buffers := blob_buffers c; queue := queue c; sending := sending c;
     pending_acks := x; in_flight := in_flight c;
     next_waiter := next_waiter c |}.

Definition set_in_flight (c : consumer) (x : list operation) : consumer :=
  {| connection_id := connection_id c; private_key := private_key c;
     on_redirect := on_redirect c; handshake_key := handshake_key c;
     transport_connection := transport_connection c; crypto := crypto c;
     session_key := session_key c; seif_connection := seif_connection c;
     buffer := buffer c; busy := busy c; identifier := identifier c;
     identifier_length := identifier_length c;
     blob_buffers := blob_buffers c; queue := queue c; sending := sending c;
     pending_acks := pending_acks c; in_flight := x;
     next_waiter := next_waiter c |}.

Definition set_next_waiter (c : consumer) (x : nat) : consumer :=
  {| connection_id := connection_id c; private_key := private_key c;
     on_redirect := on_redirect c; handshake_key := handshake_key c;
     transport_connection := transport_connection c; crypto := crypto c;
     session_key := session_key c; seif_connection := seif_connection c;
     buffer := buffer c; busy := busy c; identifier := identifier c;
     identifier_length := identifier_length c;
     blob_buffers := blob_buffers c; queue := queue c; sending := sending c;
     pending_acks := pending_acks c; in_flight := in_flight c;
     next_waiter := x |}.

(** [make_consumer(crypto, transport_connection, private_key,
    next_encryption_iv, next_decryption_iv, on_open, on_message, on_close,
    on_redirect, handshake_key)] *)
Definition make_consumer (id : nat) (key : CryptoKey) (st : crypto_state)
  (redirect : bool) (handshake : option CryptoKey) : consumer :=
  {| connection_id := id; private_key := key; on_redirect := redirect;
     handshake_key := handshake;
     transport_connection := true; crypto := st;
     session_key := None; seif_connection := None;
     buffer := new_ArrayBuffer 0; busy := false; identifier := None;
     identifier_length := None; blob_buffers := []; queue := [];
     sending := None; pending_acks := []; in_flight := [];
     next_waiter := 0 |}.

(** How an invocation ends: it returns, it ends with the call [consume()],
    or it throws. *)
Inductive flow : Type :=
| Return
| Again
| Threw (exception : string).

(** [aes.decrypt(cipher, session_key ?? handshake_key,
    next_decryption_iv())] *)
Definition decrypt (cipher : ArrayBuffer) (c : consumer)
  : result (promise ArrayBuffer) * consumer :=
  let (r, st) := draw_decryption_iv (crypto c) in
  match r with
  | Throw m => (Throw m, set_crypto c st)
  | Ok iv =>
      (Ok (match session_key c, handshake_key c with
           | Some k, _ => aes_decrypt cipher k iv
           | None, Some k => aes_decrypt cipher k iv
           | None, None => Rejected (VError "TypeError")
           end),
       set_crypto c st)
  end.

(** [situation_option] is [None] for undefined (there was a problem),
    [Some true] (the connection is no longer required) or [Some false] (the
    connection has already been closed). *)
Definition destroy (reason : jsvalue) (situation_option : option bool)
  (c : consumer) : list action * consumer :=
  if transport_connection c then
    (map (fun pending => Reject pending reason) (pending_acks c)
     ++ (match situation_option with
         | Some false => []
         | _ => [Transport_close]
         end)
     ++ (match situation_option with
         | None => [On_close (seif_connection c) reason]
         | Some _ => []
         end),
     set_transport_connection c false)
  else ([], c).

Definition enqueue (callback : task) (c : consumer) : consumer :=
  set_queue c (queue c ++ [callback]).

Definition take (nr_bytes : Z) (c : consumer) : ArrayBuffer * consumer :=
  (slice (buffer c) 0 (Some nr_bytes),
   set_buffer c (slice (buffer c) nr_bytes None)).

Definition has_type (type : option json) (s : string) : bool :=
  match type with
  | Some j => is_string j s
  | None => false
  end.

(** The loop of [receive] that rebuilds the message from the blobs. *)
Fixpoint build_message (blobs : list blob_info) (blob_nr : nat)
  (buffers : list ArrayBuffer) (message : jsobject) : result jsobject :=
  match blobs with
  | [] => Ok message
  | blob :: rest =>
      v <- (if has_type (blob_type blob) "JSON"
            then (j <- decode_json (nth blob_nr buffers []) ;; Ok (VJson j))
            else Ok (match nth_error buffers blob_nr with
                     | Some b => VArrayBuffer b
                     | None => VUndefined
                     end)) ;;
      build_message rest (S blob_nr) buffers
                    (set_property message (blob_id blob) v)
  end.

Definition in_the_clear (c : consumer) : bool :=
  match session_key c, handshake_key c with
  | None, None => true
  | _, _ => false
  end.

Definition start (op : operation) (c : consumer) : consumer :=
  set_in_flight c (in_flight c ++ [op]).

Definition receive (c : consumer) : list action * consumer * flow :=
  match identifier c with
  | None => ([], c, Threw "TypeError")
  | Some id =>
      let type := id_type id in
      match build_message (id_blobs id) 0 (blob_buffers c) [] with
      | Throw m =>
          let (a, c1) := destroy (VError m) None c in (a, c1, Return)
      | Ok message =>
          let c :=
            set_blob_buffers
              (set_identifier_length (set_identifier c None) None) [] in
          match session_key c with
          | None =>
              match handshake_key c with
              | None =>
                  let c := set_busy c true in
                  match auth_hello message (private_key c) (crypto c) with
                  | (Throw m, st) => ([], set_crypto c st, Threw m)
                  | (Ok p, st) =>
                      ([], start (Auth_hello message p) (set_crypto c st),
                       Return)
                  end
              | Some _ =>
                  let c := set_busy c true in
                  match ecies_decrypt (get_property message "sessionKey")
                                      (private_key c) with
                  | Throw m => ([], c, Threw m)
                  | Ok p =>
                      ([], start (Decrypt_session_key (then_ p aes_import_key))
                                 c,
                       Return)
                  end
              end
          | Some _ =>
              if has_type type "Redirect" then
                let c := set_busy c true in
                match hex_decode (get_property message "publicKey") with
                | Throw m => ([], c, Threw m)
                | Ok b =>
                    ([], start (Import_redirect_key message
                                  (import_public_key b)) c,
                     Return)
                end
              else if has_type type "Send" then
                ([On_message (seif_connection c) message],
                 enqueue Task_acknowledge c, Again)
              else if has_type type "Acknowledge" then
                match pending_acks c with
                | [] =>
                    let (a, c1) :=
                      destroy (VJson (JString "Unexpected acknowledgement."))
                              None c in
                    (a, c1, Return)
                | pending :: rest =>
                    ([Resolve pending], set_pending_acks c rest, Again)
                end
              else if has_type type "StatusSend" then
                ([On_message (seif_connection c) message], c, Again)
              else
                let (a, c1) :=
                  destroy (VJson (JString "Unrecognized message type."))
                          None c in
                (a, c1, Return)
          end
      end
  end.

(** [busy = true; return decrypt(take(n)).then(...)] *)
Definition start_decrypt (n : Z) (k : promise ArrayBuffer -> operation)
  (c : consumer) : list action * consumer * flow :=
  let c := set_busy c true in
  let (bytes, c) := take n c in
  match decrypt bytes c with
  | (Throw m, c) => ([], c, Threw m)
  | (Ok p, c) => ([], start (k p) c, Return)
  end.

(** One invocation of [consume], up to its [return]. *)
Definition consume_body (c : consumer) : list action * consumer * flow :=
  if negb (transport_connection c) || busy c then ([], c, Return)
  else
    match identifier c with
    | None =>
        let measured :=
          match identifier_length c with
          | Some _ => Ok (Some c)
          | None =>
              if byteLength (buffer c) <? 2 then Ok None
              else
                let (bytes, c1) := take 2 c in
                n <- getUint16 bytes ;;
                Ok (Some (set_identifier_length c1 (Some n)))
          end in
        match measured with
        | Throw m => ([], c, Threw m)
        | Ok None => ([], c, Return)
        | Ok (Some c) =>
            match identifier_length c with
            | None => ([], c, Return)
            | Some n =>
                if byteLength (buffer c) <? n then ([], c, Return)
                else if in_the_clear c then
                  let (bytes, c) := take n c in
                  match decode_identifier bytes with
                  | Throw m =>
                      let (a, c) := destroy (VError m) None c in
                      (a, c, Return)
                  | Ok id => ([], set_identifier c (Some id), Again)
                  end
                else start_decrypt n Decrypt_identifier c
            end
        end
    | Some id =>
        match nth_error (id_blobs id) (length (blob_buffers c)) with
        | Some blob =>
            if in_the_clear c then
              if byteLength (buffer c) <? blob_length blob
              then ([], c, Return)
              else
                let (bytes, c) := take (blob_length blob) c in
                ([], set_blob_buffers c (blob_buffers c ++ [bytes]), Again)
            else
              let ciphertext_length := blob_length blob + 16 in
              if byteLength (buffer c) <? ciphertext_length
              then ([], c, Return)
              else start_decrypt ciphertext_length Decrypt_blob c
        | None => receive c
        end
    end.

Fixpoint consume_loop (fuel : nat) (c : consumer)
  : list action * consumer * flow :=
  match fuel with
  | O => ([], c, Again)
  | S fuel' =>
      match consume_body c with
      | (a, c1, Again) =>
          let '(a2, c2, f) := consume_loop fuel' c1 in (a ++ a2, c2, f)
      | r => r
      end
  end.

(** The blobs of the record being read that have not arrived. *)
Definition remaining_blobs (c : consumer) : nat :=
  match identifier c with
  | Some id => length (id_blobs id) - length (blob_buffers c)
  | None => 0
  end.

(** [consume()]: the invocations follow one another until one returns.
    After the first, two more than the blobs that remain suffice (see
    [consume_returns]). *)
Definition consume (c : consumer) : list action * consumer * flow :=
  match consume_body c with
  | (a, c1, Again) =>
      let '(a2, c2, f) := consume_loop (remaining_blobs c1 + 2) c1 in
      (a ++ a2, c2, f)
  | r => r
  end.

(** A callback under [.catch(destroy)]. *)
Definition caught (r : list action * consumer * flow) : list action * consumer :=
  let '(a, c, f) := r in
  match f with
  | Threw m => let (a1, c1) := destroy (VError m) None c in (a ++ a1, c1)
  | _ => (a, c)
  end.

(** A call from the transport: what is thrown reaches the transport. *)
Definition escaped (r : list action * consumer * flow) : list action * consumer :=
  let '(a, c, f) := r in
  match f with
  | Threw m => (a ++ [Uncaught (VError m)], c)
  | _ => (a, c)
  end.

(** The settlement of the oldest promise in flight. *)
Definition settled (c : consumer) : list action * consumer :=
  match in_flight c with
  | [] => ([], c)
  | op :: rest =>
      let c := set_in_flight c rest in
      match op with
      | Decrypt_identifier (Resolved identifier_buffer) =>
          match decode_identifier identifier_buffer with
          | Throw m => destroy (VError m) None c
          | Ok id =>
              caught (consume (set_busy (set_identifier c (Some id)) false))
          end
      | Decrypt_blob (Resolved decrypted_buffer) =>
          caught (consume
                    (set_busy
                       (set_blob_buffers c
                          (blob_buffers c ++ [decrypted_buffer]))
                       false))
      | Auth_hello message (Resolved result) =>
          if transport_connection c then
            ([Transport_send (auth_hello_record result);
              On_open (connection_id c)
                      (Some (auth_initiator_public_key result))
                      (auth_hello_value result)
                      (get_property message "connectionInfo")],
             set_busy (open_session c (auth_session_key result)) false)
          else ([], c)
      | Decrypt_session_key (Resolved the_session_key) =>
          ([On_open (connection_id c) None None VUndefined],
           set_busy (open_session c the_session_key) false)
      | Import_redirect_key message (Resolved public_key) =>
          if on_redirect c then
            ([On_redirect (seif_connection c)
                          (get_property message "address")
                          public_key
                          (get_property message "permanent")
                          (get_property message "redirectContext")],
             set_busy c false)
          else destroy (VError "TypeError") None c
      | Decrypt_identifier (Rejected r)
      | Decrypt_blob (Rejected r)
      | Auth_hello _ (Rejected r)
      | Decrypt_session_key (Rejected r)
      | Import_redirect_key _ (Rejected r) => destroy r None c
      end
  end.

(** The callback of a task, run by the queue. *)
Definition run_task (t : task) (c : consumer)
  : result (promise ArrayBuffer) * consumer :=
  let encrypt := encrypt_with (session_key c) in
  match t with
  | Task_redirect address public_key permanent redirect_context =>
      match export_public_key public_key with
      | Rejected r => (Ok (Rejected r), c)
      | Resolved public_key_buffer =>
          let (r, st) :=
            make_record
              [("type"%string, JString "Redirect")]
              (MObject [("address"%string, address);
                        ("publicKey"%string,
                         VJson (JString (hex_encode public_key_buffer)));
                        ("permanent"%string, permanent);
                        ("redirectContext"%string, redirect_context)])
              encrypt (crypto c) in
          (Ok (flatten r), set_crypto c st)
      end
  | Task_send waiter message =>
      let c := set_pending_acks c (pending_acks c ++ [waiter]) in
      let (r, st) :=
        make_record [("type"%string, JString "Send")] message encrypt
                    (crypto c) in
      (r, set_crypto c st)
  | Task_status_send message =>
      let (r, st) :=
        make_record [("type"%string, JString "StatusSend")] message encrypt
                    (crypto c) in
      (r, set_crypto c st)
  | Task_acknowledge =>
      let (r, st) :=
        make_record [("type"%string, JString "Acknowledge")] (MObject [])
                    encrypt (crypto c) in
      (r, set_crypto c st)
  end.

(** The queue reaches its next callback. *)
Definition queue_turn (c : consumer) : list action * consumer :=
  match sending c, queue c with
  | None, t :: rest =>
      let c := set_queue c rest in
      if transport_connection c then
        match run_task t c with
        | (Throw m, c1) => destroy (VError m) None c1
        | (Ok p, c1) => ([], set_sending c1 (Some p))
        end
      else ([], c)
  | _, _ => ([], c)
  end.

(** The record of the running callback settles. *)
Definition record_settled (c : consumer) : list action * consumer :=
  match sending c with
  | None => ([], c)
  | Some p =>
      let c := set_sending c None in
      match p with
      | Resolved record =>
          if transport_connection c then ([Transport_send record], c)
          else ([], c)
      | Rejected r => destroy r None c
      end
  end.

(** What happens to a consumer: calls from the transport, settlements of
    promises, and calls on the connection object by its holder. *)
Inductive event : Type :=
| Chunk (chunk : ArrayBuffer)
| Transport_closed (reason : jsvalue)
| Settled
| Queue_turn
| Record_settled
| Call_send (message : message_arg)
| Call_status_send (message : message_arg)
| Call_redirect (address : jsvalue) (public_key : CryptoKey)
                (permanent redirect_context : jsvalue)
| Call_close (reason : jsvalue).

Definition step (e : event) (c : consumer) : list action * consumer :=
  match e with
  | Chunk chunk =>
      escaped (consume (set_buffer c (concat_buffers (buffer c) chunk)))
  | Transport_closed reason => destroy reason (Some false) c
  | Settled => settled c
  | Queue_turn => queue_turn c
  | Record_settled => record_settled c
  | Call_send message =>
      match seif_connection c with
      | Some _ =>
          ([], set_next_waiter
                 (enqueue (Task_send (next_waiter c) message) c)
                 (S (next_waiter c)))
      | None => ([], c)
      end
  | Call_status_send message =>
      match seif_connection c with
      | Some _ => ([], enqueue (Task_status_send message) c)
      | None => ([], c)
      end
  | Call_redirect address public_key permanent redirect_context =>
      match seif_connection c, handshake_key c with
      | Some _, None =>
          ([], enqueue (Task_redirect address public_key permanent
                                      redirect_context) c)
      | _, _ => ([], c)
      end
  | Call_close reason =>
      match seif_connection c with
      | Some _ => destroy reason (Some true) c
      | None => ([], c)
      end
  end.

(** A history of a consumer: the actions it takes, oldest first. *)
Fixpoint run (events : list event) (c : consumer) : list action * consumer :=
  match events with
  | [] => ([], c)
  | e :: rest =>
      let (a, c1) := step e c in
      let (a2, c2) := run rest c1 in
      (a ++ a2, c2)
  end.

(** ** [listen] and [connect] *)

(** The consumer [listen] makes when a transport connection opens. *)
Definition listen_consumer (id : nat) (keypair : CryptoKeyPair) (r : entropy)
  : consumer :=
  make_consumer id (privateKey keypair)
    {| next_encryption_iv := iv 1; next_decryption_iv := iv 0;
       rng := r; encryptions := [] |}
    false None.

(** What [connect] asks of the transport and of its caller.  The arguments
    of [on_close] after the reason are those of a redirection. *)
Inductive connect_action : Type :=
| Transport_connect (address : jsvalue)
| Close_transport
| Connect_on_close (connection : option nat) (reason : jsvalue)
    (redirection : option (jsvalue * CryptoKey * jsvalue * jsvalue))
| Of_consumer (a : action).

(** The variables of [connect]. *)
Record initiator : Type := {
  keypair : CryptoKeyPair;
  hello_value : option json;
  remote_public_key : CryptoKey;
  connection_info : jsvalue;
  transport_open : bool;
  the_consumer : option consumer;
  opening : option (promise hello_result * crypto_state);
  made : nat;
  platform_rng : entropy
}.

Definition connect (pair : CryptoKeyPair) (address : jsvalue)
  (remote : CryptoKey) (value : option json) (info : jsvalue) (r : entropy)
  : list connect_action * initiator :=
  ([Transport_connect address],
   {| keypair := pair; hello_value := value; remote_public_key := remote;
      connection_info := info; transport_open := false;
      the_consumer := None; opening := None; made := 0;
      platform_rng := r |}).

Definition set_transport_open (s : initiator) (x : bool) : initiator :=
  {| keypair := keypair s; hello_value := hello_value s;
     remote_public_key := remote_public_key s;
     connection_info := connection_info s; transport_open := x;
     the_consumer := the_consumer s; opening := opening s; made := made s;
     platform_rng := platform_rng s |}.

Definition set_the_consumer (s : initiator) (x : option consumer) : initiator :=
  {| keypair := keypair s; hello_value := hello_value s;
     remote_public_key := remote_public_key s;
     connection_info := connection_info s; transport_open := transport_open s;
     the_consumer := x; opening := opening s; made := made s;
     platform_rng := platform_rng s |}.

Definition set_opening (s : initiator)
  (x : option (promise hello_result * crypto_state)) : initiator :=
  {| keypair := keypair s; hello_value := hello_value s;
     remote_public_key := remote_public_key s;
     connection_info := connection_info s; transport_open := transport_open s;
     the_consumer := the_consumer s; opening := x; made := made s;
     platform_rng := platform_rng s |}.

Definition on_transport_open (s : initiator)
  : list connect_action * initiator :=
  let s := set_transport_open s true in
  let st :=
    {| next_encryption_iv := iv 0; next_decryption_iv := iv 1;
       rng := platform_rng s; encryptions := [] |} in
  match draw_encryption_iv st with
  | (Throw m, _) => ([Of_consumer (Uncaught (VError m))], s)
  | (Ok encryption_iv, st1) =>
      ([], set_opening s
             (Some (hello (publicKey (keypair s)) (remote_public_key s)
                          encryption_iv (connection_info s) (hello_value s)
                          st1)))
  end.

(** The callbacks of [then] and [catch] on the promise of [hello]. *)
Definition hello_settled (s : initiator) : list connect_action * initiator :=
  match opening s with
  | None => ([], s)
  | Some (p, st) =>
      let s := set_opening s None in
      match p with
      | Resolved r =>
          if transport_open s then
            ([Of_consumer (Transport_send (hello_record r))],
             {| keypair := keypair s; hello_value := hello_value s;
                remote_public_key := remote_public_key s;
                connection_info := connection_info s;
                transport_open := transport_open s;
                the_consumer :=
                  Some (make_consumer (made s) (privateKey (keypair s)) st
                                      true (Some (hello_handshake_key r)));
                opening := opening s; made := S (made s);
                platform_rng := rng st |})
          else ([], s)
      | Rejected reason =>
          ([Close_transport; Connect_on_close None reason None], s)
      end
  end.

(** [on_redirect], called by the consumer of [s]. *)
Definition redirected (connection : option nat) (address : jsvalue)
  (public_key : CryptoKey) (permanent redirect_context : jsvalue)
  (s : initiator) : list connect_action * initiator :=
  match the_consumer s with
  | None => ([Close_transport; Of_consumer (Uncaught (VError "TypeError"))], s)
  | Some c =>
      let (rejections, c1) :=
        destroy (VJson (JString "Redirected.")) (Some false) c in
      (Close_transport
       :: map Of_consumer rejections
       ++ [Connect_on_close connection VUndefined
             (Some (address, public_key, permanent, redirect_context));
           Transport_connect address],
       {| keypair := keypair s; hello_value := hello_value s;
          remote_public_key := public_key;
          connection_info := redirect_context;
          transport_open := false;
          the_consumer := None; opening := opening s; made := made s;
          platform_rng := rng (crypto c1) |})
  end.

(** An action of the consumer reaches the callbacks [connect] gave it. *)
Definition deliver (a : action) (s : initiator)
  : list connect_action * initiator :=
  match a with
  | On_close connection reason =>
      ([Connect_on_close connection reason None], set_transport_open s false)
  | On_redirect connection address public_key permanent redirect_context =>
      redirected connection address public_key permanent redirect_context s
  | _ => ([Of_consumer a], s)
  end.

Fixpoint deliver_all (actions : list action) (s : initiator)
  : list connect_action * initiator :=
  match actions with
  | [] => ([], s)
  | a :: rest =>
      let (out, s1) := deliver a s in
      let (out2, s2) := deliver_all rest s1 in
      (out ++ out2, s2)
  end.

Inductive connect_event : Type :=
| Transport_opened
| Hello_settled
| Consumer (e : event)
| Close (reason : jsvalue).

Definition connect_step (e : connect_event) (s : initiator)
  : list connect_action * initiator :=
  match e with
  | Transport_opened => on_transport_open s
  | Hello_settled => hello_settled s
  | Consumer (Chunk chunk) =>
      match the_consumer s with
      | Some c =>
          let (actions, c1) := step (Chunk chunk) c in
          deliver_all actions (set_the_consumer s (Some c1))
      | None =>
          ([Close_transport;
            Connect_on_close None (VJson (JString "Unexpected chunk.")) None],
           s)
      end
  | Consumer (Transport_closed reason) =>
      let s := set_transport_open s false in
      match the_consumer s with
      | Some c =>
          let (actions, c1) := step (Transport_closed reason) c in
          let (out, s1) := deliver_all actions (set_the_consumer s (Some c1)) in
          (out ++ [Connect_on_close (seif_connection c1) reason None], s1)
      | None => ([Connect_on_close None reason None], s)
      end
  | Consumer e =>
      match the_consumer s with
      | Some c =>
          let (actions, c1) := step e c in
          deliver_all actions (set_the_consumer s (Some c1))
      | None => ([], s)
      end
  | Close reason =>
      let s := set_transport_open s false in
      match the_consumer s with
      | Some c =>
          let (actions, c1) := step (Transport_closed reason) c in
          let (out, s1) := deliver_all actions (set_the_consumer s (Some c1)) in
          (out ++ [Close_transport], s1)
      | None => ([Close_transport], s)
      end
  end.

Fixpoint connect_run (events : list connect_event) (s : initiator)
  : list connect_action * initiator :=
  match events with
  | [] => ([], s)
  | e :: rest =>
      let (out, s1) := connect_step e s in
      let (out2, s2) := connect_run rest s1 in
      (out ++ out2, s2)
  end.

(** ** party.js: the callbacks [connect] of a party gives to the protocol *)

Inductive party_action : Type :=
| Store_add_acquaintance (petname : string) (address : jsvalue)
                         (public_key : CryptoKey)
| Caller_on_close (connection : option nat) (reason : jsvalue)
| Caller_on_open (connection : nat)
| Caller_on_message (connection : option nat) (message : jsobject)
| Below (a : connect_action).

(** [if (permanent)] *)
Definition truthy (v : jsvalue) : bool :=
  match v with
  | VUndefined => false
  | VJson JNull => false
  | VJson (JBool b) => b
  | VJson (JNumber n) => negb (n =? 0)
  | VJson (JString s) => negb (String.eqb s EmptyString)
  | _ => true
  end.

(** The function the party passes as [on_close]. *)
Definition party_on_close (petname : string) (connection : option nat)
  (reason : jsvalue)
  (redirection : option (jsvalue * CryptoKey * jsvalue * jsvalue))
  : list party_action :=
  match redirection with
  | Some (address, public_key, permanent, _) =>
      (if truthy permanent
       then [Store_add_acquaintance petname address public_key]
       else [])
      ++ [Caller_on_close connection (VJson (JString "redirected"))]
  | None => [Caller_on_close connection reason]
  end.

Definition party_view (petname : string) (a : connect_action)
  : list party_action :=
  match a with
  | Connect_on_close connection reason redirection =>
      party_on_close petname connection reason redirection
  | Of_consumer (On_open connection _ _ _) => [Caller_on_open connection]
  | Of_consumer (On_message connection message) =>
      [Caller_on_message connection message]
  | _ => [Below a]
  end.

(** What the caller of the party's [connect] and the layers below see of a
    history of the protocol's [connect]. *)
Definition party_trace (petname : string) (out : list connect_action)
  : list party_action :=
  flat_map (party_view petname) out.

(** ** The record, in the words of the specification *)

(** The fields of a message that a record carries, the entry of
    [identifier.blobs] for a field and the plaintext of its blob, as the
    specification words them. *)
Definition carried_fields (props : jsobject) : jsobject :=
  filter (fun field => negb (is_undefined (snd field))) props.

Definition is_raw_buffer (v : jsvalue) : bool :=
  match v with
  | VArrayBuffer _ => true
  | _ => false
  end.

Definition plaintext_of (field : string * jsvalue) : ArrayBuffer :=
  match snd field with
  | VArrayBuffer b => b
  | v => encode_json v
  end.

Definition entry_of (field : string * jsvalue) : json :=
  JObject [("id"%string, JString (fst field));
           ("type"%string,
            JString (if is_raw_buffer (snd field) then "Buffer" else "JSON"));
           ("length"%string, JNumber (byteLength (plaintext_of field)))].

(** ** Observations on histories *)

(** The waiters that a list of actions resolves, in order. *)
Fixpoint resolved_waiters (actions : list action) : list nat :=
  match actions with
  | [] => []
  | Resolve waiter :: rest => waiter :: resolved_waiters rest
  | _ :: rest => resolved_waiters rest
  end.

(** The waiters of the calls of [send] whose callback is still in the
    queue, in order. *)
Fixpoint queued_sends (q : list task) : list nat :=
  match q with
  | [] => []
  | Task_send waiter _ :: rest => waiter :: queued_sends rest
  | _ :: rest => queued_sends rest
  end.

(** The waiters are numbered by the calls of [send].  [fifo resolved c]:
    those resolved so far are the first ones, in the order of the calls;
    and as long as the transport connection is there, [pending_acks]
    followed by the waiters still in the queue are the next ones, in that
    order. *)
Definition fifo (resolved : list nat) (c : consumer) : Prop :=
  exists k : nat,
    resolved = seq 0 k
    /\ (k <= next_waiter c)%nat
    /\ (transport_connection c = true ->
        pending_acks c ++ queued_sends (queue c)
        = seq k (next_waiter c - k)).

(** The state between two records. *)
Definition next_record (c : consumer) : consumer :=
  set_blob_buffers (set_identifier_length (set_identifier c None) None) [].


(** At most one promise of the incoming side is in flight, and [busy] is
    set while there is one. *)
Definition one_in_flight (c : consumer) : Prop :=
  in_flight c = [] \/ (exists op, in_flight c = [op]) /\ busy c = true.

(** The IVs of the encryptions recorded in [st] are those of the calls
    numbered [calls] of a generator of fixed field [fixed]: all below the
    counter, each later than the one before. *)
Definition iv_history (fixed : Z) (st : crypto_state) : Prop :=
  fixed_field (next_encryption_iv st) = fixed
  /\ exists (n : nat) (calls : list nat),
       counter (next_encryption_iv st) = Z.of_nat n
       /\ Z.of_nat n <= MAX_SAFE_INTEGER + 1
       /\ map snd (encryptions st)
          = map (fun k => spec_iv fixed (Z.of_nat k)) calls
       /\ StronglySorted lt calls
       /\ Forall (fun k => (k < n)%nat) calls.

(** The number that a list of bytes writes in base 256, most significant
    byte first. *)
Definition be_value (bytes : list Z) : Z :=
  fold_left (fun acc b => acc * 256 + b) bytes 0.

(** The encryptions of the session an initiator is in: those recorded by
    its consumer or, before there is one, by its [hello]. *)
Definition initiator_encryptions (s : initiator)
  : list (CryptoKey * ArrayBuffer) :=
  match the_consumer s, opening s with
  | Some c, _ => encryptions (crypto c)
  | None, Some (_, st) => encryptions st
  | None, None => []
  end.

(** An asynchronous computation keeps the history of the IVs. *)
Definition keeps_history {A : Type} (fixed : Z) (p : async A) : Prop :=
  forall st, iv_history fixed st -> iv_history fixed (snd (p st)).

(** The encryptions of an initiator's session have the history of a
    generator of fixed field 0. *)
Definition initiator_history (s : initiator) : Prop :=
  (forall c, the_consumer s = Some c -> iv_history 0 (crypto c))
  /\ (forall p st, opening s = Some (p, st) -> iv_history 0 st).

(** The connections that a list of actions opens, in order. *)
Fixpoint opened_connections (actions : list action) : list nat :=
  match actions with
  | [] => []
  | On_open connection _ _ _ :: rest => connection :: opened_connections rest
  | _ :: rest => opened_connections rest
  end.

(** A consumer keeps its connection, and opens no other. *)
Definition opens_its_own (c : consumer) (actions : list action)
  (c1 : consumer) : Prop :=
  connection_id c1 = connection_id c
  /\ Forall (fun n => n = connection_id c) (opened_connections actions).

(** The connections that the caller of a party sees opened. *)
Fixpoint caller_opened (trace : list party_action) : list nat :=
  match trace with
  | [] => []
  | Caller_on_open connection :: rest => connection :: caller_opened rest
  | _ :: rest => caller_opened rest
  end.

(** The consumers an initiator makes from now on are numbered from [m]. *)
Definition makes_from (m : nat) (s : initiator) : Prop :=
  (m <= made s)%nat
  /\ forall c, the_consumer s = Some c -> (m <= connection_id c)%nat.

(** The records that a list of actions hands to the transport, in order. *)
Definition sent_records (actions : list action) : list ArrayBuffer :=
  flat_map (fun a => match a with
                     | Transport_send record => [record]
                     | _ => []
                     end) actions.

(** The actions of the consumer among what an initiator does. *)
Definition of_consumer (out : list connect_action) : list action :=
  flat_map (fun a => match a with
                     | Of_consumer a => [a]
                     | _ => []
                     end) out.

(** The callbacks that an operation in flight may still call after the
    consumer is destroyed. *)
Definition straggler (a : action) : bool :=
  match a with
  | On_open _ _ _ _ => true
  | On_redirect _ _ _ _ _ => true
  | _ => false
  end.

(** The message that [make_record] throws before it encrypts anything, if
    it does. *)
Definition refused (identifier : list (string * json)) (message : message_arg)
  : option string :=
  match message with
  | MPrimitive => Some "Bad message."%string
  | MNull => Some "TypeError"%string
  | MObject props =>
      if byteLength
           (encode_json
              (VJson (JObject (fst (record_parts identifier props)))))
         >=? 2 ^ 16
      then Some "Identifier too big."%string
      else None
  end.

(** The entry of [identifier.blobs] for a field, as [consume] reads it. *)
Definition info_of (field : string * jsvalue) : blob_info :=
  {| blob_id := fst field;
     blob_type :=
       Some (JString (if is_raw_buffer (snd field) then "Buffer" else "JSON"));
     blob_length := byteLength (plaintext_of field) |}.

(** A value that arrives as it was sent: a raw buffer, or a JSON value
    that the platform's JSON and text codecs give back. *)
Definition carried_faithfully (v : jsvalue) : Prop :=
  match v with
  | VArrayBuffer _ => True
  | VJson j => decode_json (encode_json (VJson j)) = Ok j
  | _ => False
  end.

(** [c] with its incoming side set: the buffer, [busy], the identifier
    being read, its length, the blobs decrypted so far, the promises in
    flight and the decryption IV generator. *)
Definition incoming (c : consumer) (bytes : ArrayBuffer) (is_busy : bool)
  (id : option identifier_info) (id_length : option Z)
  (blobs : list ArrayBuffer) (ops : list operation) (g : iv_closure)
  : consumer :=
  {| connection_id := connection_id c; private_key := private_key c;
     on_redirect := on_redirect c; handshake_key := handshake_key c;
     transport_connection := transport_connection c;
     crypto := {| next_encryption_iv := next_encryption_iv (crypto c);
                  next_decryption_iv := g;
                  rng := rng (crypto c);
                  encryptions := encryptions (crypto c) |};
     session_key := session_key c; seif_connection := seif_connection c;
     buffer := bytes; busy := is_busy; identifier := id;
     identifier_length := id_length; blob_buffers := blobs;
     queue := queue c; sending := sending c;
     pending_acks := pending_acks c; in_flight := ops;
     next_waiter := next_waiter c |}.



(** ** [listen]

    A transport connection is named by a number, and so is a consumer: its
    place among the consumers that [listen] has made, which is also the
    name of the connection object it hands out. *)

(** [consumer_map], a [Map] from transport connections to consumers, in
    the order of insertion. *)
Definition Map_get (m : list (nat * nat)) (k : nat) : option nat :=
  match find (fun entry => Nat.eqb (fst entry) k) m with
  | Some entry => Some (snd entry)
  | None => None
  end.

Fixpoint Map_set (m : list (nat * nat)) (k v : nat) : list (nat * nat) :=
  match m with
  | [] => [(k, v)]
  | (k0, v0) :: rest =>
      if Nat.eqb k0 k then (k, v) :: rest else (k0, v0) :: Map_set rest k v
  end.

Definition Map_delete (m : list (nat * nat)) (k : nat) : list (nat * nat) :=
  filter (fun entry => negb (Nat.eqb (fst entry) k)) m.

(** What [listen] asks of the transport and of its caller: the actions of
    its consumers, each with the number of the consumer, and the calls of
    [transport_listen] and [stop_transport]. *)
Inductive listen_action : Type :=
| Transport_listen (address : jsvalue)
| Stop_transport
| Listen_of (nr : nat) (a : action).

(** The consumers made, each with the transport connection it was made
    for, and the variable [consumer_map]. *)
Record listener : Type := {
  listen_keypair : CryptoKeyPair;
  consumers : list (nat * consumer);
  consumer_map : list (nat * nat)
}.

Definition listen (pair : CryptoKeyPair) (address : jsvalue)
  : list listen_action * listener :=
  ([Transport_listen address],
   {| listen_keypair := pair; consumers := []; consumer_map := [] |}).

Definition is_on_close (a : action) : bool :=
  match a with
  | On_close _ _ => true
  | _ => false
  end.

Fixpoint set_nth {A : Type} (l : list A) (n : nat) (x : A) : list A :=
  match l, n with
  | [], _ => []
  | _ :: rest, O => x :: rest
  | y :: rest, S n' => y :: set_nth rest n' x
  end.

(** Consumer [nr], made for the transport connection [t], has taken
    [actions] and is now [c1].  Its [on_close] is [on_consumer_close], which
    deletes [t] from the map before it calls the caller's [on_close]. *)
Definition consumer_acted (t nr : nat) (actions : list action) (c1 : consumer)
  (l : listener) : list listen_action * listener :=
  (map (Listen_of nr) actions,
   {| listen_keypair := listen_keypair l;
      consumers := set_nth (consumers l) nr (t, c1);
      consumer_map :=
        if existsb is_on_close actions
        then Map_delete (consumer_map l) t
        else consumer_map l |}).

(** An event reaches consumer [nr]. *)
Definition within_consumer (nr : nat) (e : event) (l : listener)
  : list listen_action * listener :=
  match nth_error (consumers l) nr with
  | Some (t, c) =>
      let (actions, c1) := step e c in consumer_acted t nr actions c1 l
  | None => ([], l)
  end.

(** [consumer_map.forEach(function (consumer)
    {consumer.transport_closed(reason);})].  A consumer told that the
    transport has closed does not call [on_close], so that the map does not
    change under the loop. *)
Fixpoint stop_each (reason : jsvalue) (entries : list (nat * nat))
  (l : listener) : list listen_action * listener :=
  match entries with
  | [] => ([], l)
  | (_, nr) :: rest =>
      let (out, l1) := within_consumer nr (Transport_closed reason) l in
      let (out2, l2) := stop_each reason rest l1 in
      (out ++ out2, l2)
  end.

(** What happens to a listener: the three callbacks it gave to the
    transport, what happens within one of its consumers (a promise settles,
    the queue takes a turn, the holder of the connection object calls it),
    and the call of [stop].  A transport connection opens with the
    randomness that the consumer made for it will draw from. *)
Inductive listen_event : Type :=
| Transport_opens (transport_connection : nat) (r : entropy)
| Transport_receives (transport_connection : nat) (chunk : ArrayBuffer)
| Transport_closes (transport_connection : nat) (reason : jsvalue)
| Within (nr : nat) (e : event)
| Stop (reason : jsvalue).

Definition listen_step (e : listen_event) (l : listener)
  : list listen_action * listener :=
  match e with
  | Transport_opens t r =>
      let nr := length (consumers l) in
      ([], {| listen_keypair := listen_keypair l;
              consumers :=
                consumers l ++ [(t, listen_consumer nr (listen_keypair l) r)];
              consumer_map := Map_set (consumer_map l) t nr |})
  | Transport_receives t chunk =>
      match Map_get (consumer_map l) t with
      | Some nr => within_consumer nr (Chunk chunk) l
      | None => ([], l)
      end
  | Transport_closes t reason =>
      match Map_get (consumer_map l) t with
      | Some nr =>
          let (out, l1) := within_consumer nr (Transport_closed reason) l in
          (out ++ [Listen_of nr
                     (On_close
                        (match nth_error (consumers l1) nr with
                         | Some (_, c1) => seif_connection c1
                         | None => None
                         end)
                        reason)],
           {| listen_keypair := listen_keypair l1;
              consumers := consumers l1;
              consumer_map := Map_delete (consumer_map l1) t |})
      | None => ([], l)
      end
  | Within nr (Chunk _) => ([], l)
  | Within nr (Transport_closed _) => ([], l)
  | Within nr e => within_consumer nr e l
  | Stop reason =>
      let (out, l1) := stop_each reason (consumer_map l) l in
      (Stop_transport :: out,
       {| listen_keypair := listen_keypair l1;
          consumers := consumers l1;
          consumer_map := [] |})
  end.

Fixpoint listen_run (events : list listen_event) (l : listener)
  : list listen_action * listener :=
  match events with
  | [] => ([], l)
  | e :: rest =>
      let (out, l1) := listen_step e l in
      let (out2, l2) := listen_run rest l1 in
      (out ++ out2, l2)
  end.

(** The calls of the caller's [on_close] for consumer [nr]. *)
Definition closes_of (nr : nat) (out : list listen_action) : nat :=
  length (filter (fun a => match a with
                           | Listen_of n (On_close _ _) => Nat.eqb n nr
                           | _ => false
                           end) out).

(** The transport connections that have opened. *)
Fixpoint opened (events : list listen_event) : list nat :=
  match events with
  | [] => []
  | Transport_opens t _ :: rest => t :: opened rest
  | _ :: rest => opened rest
  end.

(** How a consumer comes to call [on_close]: not at all, and then a
    consumer without a transport connection stays without; or once, with a
    transport connection that it has no more afterwards. *)
Definition closes_once (c : consumer) (a : list action) (c1 : consumer)
  : Prop :=
  (filter is_on_close a = []
   /\ (transport_connection c = false -> transport_connection c1 = false))
  \/ (length (filter is_on_close a) = 1%nat
      /\ transport_connection c = true
      /\ transport_connection c1 = false).

(** What [listen] keeps: the map leads from a transport connection to a
    consumer made for it; [on_close] has been called at most once for a
    consumer, and then the consumer has no transport connection and is not
    in the map; it has not been called for a consumer that is not made. *)
Definition listening (out : list listen_action) (l : listener) : Prop :=
  (forall t nr, In (t, nr) (consumer_map l) ->
                exists c, nth_error (consumers l) nr = Some (t, c))
  /\ (forall nr, (closes_of nr out <= 1)%nat)
  /\ (forall nr t c, closes_of nr out = 1%nat ->
                     nth_error (consumers l) nr = Some (t, c) ->
                     transport_connection c = false
                     /\ ~ In (t, nr) (consumer_map l))
  /\ (forall nr, (length (consumers l) <= nr)%nat -> closes_of nr out = 0%nat).

(** A consumer made by [listen]: it was given no handshake key and no
    [on_redirect], and it has no decryption of a session key in flight. *)
Definition is_session_key_decryption (op : operation) : bool :=
  match op with
  | Decrypt_session_key _ => true
  | _ => false
  end.

Definition receiver (c : consumer) : Prop :=
  handshake_key c = None
  /\ on_redirect c = false
  /\ Forall (fun op => is_session_key_decryption op = false) (in_flight c).



(** ** party.js: the connections of [listen], and the life of [connect]

    [swizzle] gives the caller's callbacks a connection object of the
    party for each connection object of the protocol.  The objects of the
    party are named by numbers in the order in which they are made (a new
    one by the number of those made before it), and [connection_weakmap]
    is a map from the protocol's to the party's. *)
Definition swizzle (protocol_connection : option nat)
  (connection_weakmap : list (nat * nat)) : option nat * list (nat * nat) :=
  match protocol_connection with
  | None => (None, connection_weakmap)
  | Some p =>
      match Map_get connection_weakmap p with
      | Some connection => (Some connection, connection_weakmap)
      | None =>
          let connection := length connection_weakmap in
          (Some connection, Map_set connection_weakmap p connection)
      end
  end.

(** The calls of the swizzled callbacks, one after the other: the
    connection that each passes on. *)
Fixpoint swizzled (calls : list (option nat))
  (connection_weakmap : list (nat * nat))
  : list (option nat) * list (nat * nat) :=
  match calls with
  | [] => ([], connection_weakmap)
  | protocol_connection :: rest =>
      let (connection, m1) := swizzle protocol_connection connection_weakmap in
      let (connections, m2) := swizzled rest m1 in
      (connection :: connections, m2)
  end.

(** The connections of the party in [connection_weakmap] are the numbers
    below its size, each the value of one key. *)
Definition one_to_one (m : list (nat * nat)) : Prop :=
  (forall p c, Map_get m p = Some c -> (c < length m)%nat)
  /\ (forall p q c, Map_get m p = Some c -> Map_get m q = Some c -> p = q).

(** An acquaintance of the store. *)
Record Acquaintance : Type := {
  acquaintance_address : jsvalue;
  acquaintance_public_key : CryptoKey
}.

(** [get_keypair()], given what [store.read_keypair()] settles to and what
    [store.write_keypair] does. *)
Definition get_keypair (autogenerate_keypair : bool)
  (read_keypair : promise (option CryptoKeyPair))
  (write_keypair : CryptoKeyPair -> promise unit) (r : entropy)
  : promise CryptoKeyPair * entropy :=
  match read_keypair with
  | Rejected reason => (Rejected reason, r)
  | Resolved (Some keypair) => (Resolved keypair, r)
  | Resolved None =>
      if negb autogenerate_keypair
      then (Rejected (VError "Missing keypair."), r)
      else
        let (generated, r1) := generate_keypair r in
        (then_ generated (fun fresh_keypair =>
         then_ (write_keypair fresh_keypair) (fun _ =>
         Resolved fresh_keypair)), r1)
  end.

(** [get_acquaintance(petname)], given what
    [store.read_acquaintance(petname)] settles to. *)
Definition get_acquaintance (petname : string)
  (read_acquaintance : promise (option Acquaintance)) : promise Acquaintance :=
  then_ read_acquaintance (fun acquaintance =>
    match acquaintance with
    | None =>
        Rejected (VError (String.append "Not acquainted with "
                                        (String.append petname ".")))
    | Some a => Resolved a
    end).

(** The variables [protocol_close] and [on_close] of [connect]: whether
    they are defined. *)
Record party_connection : Type := {
  protocol_close : bool;
  caller_on_close : bool
}.

(** What [connect] of a party calls: its caller and the store, as in
    [party_action], and the protocol; and the [TypeError] of calling an
    undefined [on_close]. *)
Inductive party_call : Type :=
| Of_party (a : party_action)
| Protocol_connect (keypair : CryptoKeyPair) (address : jsvalue)
                   (public_key : CryptoKey)
| Protocol_close (reason : jsvalue)
| Throws_type_error.

(** [destroy(reason)] *)
Definition party_destroy (reason : jsvalue) (s : party_connection)
  : list party_call * party_connection :=
  ((if protocol_close s then [Protocol_close reason] else [])
   ++ (if caller_on_close s
       then [Of_party (Caller_on_close None reason)]
       else []),
   {| protocol_close := false; caller_on_close := false |}).

(** What happens to [connect] of a party: the promise of the keypair and
    the acquaintance settles (and the [connect] of the protocol, where it
    is called, returns); the protocol calls the [on_close] it was given
    (with a public key where it is being redirected); the promise of
    [store.add_acquaintance] is rejected; the caller calls [close]. *)
Inductive party_event : Type :=
| Prepared (p : promise (CryptoKeyPair * Acquaintance))
| Protocol_on_close (connection : option nat) (reason : jsvalue)
    (redirection : option (jsvalue * CryptoKey * jsvalue * jsvalue))
| Add_acquaintance_rejected (reason : jsvalue)
| Close_called (reason : jsvalue).

Definition party_step (petname : string) (e : party_event)
  (s : party_connection) : list party_call * party_connection :=
  match e with
  | Prepared (Resolved (keypair, acquaintance)) =>
      if negb (caller_on_close s) then ([], s)
      else ([Protocol_connect keypair (acquaintance_address acquaintance)
                              (acquaintance_public_key acquaintance)],
            {| protocol_close := true; caller_on_close := caller_on_close s |})
  | Prepared (Rejected reason) => party_destroy reason s
  | Protocol_on_close connection reason redirection =>
      if caller_on_close s
      then (map Of_party (party_on_close petname connection reason redirection),
            s)
      else ((match redirection with
             | Some (address, public_key, permanent, _) =>
                 if truthy permanent
                 then [Of_party
                         (Store_add_acquaintance petname address public_key)]
                 else []
             | None => []
             end) ++ [Throws_type_error], s)
  | Add_acquaintance_rejected reason => party_destroy reason s
  | Close_called reason =>
      party_destroy reason
        {| protocol_close := protocol_close s; caller_on_close := false |}
  end.

Fixpoint party_run (petname : string) (events : list party_event)
  (s : party_connection) : list party_call * party_connection :=
  match events with
  | [] => ([], s)
  | e :: rest =>
      let (out, s1) := party_step petname e s in
      let (out2, s2) := party_run petname rest s1 in
      (out ++ out2, s2)
  end.

(** [connect] has just been called: it waits for the keypair and the
    acquaintance. *)
Definition party_connecting : party_connection :=
  {| protocol_close := false; caller_on_close := true |}.

Definition party_prepare (autogenerate_keypair : bool)
  (read_keypair : promise (option CryptoKeyPair))
  (write_keypair : CryptoKeyPair -> promise unit) (r : entropy)
  (petname : string) (read_acquaintance : promise (option Acquaintance))
  : promise (CryptoKeyPair * Acquaintance) :=
  Promise_all2
    (fst (get_keypair autogenerate_keypair read_keypair write_keypair r))
    (get_acquaintance petname read_acquaintance).

(** What [connect] of a party still does once it is closed or could not
    prepare: the wrapper of [on_close], called by the protocol, updates the
    store for a permanent redirection and throws. *)
Definition is_aftermath (a : party_call) : bool :=
  match a with
  | Of_party (Store_add_acquaintance _ _ _) => true
  | Throws_type_error => true
  | _ => false
  end.

(** ** party.js: the life of [listen] of a party *)

(** The variables [protocol_stop] and [on_close] of [listen] (whether they
    are defined) and [connection_weakmap]. *)
Record party_listener : Type := {
  protocol_stop : bool;
  listener_on_close : bool;
  connection_weakmap : list (nat * nat)
}.

Inductive callback_name : Type :=
| Named_on_open
| Named_on_message
| Named_on_close.

(** What [listen] of a party calls: the [listen] of the protocol, the
    function it returned, and the [redirect] of a connection of the
    protocol; the caller's [on_close], from [destroy]; and a callback of
    the caller, from the function [swizzle] made of it. *)
Inductive listening_call : Type :=
| Protocol_listen (keypair : CryptoKeyPair)
| Protocol_stop (reason : jsvalue)
| Protocol_redirect (protocol_connection : nat) (address : jsvalue)
                    (public_key : CryptoKey)
                    (permanent redirect_context : jsvalue)
| On_close_undefined (reason : jsvalue)
| Swizzled (callback : callback_name) (connection : option nat).

(** [destroy(reason)] *)
Definition listener_destroy (reason : jsvalue) (s : party_listener)
  : list listening_call * party_listener :=
  ((if protocol_stop s then [Protocol_stop reason] else [])
   ++ (if listener_on_close s then [On_close_undefined reason] else []),
   {| protocol_stop := false; listener_on_close := false;
      connection_weakmap := connection_weakmap s |}).

(** What happens to [listen] of a party: the promise of the keypair
    settles (and the [listen] of the protocol, where it is called,
    returns); the protocol calls one of the callbacks it was given; the
    [redirect] of the connection of the party made for a connection of the
    protocol is called, and [store.read_acquaintance] settles; the caller
    calls [stop]. *)
Inductive listening_event : Type :=
| Keypair_settled (p : promise CryptoKeyPair)
| Protocol_calls (callback : callback_name) (protocol_connection : option nat)
| Redirect_called (protocol_connection : nat) (petname : string)
    (read_acquaintance : promise (option Acquaintance))
    (permanent redirect_context : jsvalue)
| Stop_called (reason : jsvalue).

Definition listening_step (e : listening_event) (s : party_listener)
  : list listening_call * party_listener :=
  match e with
  | Keypair_settled (Resolved keypair) =>
      if negb (listener_on_close s) then ([], s)
      else ([Protocol_listen keypair],
            {| protocol_stop := true;
               listener_on_close := listener_on_close s;
               connection_weakmap := connection_weakmap s |})
  | Keypair_settled (Rejected reason) => listener_destroy reason s
  | Protocol_calls callback protocol_connection =>
      let (connection, m) :=
        swizzle protocol_connection (connection_weakmap s) in
      ([Swizzled callback connection],
       {| protocol_stop := protocol_stop s;
          listener_on_close := listener_on_close s;
          connection_weakmap := m |})
  | Redirect_called protocol_connection petname read_acquaintance permanent
                    redirect_context =>
      match get_acquaintance petname read_acquaintance with
      | Resolved acquaintance =>
          ([Protocol_redirect protocol_connection
              (acquaintance_address acquaintance)
              (acquaintance_public_key acquaintance)
              permanent redirect_context], s)
      | Rejected reason => listener_destroy reason s
      end
  | Stop_called reason =>
      listener_destroy reason
        {| protocol_stop := protocol_stop s; listener_on_close := false;
           connection_weakmap := connection_weakmap s |}
  end.

Fixpoint listening_run (events : list listening_event) (s : party_listener)
  : list listening_call * party_listener :=
  match events with
  | [] => ([], s)
  | e :: rest =>
      let (out, s1) := listening_step e s in
      let (out2, s2) := listening_run rest s1 in
      (out ++ out2, s2)
  end.

(** [listen] has just been called: it waits for the keypair. *)
Definition party_listening : party_listener :=
  {| protocol_stop := false; listener_on_close := true;
     connection_weakmap := [] |}.

(** What [listen] of a party still does once it has stopped: it passes on
    what the protocol calls and the redirections to acquaintances. *)
Definition is_passed_on (a : listening_call) : bool :=
  match a with
  | Swizzled _ _ => true
  | Protocol_redirect _ _ _ _ _ => true
  | _ => false
  end.

(** * Properties *)

(** ** The IV generator *)

Lemma byte_of_uint32 (a k : Z) :
  k = 0 \/ k = 8 \/ k = 16 \/ k = 24 ->
  (ToUint32 a / 2 ^ k) mod 256 = (a / 2 ^ k) mod 256.
Proof.
  unfold ToUint32.
  intros [-> | [-> | [-> | ->]]];
    change (2 ^ 32) with 4294967296;
    change (2 ^ 0) with 1; change (2 ^ 8) with 256;
    change (2 ^ 16) with 65536; change (2 ^ 24) with 16777216;
    Z.div_mod_to_equations; lia.
Qed.

Lemma iv_bytes (f c : Z) :
  0 <= c <= MAX_SAFE_INTEGER ->
  iv_generator f c =
  Ok ([(f / 2 ^ 24) mod 256; (f / 2 ^ 16) mod 256; (f / 2 ^ 8) mod 256;
       (f / 2 ^ 0) mod 256;
       (c / 2 ^ 56) mod 256; (c / 2 ^ 48) mod 256; (c / 2 ^ 40) mod 256;
       (c / 2 ^ 32) mod 256;
       (c / 2 ^ 24) mod 256; (c / 2 ^ 16) mod 256; (c / 2 ^ 8) mod 256;
       (c / 2 ^ 0) mod 256], c + 1).
Proof.
  intros Hc. unfold iv_generator.
  destruct (c >? MAX_SAFE_INTEGER) eqn:E; [lia |].
  cbn [new_ArrayBuffer repeat setUint32 write_at bind length Nat.add
       Nat.leb firstn skipn app].
  rewrite Z.rem_mod_nonneg by lia.
  replace (ToUint32 (c mod 2 ^ 32)) with (ToUint32 c)
    by (unfold ToUint32; now rewrite Z.mod_mod).
  rewrite <- (Z.div_1_r (ToUint32 f)) at 4.
  rewrite <- (Z.div_1_r (ToUint32 c)) at 4.
  rewrite <- (Z.div_1_r (ToUint32 (c / 2 ^ 32))) at 4.
  change 1 with (2 ^ 0).
  rewrite !byte_of_uint32 by tauto.
  rewrite !Z.div_div by lia.
  reflexivity.
Qed.

Lemma counter_after_ok (f : Z) (n : nat) :
  Z.of_nat n <= MAX_SAFE_INTEGER + 1 ->
  counter_after f n = Ok (Z.of_nat n).
Proof.
  induction n as [| n IH]; intros Hn; [reflexivity |].
  cbn [counter_after]. rewrite IH by lia. cbn [bind].
  rewrite iv_bytes by lia. cbn [bind snd]. f_equal. lia.
Qed.

Lemma counter_after_exhausted (f : Z) (n : nat) :
  Z.of_nat n > MAX_SAFE_INTEGER + 1 ->
  counter_after f n = Throw "Counter exhausted.".
Proof.
  induction n as [| n IH]; intros Hn; [cbn in Hn; lia |].
  cbn [counter_after].
  destruct (Z.eq_dec (Z.of_nat n) (MAX_SAFE_INTEGER + 1)) as [E | E].
  - rewrite counter_after_ok by lia. cbn [bind]. unfold iv_generator.
    rewrite E. reflexivity.
  - rewrite IH by lia. reflexivity.
Qed.

Lemma spec_iv_bytes (f c : Z) :
  spec_iv f c =
  [(f / 2 ^ 24) mod 256; (f / 2 ^ 16) mod 256; (f / 2 ^ 8) mod 256;
   (f / 2 ^ 0) mod 256;
   (c / 2 ^ 56) mod 256; (c / 2 ^ 48) mod 256; (c / 2 ^ 40) mod 256;
   (c / 2 ^ 32) mod 256;
   (c / 2 ^ 24) mod 256; (c / 2 ^ 16) mod 256; (c / 2 ^ 8) mod 256;
   (c / 2 ^ 0) mod 256].
Proof. reflexivity. Qed.

Lemma iv_generator_spec (f c : Z) :
  0 <= c <= MAX_SAFE_INTEGER ->
  iv_generator f c = Ok (spec_iv f c, c + 1).
Proof. intros Hc. rewrite spec_iv_bytes. now apply iv_bytes. Qed.

(** C2.  For a fixed field of 0 or 1, call number [n] of the generator
    returns the twelve bytes made of the fixed field as a 32-bit big-endian
    word (three zero bytes, then the field) followed by [n] as a 64-bit
    big-endian word, and leaves the counter at [n + 1]; the call fails with
    "Counter exhausted." exactly when the counter is above [2^53 - 1]. *)
Theorem iv_generator_nth_call (f : Z) (n : nat) :
  f = 0 \/ f = 1 ->
  (Z.of_nat n <= 2 ^ 53 - 1 ->
   nth_call f n = Ok (spec_iv f (Z.of_nat n), Z.of_nat n + 1)
   /\ spec_iv f (Z.of_nat n) = [0; 0; 0; f] ++ big_endian 8 (Z.of_nat n)
   /\ length (spec_iv f (Z.of_nat n)) = 12%nat)
  /\ (Z.of_nat n > 2 ^ 53 - 1 -> nth_call f n = Throw "Counter exhausted.")
  /\ (forall c : Z,
        iv_generator f c = Throw "Counter exhausted." <-> c > 2 ^ 53 - 1).
Proof.
  intros Hf. split; [| split].
  - intros Hn. split; [| split].
    + unfold nth_call. rewrite counter_after_ok by (unfold MAX_SAFE_INTEGER; lia).
      cbn [bind]. apply iv_generator_spec. unfold MAX_SAFE_INTEGER. lia.
    + destruct Hf as [-> | ->]; reflexivity.
    + reflexivity.
  - intros Hn. unfold nth_call.
    destruct (Z.eq_dec (Z.of_nat n) (MAX_SAFE_INTEGER + 1)) as [E | E].
    + rewrite counter_after_ok by lia. cbn [bind]. unfold iv_generator.
      rewrite E. reflexivity.
    + rewrite counter_after_exhausted; [reflexivity |].
      unfold MAX_SAFE_INTEGER in *. lia.
  - intros c. unfold iv_generator. fold MAX_SAFE_INTEGER.
    destruct (c >? MAX_SAFE_INTEGER) eqn:E.
    + split; [intros _; lia | reflexivity].
    + split; [discriminate | lia].
Qed.

(** ** [make_record] *)

Lemma map_fields_spec (fields : jsobject) (blobs : list json) :
  map_fields fields blobs =
  (blobs ++ map entry_of fields, map plaintext_of fields).
Proof.
  revert blobs. induction fields as [| [id v] rest IH]; intros blobs.
  - cbn. now rewrite app_nil_r.
  - cbn [map_fields]. unfold blob_of_field.
    destruct v; rewrite IH, <- app_assoc; reflexivity.
Qed.

Lemma record_parts_spec (identifier : list (string * json)) (props : jsobject) :
  record_parts identifier props =
  (set_property identifier "blobs"
                (JArray (map entry_of (carried_fields props))),
   map plaintext_of (carried_fields props)).
Proof.
  unfold record_parts. fold (carried_fields props).
  now rewrite map_fields_spec.
Qed.

Lemma fold_left_concat_buffers (l : list ArrayBuffer) (a : ArrayBuffer) :
  fold_left concat_buffers l a = a ++ concat l.
Proof.
  revert a. induction l as [| b l IH]; intros a; cbn.
  - now rewrite app_nil_r.
  - rewrite IH. unfold concat_buffers. now rewrite <- app_assoc.
Qed.

Lemma assemble_record_spec (first : ArrayBuffer) (rest : list ArrayBuffer) :
  assemble_record (first :: rest) =
  Ok ([(ToUint16 (byteLength first) / 2 ^ 8) mod 256;
       ToUint16 (byteLength first) mod 256]
      ++ first ++ concat rest).
Proof.
  unfold assemble_record. cbn [new_ArrayBuffer repeat setUint16 write_at
    length Nat.add Nat.leb firstn skipn bind app].
  now rewrite fold_left_concat_buffers.
Qed.

Lemma Promise_all_resolved {A : Type} (l : list A) :
  Promise_all (map Resolved l) = Resolved l.
Proof.
  induction l as [| a l IH]; cbn; [reflexivity | now rewrite IH].
Qed.

Lemma big_endian_2 (n : Z) :
  0 <= n < 2 ^ 16 ->
  [(ToUint16 n / 2 ^ 8) mod 256; ToUint16 n mod 256] = big_endian 2 n.
Proof.
  intros Hn. unfold ToUint16. rewrite (Z.mod_small n (2 ^ 16)) by lia.
  cbn [big_endian]. change (256 ^ Z.of_nat 1) with (2 ^ 8).
  change (256 ^ Z.of_nat 0) with 1. now rewrite Z.div_1_r.
Qed.

(** The shape of every record: for the fields of the message that are not
    undefined, in their order, the identifier lists the id, the type
    ("Buffer" for a raw buffer, "JSON" otherwise) and the plaintext length;
    the identifier and the blobs are encrypted one by one in that order; and
    the record is a two-byte field, the encrypted identifier and the
    encrypted blobs.  The field is the big-endian length of the encrypted
    identifier when that length is below 2^16. *)
Lemma make_record_shape {St : Type} (identifier : list (string * json))
  (props : jsobject) (encrypt_buffer : encryptor St) (st st1 : St)
  (encrypted_identifier : ArrayBuffer) (encrypted_blobs : list ArrayBuffer) :
  let fields := carried_fields props in
  let identifier_buffer :=
    encode_json
      (VJson (JObject (set_property identifier "blobs"
                                    (JArray (map entry_of fields))))) in
  byteLength identifier_buffer < 2 ^ 16 ->
  map_encrypt encrypt_buffer (identifier_buffer :: map plaintext_of fields) st
  = (Ok (map Resolved (encrypted_identifier :: encrypted_blobs)), st1) ->
  exists length_field : ArrayBuffer,
    make_record identifier (MObject props) encrypt_buffer st
    = (Ok (Resolved (length_field ++ encrypted_identifier
                                  ++ concat encrypted_blobs)), st1)
    /\ length length_field = 2%nat
    /\ getUint16 length_field
       = Ok (byteLength encrypted_identifier mod 2 ^ 16)
    /\ (byteLength encrypted_identifier < 2 ^ 16 ->
        length_field = big_endian 2 (byteLength encrypted_identifier)).
Proof.
  intros fields identifier_buffer Hsize Henc.
  exists [(ToUint16 (byteLength encrypted_identifier) / 2 ^ 8) mod 256;
          ToUint16 (byteLength encrypted_identifier) mod 256].
  split; [| split; [| split]].
  - unfold make_record. rewrite record_parts_spec.
    fold fields. fold identifier_buffer.
    destruct (byteLength identifier_buffer >=? 2 ^ 16) eqn:E; [lia |].
    rewrite Henc, Promise_all_resolved. cbn [then_].
    now rewrite assemble_record_spec.
  - reflexivity.
  - cbn [getUint16]. f_equal. unfold ToUint16.
    change (2 ^ 16) with 65536. change (2 ^ 8) with 256.
    generalize (byteLength encrypted_identifier). clear. intros n.
    Z.div_mod_to_equations. lia.
  - intros Hfit. apply big_endian_2. unfold byteLength in Hfit |- *. lia.
Qed.

(** X2.  Where the encrypted identifier has fewer than 2^16 bytes, the
    record of a message is what the specification says: the identifier
    lists, for the fields of the message that are not undefined and in
    their order, the id, the type ("Buffer" for a raw buffer, "JSON"
    otherwise, the value serialised) and the length of the plaintext; and
    the record is the big-endian length on two bytes of the encrypted
    identifier, the encrypted identifier and the encrypted blobs in
    order. *)
Theorem make_record_layout {St : Type} (identifier : list (string * json))
  (props : jsobject) (encrypt_buffer : encryptor St) (st st1 : St)
  (encrypted_identifier : ArrayBuffer) (encrypted_blobs : list ArrayBuffer) :
  let fields := carried_fields props in
  let identifier_buffer :=
    encode_json
      (VJson (JObject (set_property identifier "blobs"
                                    (JArray (map entry_of fields))))) in
  byteLength identifier_buffer < 2 ^ 16 ->
  map_encrypt encrypt_buffer (identifier_buffer :: map plaintext_of fields) st
  = (Ok (map Resolved (encrypted_identifier :: encrypted_blobs)), st1) ->
  byteLength encrypted_identifier < 2 ^ 16 ->
  make_record identifier (MObject props) encrypt_buffer st
  = (Ok (Resolved (big_endian 2 (byteLength encrypted_identifier)
                   ++ encrypted_identifier ++ concat encrypted_blobs)), st1).
Proof.
  intros fields identifier_buffer Hsize Henc Hfit.
  destruct (make_record_shape identifier props encrypt_buffer st st1
              encrypted_identifier encrypted_blobs Hsize Henc)
    as (field & Hrecord & _ & _ & Hfield).
  now rewrite <- (Hfield Hfit).
Qed.





(** C3.  The length field of a record whose encrypted identifier has 2^16
    bytes or more is not the length of that identifier.  The guard of
    [make_record] bounds the plaintext of the identifier; under AES-GCM the
    ciphertext is 16 bytes longer, and [setUint16] keeps the length modulo
    2^16: for a serialised identifier of 65520 to 65535 bytes, the field
    reads 65536 less than the length of the encrypted identifier that
    follows it. *)
Theorem make_record_length_field_wraps {St : Type}
  (identifier : list (string * json)) (props : jsobject)
  (encrypt_buffer : encryptor St) (st st1 : St)
  (encrypted_identifier : ArrayBuffer) (encrypted_blobs : list ArrayBuffer) :
  let fields := carried_fields props in
  let identifier_buffer :=
    encode_json
      (VJson (JObject (set_property identifier "blobs"
                                    (JArray (map entry_of fields))))) in
  65520 <= byteLength identifier_buffer < 65536 ->
  map_encrypt encrypt_buffer (identifier_buffer :: map plaintext_of fields) st
  = (Ok (map Resolved (encrypted_identifier :: encrypted_blobs)), st1) ->
  byteLength encrypted_identifier = byteLength identifier_buffer + 16 ->
  exists length_field : ArrayBuffer,
    make_record identifier (MObject props) encrypt_buffer st
    = (Ok (Resolved (length_field ++ encrypted_identifier
                                  ++ concat encrypted_blobs)), st1)
    /\ length length_field = 2%nat
    /\ getUint16 length_field = Ok (byteLength encrypted_identifier - 65536)
    /\ getUint16 length_field <> Ok (byteLength encrypted_identifier).
Proof.
  intros fields identifier_buffer Hsize Henc Htag.
  destruct (make_record_shape identifier props encrypt_buffer st st1
              encrypted_identifier encrypted_blobs)
    as (field & Hrecord & Hlen & Hget & _);
    [fold fields; fold identifier_buffer; lia | exact Henc |].
  exists field. split; [exact Hrecord | split; [exact Hlen |]].
  assert (Hmod : byteLength encrypted_identifier mod 2 ^ 16
                 = byteLength encrypted_identifier - 65536).
  { change (2 ^ 16) with 65536.
    rewrite <- (Z.mod_small (byteLength encrypted_identifier - 65536) 65536)
      by lia.
    replace (byteLength encrypted_identifier)
      with (byteLength encrypted_identifier - 65536 + 1 * 65536) at 1 by lia.
    now rewrite Z.mod_add by lia. }
  rewrite Hget, Hmod. split; [reflexivity |].
  intros H. inversion H. lia.
Qed.

(** ** ECIES *)

Lemma slice_prefix (b : ArrayBuffer) (n : Z) :
  0 <= n -> slice b 0 (Some n) = firstn (Z.to_nat n) b.
Proof.
  intros Hn. unfold slice, relative_index, byteLength.
  destruct (0 <? 0) eqn:E0; [discriminate |].
  destruct (n <? 0) eqn:E; [lia |].
  rewrite (Z.min_l 0) by lia. cbn [Z.to_nat skipn].
  destruct (Z.le_ge_cases n (Z.of_nat (length b))) as [Hle | Hge].
  - rewrite Z.min_l by lia. f_equal. lia.
  - rewrite Z.min_r by lia. rewrite !firstn_all2 by lia. reflexivity.
Qed.

Lemma slice_suffix (b : ArrayBuffer) (n : Z) :
  0 <= n -> slice b n None = skipn (Z.to_nat n) b.
Proof.
  intros Hn. unfold slice, relative_index, byteLength.
  destruct (n <? 0) eqn:E; [lia |].
  destruct (Z.le_ge_cases n (Z.of_nat (length b))) as [Hle | Hge].
  - rewrite Z.min_l by lia. apply firstn_all2. rewrite length_skipn. lia.
  - rewrite Z.min_r by lia. rewrite Nat2Z.id.
    rewrite !skipn_all2 by lia. now rewrite firstn_nil.
Qed.

Lemma write_at_middle (before old after new : ArrayBuffer) :
  length old = length new ->
  write_at (before ++ old ++ after) (length before) new
  = Ok (before ++ new ++ after).
Proof.
  intros Hlen. unfold write_at. rewrite !length_app, <- Hlen.
  destruct (length before + length old
            <=? length before + (length old + length after))%nat eqn:E;
    [| apply Nat.leb_gt in E; lia].
  rewrite firstn_app, Nat.sub_diag, firstn_all. cbn [firstn].
  rewrite app_nil_r. do 2 f_equal.
  rewrite skipn_app, skipn_all2 by lia.
  replace (length before + length old - length before)%nat
    with (length old) by lia.
  rewrite skipn_app, skipn_all, Nat.sub_diag. reflexivity.
Qed.

Lemma ecies_ciphertext_spec (key encrypted : ArrayBuffer) :
  ecies_ciphertext key encrypted = Ok (key ++ encrypted).
Proof.
  unfold ecies_ciphertext, new_ArrayBuffer. rewrite repeat_app.
  pose proof (write_at_middle [] (repeat 0 (length key))
                (repeat 0 (length encrypted)) key (repeat_length _ _)) as H1.
  pose proof (write_at_middle key (repeat 0 (length encrypted)) [] encrypted
                (repeat_length _ _)) as H2.
  cbn [app length] in H1. rewrite !app_nil_r in H2.
  rewrite H1. cbn [bind]. exact H2.
Qed.

Lemma nr_raw_key_bytes_value : nr_raw_key_bytes = 133.
Proof. reflexivity. Qed.

(** C7.  Where WebCrypto exports a raw P-521 public key on 133 bytes and
    AES-GCM lengthens a plaintext by 16 bytes: an ECIES ciphertext is made
    of the raw public key of a keypair generated for it, followed by the
    encryption of the plaintext, with twelve zero bytes for IV, under the
    AES key imported from the 256 bits that ECDH derives from the
    recipient's public key and that keypair's private key; it has
    133 + plaintext length + 16 bytes.  Decryption takes the first 133
    bytes for the ephemeral public key and decrypts the rest. *)
Theorem ecies_ciphertext_layout
  (plaintext : ArrayBuffer) (public_key private_key : CryptoKey)
  (r r1 : entropy) (ciphertext : ArrayBuffer) :
  (forall (pair : CryptoKeyPair) (e e1 : entropy) (raw : ArrayBuffer),
     subtle_generateKey_ECDH "P-521" e = (Resolved pair, e1) ->
     subtle_exportKey Raw (publicKey pair) = Resolved raw ->
     byteLength raw = 133) ->
  (forall (iv : ArrayBuffer) (key : CryptoKey) (p c : ArrayBuffer),
     subtle_encrypt iv key p = Resolved c ->
     byteLength c = byteLength p + 16) ->
  ecies_encrypt plaintext public_key r = (Resolved ciphertext, r1) ->
  exists (ephemeral : CryptoKeyPair) (raw bits encrypted : ArrayBuffer)
         (aes_key : CryptoKey),
    subtle_generateKey_ECDH "P-521" r = (Resolved ephemeral, r1)
    /\ subtle_exportKey Raw (publicKey ephemeral) = Resolved raw
    /\ subtle_deriveBits public_key (privateKey ephemeral) 256 = Resolved bits
    /\ subtle_importKey Raw bits AES_GCM = Resolved aes_key
    /\ subtle_encrypt [0; 0; 0; 0; 0; 0; 0; 0; 0; 0; 0; 0] aes_key plaintext
       = Resolved encrypted
    /\ ciphertext = raw ++ encrypted
    /\ byteLength raw = 133
    /\ byteLength ciphertext = 133 + byteLength plaintext + 16
    /\ ecies_decrypt (VArrayBuffer ciphertext) private_key
       = Ok (then_ (subtle_importKey Raw raw (ECDH "P-521"))
               (fun ephemeral_public_key =>
          then_ (subtle_deriveBits ephemeral_public_key private_key 256)
               (fun aes_key_buffer =>
          then_ (subtle_importKey Raw aes_key_buffer AES_GCM) (fun key =>
          subtle_decrypt [0; 0; 0; 0; 0; 0; 0; 0; 0; 0; 0; 0] key
                         encrypted)))).
Proof.
  intros Hraw Htag H. unfold ecies_encrypt, generate_keypair, curve in H.
  destruct (subtle_generateKey_ECDH "P-521" r) as [[ephemeral | ?] r2] eqn:Eg;
    cbn [then_] in H; [| discriminate].
  injection H as H <-.
  destruct (subtle_exportKey Raw (publicKey ephemeral)) as [raw | ?] eqn:Ee;
    cbn [Promise_all2 then_] in H; [| discriminate].
  destruct (subtle_deriveBits public_key (privateKey ephemeral) 256)
    as [bits | ?] eqn:Ed; cbn [then_] in H; [| discriminate].
  destruct (subtle_importKey Raw bits AES_GCM) as [aes_key | ?] eqn:Ei;
    cbn [then_] in H; [| discriminate].
  destruct (subtle_encrypt ecies_iv aes_key plaintext) as [encrypted | ?] eqn:Ec;
    cbn [then_] in H; [| discriminate].
  rewrite ecies_ciphertext_spec in H. cbn [settle] in H.
  injection H as <-.
  assert (Hr := Hraw _ _ _ _ Eg Ee). assert (Ht := Htag _ _ _ _ Ec).
  exists ephemeral, raw, bits, encrypted, aes_key.
  repeat split; try assumption.
  - unfold byteLength in Hr, Ht |- *. rewrite length_app. lia.
  - unfold ecies_decrypt, slice_value. rewrite nr_raw_key_bytes_value.
    rewrite slice_prefix, slice_suffix by lia. cbn [bind settle then_].
    assert (Hn : Z.to_nat 133 = length raw)
      by (unfold byteLength in Hr; lia).
    rewrite Hn, firstn_app, Nat.sub_diag, firstn_all, skipn_app, Nat.sub_diag,
      skipn_all. cbn [firstn skipn app]. rewrite app_nil_r.
    reflexivity.
Qed.

(** ** [destroy] *)



(** ** Histories of a consumer

    A property of histories is a relation between a state, the actions
    taken and the state reached that holds of no action and of actions in
    sequence.  If one invocation of [consume] has it, [consume] has it; if
    one event has it, every history has it. *)
Section History.

Variable holds : consumer -> list action -> consumer -> Prop.

Hypothesis holds_nothing : forall c, holds c [] c.

Hypothesis holds_sequence :
  forall c1 a1 c2 a2 c3,
    holds c1 a1 c2 -> holds c2 a2 c3 -> holds c1 (a1 ++ a2) c3.

Lemma consume_loop_holds :
  (forall c a c1 f, consume_body c = (a, c1, f) -> holds c a c1) ->
  forall fuel c a c1 f, consume_loop fuel c = (a, c1, f) -> holds c a c1.
Proof using holds_nothing holds_sequence.
  intros Hbody. induction fuel as [| fuel IH]; intros c a c1 f H.
  - cbn in H. injection H as <- <- <-. apply holds_nothing.
  - cbn [consume_loop] in H.
    destruct (consume_body c) as [[a0 c0] f0] eqn:E.
    destruct f0.
    + injection H as <- <- <-. eapply Hbody. eassumption.
    + destruct (consume_loop fuel c0) as [[a2 c2] f2] eqn:E2.
      injection H as <- <- <-.
      eapply holds_sequence; [eapply Hbody | eapply IH]; eassumption.
    + injection H as <- <- <-. eapply Hbody. eassumption.
Qed.

Lemma consume_holds :
  (forall c a c1 f, consume_body c = (a, c1, f) -> holds c a c1) ->
  forall c a c1 f, consume c = (a, c1, f) -> holds c a c1.
Proof using holds_nothing holds_sequence.
  intros Hbody c a c1 f H. unfold consume in H.
  destruct (consume_body c) as [[a0 c0] f0] eqn:E.
  destruct f0.
  - injection H as <- <- <-. eapply Hbody. eassumption.
  - destruct (consume_loop (remaining_blobs c0 + 2) c0) as [[a2 c2] f2] eqn:E2.
    injection H as <- <- <-.
    eapply holds_sequence; [eapply Hbody | eapply consume_loop_holds];
      eassumption.
  - injection H as <- <- <-. eapply Hbody. eassumption.
Qed.

Lemma run_holds :
  (forall e c a c1, step e c = (a, c1) -> holds c a c1) ->
  forall events c a c1, run events c = (a, c1) -> holds c a c1.
Proof using holds_nothing holds_sequence.
  intros Hstep. induction events as [| e events IH]; intros c a c1 H.
  - cbn in H. injection H as <- <-. apply holds_nothing.
  - cbn [run] in H. destruct (step e c) as [a0 c0] eqn:E.
    destruct (run events c0) as [a2 c2] eqn:E2.
    injection H as <- <-.
    eapply holds_sequence; [eapply Hstep | eapply IH]; eassumption.
Qed.

End History.

(** ** One promise in flight *)

Ltac break_match_in H :=
  match type of H with
  | context [match ?x with _ => _ end] =>
      lazymatch x with
      | context [match _ with _ => _ end] => fail
      | _ => destruct x eqn:?
      end
  end.

Ltac simpl_equations :=
  repeat match goal with
  | E : _ = _ |- _ => progress cbn in E
  end.

Ltac break_result H :=
  repeat (break_match_in H; try discriminate H);
  first [injection H as <- <- <- | injection H as <- <- | idtac].

Lemma destroy_state (reason : jsvalue) (situation : option bool)
  (c : consumer) :
  snd (destroy reason situation c) = set_transport_connection c false.
Proof.
  unfold destroy. destruct (transport_connection c) eqn:E; [reflexivity |].
  destruct c. cbn in E |- *. now rewrite E.
Qed.

Ltac destroyed :=
  repeat match goal with
  | H : destroy ?r ?s ?c = (_, ?c1) |- _ =>
      let E := fresh in
      assert (E : c1 = set_transport_connection c false)
        by (rewrite <- (destroy_state r s c), H; reflexivity);
      clear H; rewrite E; clear E
  end.

(** [H : destroy r s c = (a, c1)]: [c1] is [c] with the transport
    connection undefined. *)
Ltac destroyed_in H :=
  match type of H with
  | destroy ?r ?s ?c = (_, ?c1) =>
      let E := fresh in
      assert (E : c1 = set_transport_connection c false)
        by (rewrite <- (destroy_state r s c), H; reflexivity);
      clear H; rewrite E; clear E
  end.

Lemma one_in_flight_idle (c : consumer) :
  in_flight c = [] -> one_in_flight c.
Proof. intros H. now left. Qed.

Lemma one_in_flight_started (c : consumer) (op : operation) :
  in_flight c = [op] -> busy c = true -> one_in_flight c.
Proof. intros H1 H2. right. split; [now exists op | exact H2]. Qed.

Lemma receive_one_in_flight (c c1 : consumer) (a : list action) (f : flow) :
  receive c = (a, c1, f) -> in_flight c = [] -> one_in_flight c1.
Proof.
  intros H Hidle. unfold receive in H.
  break_result H; destroyed.
  all: first
    [ apply one_in_flight_idle; cbn; exact Hidle
    | eapply one_in_flight_started; cbn; [rewrite Hidle; reflexivity
                                          | reflexivity] ].
Qed.

Lemma busy_in_flight (c : consumer) :
  one_in_flight c -> busy c = false -> in_flight c = [].
Proof.
  intros [H | [_ H]] Hbusy; [exact H | congruence].
Qed.

Lemma decrypt_state (cipher : ArrayBuffer) (c : consumer) :
  snd (decrypt cipher c) = set_crypto c (snd (draw_decryption_iv (crypto c))).
Proof.
  unfold decrypt. destruct (draw_decryption_iv (crypto c)) as [[iv | m] st];
    reflexivity.
Qed.

Ltac decrypted :=
  repeat match goal with
  | H : decrypt ?b ?c = (_, ?c1) |- _ =>
      let E := fresh in
      assert (E : c1 = set_crypto c (snd (draw_decryption_iv (crypto c))))
        by (rewrite <- (decrypt_state b c), H; reflexivity);
      clear H; rewrite E; clear E
  end.

Lemma start_decrypt_one_in_flight (n : Z) (k : promise ArrayBuffer -> operation)
  (c c1 : consumer) (a : list action) (f : flow) :
  start_decrypt n k c = (a, c1, f) -> in_flight c = [] -> one_in_flight c1.
Proof.
  intros H Hidle. unfold start_decrypt, take in H.
  break_result H; decrypted.
  - eapply one_in_flight_started; cbn; [rewrite Hidle |]; reflexivity.
  - apply one_in_flight_idle. exact Hidle.
Qed.

Lemma consume_body_one_in_flight (c c1 : consumer) (a : list action) (f : flow) :
  consume_body c = (a, c1, f) -> one_in_flight c -> one_in_flight c1.
Proof.
  intros H Hone. unfold consume_body in H.
  destruct (negb (transport_connection c) || busy c) eqn:Eguard.
  - injection H as <- <- <-. exact Hone.
  - apply orb_false_elim in Eguard as [_ Ebusy].
    assert (Hidle := busy_in_flight c Hone Ebusy).
    unfold take, bind in H.
    break_result H; destroyed;
      try (apply one_in_flight_idle; cbn; exact Hidle).
    all: first
      [ eapply start_decrypt_one_in_flight; [eassumption | cbn; exact Hidle]
      | eapply receive_one_in_flight; [eassumption | exact Hidle]
      | idtac ].
Qed.

(** ** [consume] returns *)

Lemma receive_again (c c1 : consumer) (a : list action) :
  receive c = (a, c1, Again) ->
  session_key c <> None
  /\ session_key c1 = session_key c
  /\ identifier c1 = None.
Proof.
  intros H. unfold receive in H.
  break_result H; simpl_equations; cbn; repeat split; congruence.
Qed.

Lemma start_decrypt_returns (n : Z) (k : promise ArrayBuffer -> operation)
  (c c1 : consumer) (a : list action) :
  start_decrypt n k c = (a, c1, Again) -> False.
Proof.
  intros H. unfold start_decrypt, take in H. break_result H.
Qed.

Lemma in_the_clear_session (c : consumer) :
  in_the_clear c = true -> session_key c = None.
Proof.
  unfold in_the_clear. destruct (session_key c); [discriminate | reflexivity].
Qed.

(** In the clear, an invocation that goes on has parsed the identifier or
    taken one more blob. *)
Lemma consume_body_again_clear (c c1 : consumer) (a : list action) :
  consume_body c = (a, c1, Again) ->
  in_the_clear c = true ->
  in_the_clear c1 = true
  /\ identifier c1 <> None
  /\ (identifier c <> None -> (remaining_blobs c1 < remaining_blobs c)%nat).
Proof.
  intros H Hclear. unfold consume_body in H.
  unfold take, bind in H.
  break_result H; destroyed;
    try (exfalso; eapply start_decrypt_returns; eassumption);
    try match goal with
        | R : receive _ = _ |- _ =>
            apply receive_again in R; destruct R as (R & _);
            apply in_the_clear_session in Hclear; congruence
        end.
  all: cbn; repeat split; try congruence; try (intros; congruence).
  all: try (unfold in_the_clear in *; cbn in *; assumption).
  intros _. unfold remaining_blobs. cbn. rewrite Heqo, length_app. cbn.
  assert (length (blob_buffers c) < length (id_blobs i))%nat
    by (apply nth_error_Some; congruence).
  lia.
Qed.

(** Otherwise it has handled a record, and the next invocation returns. *)
Lemma consume_body_again_cipher (c c1 : consumer) (a : list action) :
  consume_body c = (a, c1, Again) ->
  in_the_clear c = false ->
  in_the_clear c1 = false /\ identifier c1 = None.
Proof.
  intros H Hclear. unfold consume_body in H.
  unfold take, bind in H.
  break_result H; destroyed;
    try (exfalso; eapply start_decrypt_returns; eassumption);
    try congruence.
  all: try match goal with
        | R : receive _ = _ |- _ =>
            apply receive_again in R; destruct R as (R1 & R2 & R3);
            split; [| exact R3];
            unfold in_the_clear in Hclear |- *; rewrite R2;
            destruct (session_key c); [reflexivity | congruence]
        end.
  all: unfold in_the_clear in *; cbn in *; congruence.
Qed.

Lemma consume_body_returns_cipher (c c1 : consumer) (a : list action) :
  consume_body c = (a, c1, Again) ->
  in_the_clear c = false -> identifier c = None -> False.
Proof.
  intros H Hclear Hid. unfold consume_body in H.
  unfold take, bind in H. rewrite Hid in H.
  break_result H; destroyed;
    try (exfalso; eapply start_decrypt_returns; eassumption);
    try congruence.
  all: unfold in_the_clear in *; cbn in *; congruence.
Qed.

Lemma consume_loop_returns_clear (fuel : nat) (c c1 : consumer)
  (a : list action) (f : flow) :
  consume_loop fuel c = (a, c1, f) ->
  in_the_clear c = true -> identifier c <> None ->
  (remaining_blobs c + 1 <= fuel)%nat ->
  f <> Again.
Proof.
  revert c a. induction fuel as [| fuel IH]; intros c a H Hclear Hid Hfuel;
    [lia |].
  cbn [consume_loop] in H.
  destruct (consume_body c) as [[a0 c0] f0] eqn:E.
  destruct f0; try (injection H as <- <- <-; discriminate).
  destruct (consume_loop fuel c0) as [[a2 c2] f2] eqn:E2.
  injection H as <- <- <-.
  destruct (consume_body_again_clear _ _ _ E Hclear) as (H1 & H2 & H3).
  specialize (H3 Hid).
  eapply IH; [eassumption | assumption | assumption | lia].
Qed.

Lemma consume_loop_returns_cipher (fuel : nat) (c c1 : consumer)
  (a : list action) (f : flow) :
  consume_loop fuel c = (a, c1, f) ->
  in_the_clear c = false ->
  (2 <= fuel)%nat \/ ((1 <= fuel)%nat /\ identifier c = None) ->
  f <> Again.
Proof.
  intros H Hclear Hfuel.
  destruct fuel as [| fuel]; [lia |].
  cbn [consume_loop] in H.
  destruct (consume_body c) as [[a0 c0] f0] eqn:E.
  destruct f0; try (injection H as <- <- <-; discriminate).
  destruct Hfuel as [Hfuel | [_ Hid]];
    [| exfalso; eapply consume_body_returns_cipher; eassumption].
  destruct (consume_body_again_cipher _ _ _ E Hclear) as (H1 & H2).
  destruct fuel as [| fuel]; [lia |].
  cbn [consume_loop] in H.
  destruct (consume_body c0) as [[a1 c3] f1] eqn:E1.
  destruct f1; try (injection H as <- <- <-; discriminate).
  exfalso. eapply consume_body_returns_cipher; eassumption.
Qed.

(** The invocations that [consume] allows for are enough: it never stops
    short of a return. *)
Lemma consume_returns (c c1 : consumer) (a : list action) (f : flow) :
  consume c = (a, c1, f) -> f <> Again.
Proof.
  intros H. unfold consume in H.
  destruct (consume_body c) as [[a0 c0] f0] eqn:E.
  destruct f0; try (injection H as <- <- <-; discriminate).
  destruct (consume_loop (remaining_blobs c0 + 2) c0) as [[a2 c2] f2] eqn:E2.
  injection H as <- <- <-.
  destruct (in_the_clear c) eqn:Hclear.
  - destruct (consume_body_again_clear _ _ _ E Hclear) as (H1 & H2 & _).
    eapply consume_loop_returns_clear; [eassumption | assumption
                                        | assumption | lia].
  - destruct (consume_body_again_cipher _ _ _ E Hclear) as (H1 & H2).
    eapply consume_loop_returns_cipher; [eassumption | assumption |].
    left. lia.
Qed.

Lemma run_task_state (t : task) (c : consumer) :
  exists st : crypto_state,
    snd (run_task t c)
    = set_crypto (set_pending_acks c (pending_acks c ++ queued_sends [t])) st.
Proof.
  assert (Hsame : forall st,
             set_crypto c st
             = set_crypto (set_pending_acks c (pending_acks c ++ [])) st)
    by (intros st; destruct c; cbn; now rewrite app_nil_r).
  assert (Hid : c = set_crypto (set_pending_acks c (pending_acks c ++ []))
                               (crypto c))
    by (destruct c; cbn; now rewrite app_nil_r).
  destruct t; cbn [run_task queued_sends].
  - destruct (export_public_key public_key).
    + destruct (make_record _ _ _ _) as [r st]. cbn [snd]. eauto.
    + cbn [snd]. eauto.
  - destruct (make_record _ _ _ _) as [r st]. cbn. eauto.
  - destruct (make_record _ _ _ _) as [r st]. cbn [snd]. eauto.
  - destruct (make_record _ _ _ _) as [r st]. cbn [snd]. eauto.
Qed.

Ltac ran_task :=
  repeat match goal with
  | H : run_task ?t ?c = (_, ?c1) |- _ =>
      let st := fresh "st" in
      let E := fresh in
      destruct (run_task_state t c) as (st & E);
      rewrite H in E; cbn [snd] in E; clear H; rewrite E; clear E
  end.

Lemma caught_one_in_flight (r : list action * consumer * flow)
  (a : list action) (c1 : consumer) :
  caught r = (a, c1) -> one_in_flight (snd (fst r)) -> one_in_flight c1.
Proof.
  destruct r as [[a0 c0] f0]. cbn. intros H Hone.
  destruct f0; break_result H; destroyed; exact Hone.
Qed.

Lemma consume_one_in_flight (c c1 : consumer) (a : list action) (f : flow) :
  consume c = (a, c1, f) -> one_in_flight c -> one_in_flight c1.
Proof.
  revert c a c1 f.
  apply (consume_holds (fun c _ c1 => one_in_flight c -> one_in_flight c1)).
  - auto.
  - auto.
  - intros c a c1 f H. eapply consume_body_one_in_flight. eassumption.
Qed.

Lemma step_one_in_flight (e : event) (c c1 : consumer) (a : list action) :
  step e c = (a, c1) -> one_in_flight c -> one_in_flight c1.
Proof.
  intros H Hone.
  assert (Hframe : forall c2, in_flight c2 = in_flight c -> busy c2 = busy c ->
                              one_in_flight c2).
  { intros c2 H1 H2. unfold one_in_flight. rewrite H1, H2. exact Hone. }
  destruct e; cbn [step] in H.
  - (* Chunk *)
    destruct (consume (set_buffer c (concat_buffers (buffer c) chunk)))
      as [[a0 c0] f0] eqn:E.
    apply consume_one_in_flight in E; [| apply Hframe; reflexivity].
    destruct f0; cbn in H; injection H as <- <-; exact E.
  - (* Transport_closed *)
    destroyed_in H. apply Hframe; reflexivity.
  - (* Settled *)
    unfold settled in H. destruct (in_flight c) as [| op rest] eqn:Eops.
    + injection H as <- <-. exact Hone.
    + assert (Hrest : rest = []).
      { destruct Hone as [Hone | [[op1 Hone] _]]; congruence. }
      rewrite Hrest in H.
      assert (Hidle : forall c2, in_flight c2 = [] -> one_in_flight c2)
        by (intros; now left).
      destruct op as [[b | r] | [b | r] | m [res | r] | [k | r] | m [k | r]];
        try (destroyed_in H; apply Hidle; reflexivity).
      * destruct (decode_identifier b); [| destroyed_in H; now apply Hidle].
        eapply caught_one_in_flight; [eassumption |].
        destruct (consume _) as [[? ?] ?] eqn:E. cbn.
        eapply consume_one_in_flight; [eassumption | now apply Hidle].
      * eapply caught_one_in_flight; [eassumption |].
        destruct (consume _) as [[? ?] ?] eqn:E. cbn.
        eapply consume_one_in_flight; [eassumption | now apply Hidle].
      * cbn in H. destruct (transport_connection c);
          injection H as <- <-; now apply Hidle.
      * injection H as <- <-. now apply Hidle.
      * cbn in H. destruct (on_redirect c);
          [injection H as <- <-; now apply Hidle
          | destroyed_in H; now apply Hidle].
  - (* Queue_turn *)
    unfold queue_turn in H.
    break_result H; destroyed; ran_task; apply Hframe; reflexivity.
  - (* Record_settled *)
    unfold record_settled in H.
    break_result H; destroyed; apply Hframe; reflexivity.
  - break_result H; apply Hframe; reflexivity.
  - break_result H; apply Hframe; reflexivity.
  - break_result H; apply Hframe; reflexivity.
  - break_result H; destroyed; apply Hframe; reflexivity.
Qed.

(** X1.  In every history of a consumer at most one
    promise of the incoming side is in flight, and [busy] is set while
    there is one; while [busy] is set or the transport connection is gone,
    [consume] returns at once, so that a chunk is appended to the buffer
    and nothing is taken from it, nothing is decrypted and the parse state
    is kept; when the decryption of an identifier or of a blob resolves,
    [consume] is invoked on the state that was kept, with [busy] cleared;
    and [consume] always comes to a return. *)
Theorem consume_waits :
  (forall (id : nat) (key : CryptoKey) (st : crypto_state) (redirect : bool)
          (handshake : option CryptoKey) (events : list event),
      one_in_flight
        (snd (run events (make_consumer id key st redirect handshake))))
  /\ (forall c : consumer,
        busy c = true \/ transport_connection c = false ->
        consume c = ([], c, Return)
        /\ forall chunk : ArrayBuffer,
             step (Chunk chunk) c = ([], set_buffer c (buffer c ++ chunk)))
  /\ (forall (c : consumer) (b : ArrayBuffer) (rest : list operation),
        in_flight c = Decrypt_blob (Resolved b) :: rest ->
        settled c
        = caught (consume (set_busy
                             (set_blob_buffers (set_in_flight c rest)
                                               (blob_buffers c ++ [b]))
                             false)))
  /\ (forall (c : consumer) (b : ArrayBuffer) (rest : list operation)
             (id : identifier_info),
        in_flight c = Decrypt_identifier (Resolved b) :: rest ->
        decode_identifier b = Ok id ->
        settled c
        = caught (consume (set_busy
                             (set_identifier (set_in_flight c rest) (Some id))
                             false)))
  /\ (forall (c c1 : consumer) (a : list action) (f : flow),
        consume c = (a, c1, f) -> f <> Again).
Proof.
  split; [| split; [| split; [| split]]].
  - intros id key st redirect handshake events.
    destruct (run events (make_consumer id key st redirect handshake))
      as [a c] eqn:E.
    cbn [snd].
    apply (run_holds (fun c _ c1 => one_in_flight c -> one_in_flight c1))
      with (events := events) (a := a)
           (c := make_consumer id key st redirect handshake).
    + auto.
    + auto.
    + intros e c2 a2 c3 H. eapply step_one_in_flight. eassumption.
    + exact E.
    + now left.
  - intros c Hwait.
    assert (Hguard : forall c2, busy c2 = busy c ->
                       transport_connection c2 = transport_connection c ->
                       consume c2 = ([], c2, Return)).
    { intros c2 H1 H2. unfold consume, consume_body. rewrite H1, H2.
      destruct Hwait as [-> | ->]; [now rewrite orb_true_r | reflexivity]. }
    split; [now apply Hguard |].
    intros chunk. cbn [step]. rewrite Hguard by reflexivity. reflexivity.
  - intros c b rest H. unfold settled. rewrite H. reflexivity.
  - intros c b rest id H Hid. unfold settled. rewrite H, Hid. reflexivity.
  - apply consume_returns.
Qed.

(** ** The handshake and the dispatch on the type *)




(** ** Acknowledgements in the order of the calls *)

Lemma resolved_waiters_app (a1 a2 : list action) :
  resolved_waiters (a1 ++ a2) = resolved_waiters a1 ++ resolved_waiters a2.
Proof.
  induction a1 as [| x a1 IH]; [reflexivity |].
  destruct x; cbn; rewrite ?IH; reflexivity.
Qed.

Lemma queued_sends_app (q1 q2 : list task) :
  queued_sends (q1 ++ q2) = queued_sends q1 ++ queued_sends q2.
Proof.
  induction q1 as [| t q1 IH]; [reflexivity |].
  destruct t; cbn; rewrite ?IH; reflexivity.
Qed.

Lemma resolved_waiters_rejections (reason : jsvalue) (l : list nat) :
  resolved_waiters (map (fun pending => Reject pending reason) l) = [].
Proof. induction l; [reflexivity | exact IHl]. Qed.

Lemma destroy_resolves_nothing (reason : jsvalue) (situation : option bool)
  (c : consumer) :
  resolved_waiters (fst (destroy reason situation c)) = [].
Proof.
  unfold destroy. destruct (transport_connection c); [| reflexivity].
  cbn [fst]. rewrite !resolved_waiters_app, resolved_waiters_rejections.
  destruct situation as [[|] |]; reflexivity.
Qed.

(** The same waiters ahead: [fifo] is kept. *)
Lemma fifo_frame (resolved : list nat) (c c1 : consumer) :
  fifo resolved c ->
  next_waiter c1 = next_waiter c ->
  (transport_connection c1 = true ->
   transport_connection c = true
   /\ pending_acks c1 ++ queued_sends (queue c1)
      = pending_acks c ++ queued_sends (queue c)) ->
  fifo resolved c1.
Proof.
  intros (k & Hres & Hle & Hopen) Hnext Hsame.
  exists k. rewrite Hnext. repeat split; try assumption.
  intros H1. destruct (Hsame H1) as [H2 H3]. rewrite H3. now apply Hopen.
Qed.

Lemma fifo_closed (resolved : list nat) (c c1 : consumer) :
  fifo resolved c ->
  (next_waiter c <= next_waiter c1)%nat ->
  transport_connection c1 = false ->
  fifo resolved c1.
Proof.
  intros (k & Hres & Hle & _) Hnext Hclosed.
  exists k. repeat split; [assumption | lia | congruence].
Qed.

Lemma fifo_acknowledged (resolved : list nat) (c c1 : consumer)
  (pending : nat) (rest : list nat) :
  fifo resolved c ->
  transport_connection c = true ->
  pending_acks c = pending :: rest ->
  next_waiter c1 = next_waiter c ->
  pending_acks c1 = rest ->
  queued_sends (queue c1) = queued_sends (queue c) ->
  fifo (resolved ++ [pending]) c1.
Proof.
  intros (k & Hres & Hle & Hopen) Htransport Hacks Hnext Hrest Hqueue.
  specialize (Hopen Htransport). rewrite Hacks in Hopen. cbn in Hopen.
  destruct (next_waiter c - k)%nat as [| m] eqn:Em; [discriminate |].
  cbn in Hopen. injection Hopen as Hk Hopen.
  exists (S k). rewrite Hnext, Hres, Hk, Hrest, Hqueue.
  repeat split.
  - now rewrite seq_S.
  - lia.
  - intros _. rewrite Hopen. f_equal. lia.
Qed.

Ltac destroyed_quietly :=
  repeat match goal with
  | H : destroy ?r ?s ?c = (?l, ?c1) |- _ =>
      let Q := fresh "Hquiet" in
      assert (Q : resolved_waiters l = [])
        by (rewrite <- (destroy_resolves_nothing r s c), H; reflexivity);
      destroyed_in H
  end.

Ltac fifo_kept Hfifo :=
  cbn [resolved_waiters];
  repeat match goal with
  | Q : resolved_waiters _ = [] |- _ => rewrite Q
  end;
  rewrite ?resolved_waiters_app; cbn [resolved_waiters];
  repeat match goal with
  | Q : resolved_waiters _ = [] |- _ => rewrite Q
  end;
  rewrite ?app_nil_r;
  first
    [ exact Hfifo
    | eapply fifo_frame;
      [ exact Hfifo
      | reflexivity
      | cbn; intros ?; split;
        [ assumption
        | rewrite ?queued_sends_app; cbn [queued_sends];
          rewrite ?app_nil_r, <- ?app_assoc; reflexivity ] ]
    | eapply fifo_closed;
      [exact Hfifo | cbn; lia | cbn; first [reflexivity | assumption]] ].

Lemma receive_fifo (c c1 : consumer) (a : list action) (f : flow)
  (resolved : list nat) :
  receive c = (a, c1, f) ->
  transport_connection c = true ->
  fifo resolved c ->
  fifo (resolved ++ resolved_waiters a) c1.
Proof.
  intros H Hopen Hfifo. unfold receive in H.
  break_result H; destroyed_quietly; simpl_equations;
    try (fifo_kept Hfifo).
  eapply fifo_acknowledged;
    [exact Hfifo | exact Hopen | eassumption | reflexivity | reflexivity
     | reflexivity].
Qed.

Lemma start_decrypt_fifo (n : Z) (k : promise ArrayBuffer -> operation)
  (c c1 : consumer) (a : list action) (f : flow) (resolved : list nat) :
  start_decrypt n k c = (a, c1, f) ->
  fifo resolved c ->
  fifo (resolved ++ resolved_waiters a) c1.
Proof.
  intros H Hfifo. unfold start_decrypt, take in H.
  break_result H; decrypted; fifo_kept Hfifo.
Qed.

Lemma consume_body_fifo (c c1 : consumer) (a : list action) (f : flow)
  (resolved : list nat) :
  consume_body c = (a, c1, f) ->
  fifo resolved c ->
  fifo (resolved ++ resolved_waiters a) c1.
Proof.
  intros H Hfifo. unfold consume_body in H.
  destruct (negb (transport_connection c) || busy c) eqn:Eguard.
  - injection H as <- <- <-. fifo_kept Hfifo.
  - apply orb_false_elim in Eguard as [Eopen _].
    apply negb_false_iff in Eopen.
    unfold start_decrypt, take, bind in H.
    break_result H; destroyed_quietly; decrypted;
      try (fifo_kept Hfifo).
    all: eapply receive_fifo; [eassumption | exact Eopen | exact Hfifo].
Qed.

Lemma consume_fifo (c c1 : consumer) (a : list action) (f : flow)
  (resolved : list nat) :
  consume c = (a, c1, f) ->
  fifo resolved c ->
  fifo (resolved ++ resolved_waiters a) c1.
Proof.
  intros H. revert resolved. revert c a c1 f H.
  apply (consume_holds
           (fun c a c1 => forall resolved,
                fifo resolved c -> fifo (resolved ++ resolved_waiters a) c1)).
  - intros c resolved Hfifo. cbn. now rewrite app_nil_r.
  - intros c1 a1 c2 a2 c3 H1 H2 resolved Hfifo.
    rewrite resolved_waiters_app, app_assoc. apply H2, H1, Hfifo.
  - intros c a c1 f H resolved. eapply consume_body_fifo. eassumption.
Qed.

Lemma caught_fifo (r : list action * consumer * flow) (a : list action)
  (c1 : consumer) (resolved : list nat) :
  caught r = (a, c1) ->
  fifo (resolved ++ resolved_waiters (fst (fst r))) (snd (fst r)) ->
  fifo (resolved ++ resolved_waiters a) c1.
Proof.
  destruct r as [[a0 c0] f0]. cbn [fst snd caught]. intros H Hfifo.
  destruct f0; break_result H; destroyed_quietly; try exact Hfifo.
  rewrite resolved_waiters_app, Hquiet, app_nil_r.
  eapply fifo_closed; [exact Hfifo | cbn; lia | reflexivity].
Qed.

Lemma escaped_fifo (r : list action * consumer * flow) (a : list action)
  (c1 : consumer) (resolved : list nat) :
  escaped r = (a, c1) ->
  fifo (resolved ++ resolved_waiters (fst (fst r))) (snd (fst r)) ->
  fifo (resolved ++ resolved_waiters a) c1.
Proof.
  destruct r as [[a0 c0] f0]. cbn [fst snd escaped]. intros H Hfifo.
  destruct f0; injection H as <- <-; try exact Hfifo.
  rewrite resolved_waiters_app. cbn. now rewrite app_nil_r.
Qed.

Lemma step_fifo (e : event) (c c1 : consumer) (a : list action)
  (resolved : list nat) :
  step e c = (a, c1) ->
  fifo resolved c ->
  fifo (resolved ++ resolved_waiters a) c1.
Proof.
  intros H Hfifo.
  destruct e; cbn [step] in H.
  - (* Chunk *)
    eapply escaped_fifo; [eassumption |].
    destruct (consume _) as [[? ?] ?] eqn:E. cbn [fst snd].
    eapply consume_fifo; [eassumption |]. fifo_kept Hfifo.
  - (* Transport_closed *)
    destroyed_quietly. fifo_kept Hfifo.
  - (* Settled *)
    unfold settled in H. destruct (in_flight c) as [| op rest] eqn:Eops.
    + injection H as <- <-. fifo_kept Hfifo.
    + destruct op as [[b | r] | [b | r] | m [res | r] | [k | r] | m [k | r]];
        try (destroyed_quietly; fifo_kept Hfifo).
      * destruct (decode_identifier b);
          [| destroyed_quietly; fifo_kept Hfifo].
        eapply caught_fifo; [eassumption |].
        destruct (consume _) as [[? ?] ?] eqn:E. cbn [fst snd].
        eapply consume_fifo; [eassumption |]. fifo_kept Hfifo.
      * eapply caught_fifo; [eassumption |].
        destruct (consume _) as [[? ?] ?] eqn:E. cbn [fst snd].
        eapply consume_fifo; [eassumption |]. fifo_kept Hfifo.
      * cbn in H. destruct (transport_connection c) eqn:Eopen;
          injection H as <- <-; fifo_kept Hfifo.
      * injection H as <- <-. fifo_kept Hfifo.
      * cbn in H. destruct (on_redirect c);
          [injection H as <- <-; fifo_kept Hfifo
          | destroyed_quietly; fifo_kept Hfifo].
  - (* Queue_turn *)
    unfold queue_turn in H.
    break_result H; destroyed_quietly; ran_task; simpl_equations.
    all: try (fifo_kept Hfifo).
    cbn [resolved_waiters]. rewrite app_nil_r.
    eapply fifo_frame; [exact Hfifo | reflexivity |].
    cbn. intros Htransport. split; [assumption |].
    rewrite Heql, <- app_assoc. f_equal.
    change (t :: l) with ([t] ++ l). now rewrite queued_sends_app.
  - (* Record_settled *)
    unfold record_settled in H.
    break_result H; destroyed_quietly; fifo_kept Hfifo.
  - (* Call_send *)
    break_result H; try (fifo_kept Hfifo).
    destruct Hfifo as (k & Hres & Hle & Hopen).
    exists k. split; [cbn; now rewrite app_nil_r |].
    split; [cbn; lia |]. intros Htransport.
    change (pending_acks c
            ++ queued_sends (queue c ++ [Task_send (next_waiter c) message])
            = seq k (S (next_waiter c) - k)).
    rewrite queued_sends_app, app_assoc, Hopen by exact Htransport.
    rewrite Nat.sub_succ_l by exact Hle.
    rewrite seq_S. cbn [queued_sends]. do 2 f_equal. lia.
  - break_result H; fifo_kept Hfifo.
  - break_result H; fifo_kept Hfifo.
  - break_result H; destroyed_quietly; fifo_kept Hfifo.
Qed.

(** C5.  On a record of type Acknowledge received once the session key is
    set, [receive] resolves the oldest waiter of [pending_acks], and that
    one only, removes it and goes on; with no waiter pending it destroys
    the connection as a problem, with "Unexpected acknowledgement.": the
    transport connection is closed and [on_close] is called with that
    reason.  The calls of [send] number their waiters 0, 1, 2, ...; in every
    history of a consumer the waiters resolved are, in order, the first
    ones, and while the transport connection is there [pending_acks]
    followed by the waiters still in the queue are the next ones: the
    waiters are resolved in the order of the calls. *)
Theorem acknowledge_oldest_first :
  (forall (c : consumer) (id : identifier_info) (message : jsobject),
      identifier c = Some id ->
      id_type id = Some (JString "Acknowledge") ->
      session_key c <> None ->
      build_message (id_blobs id) 0 (blob_buffers c) [] = Ok message ->
      (forall (pending : nat) (rest : list nat),
          pending_acks c = pending :: rest ->
          receive c
          = ([Resolve pending], set_pending_acks (next_record c) rest, Again))
      /\ (pending_acks c = [] ->
          transport_connection c = true ->
          receive c
          = ([Transport_close;
              On_close (seif_connection c)
                       (VJson (JString "Unexpected acknowledgement."))],
             set_transport_connection (next_record c) false, Return)))
  /\ (forall (c : consumer) (message : message_arg) (connection : nat),
        seif_connection c = Some connection ->
        step (Call_send message) c
        = ([], set_next_waiter
                 (set_queue c (queue c ++ [Task_send (next_waiter c) message]))
                 (S (next_waiter c))))
  /\ (forall (id : nat) (key : CryptoKey) (st : crypto_state)
             (redirect : bool) (handshake : option CryptoKey)
             (events : list event),
        let history := run events (make_consumer id key st redirect handshake)
        in
        exists k : nat,
          resolved_waiters (fst history) = seq 0 k
          /\ (k <= next_waiter (snd history))%nat
          /\ (transport_connection (snd history) = true ->
              pending_acks (snd history) ++ queued_sends (queue (snd history))
              = seq k (next_waiter (snd history) - k))).
Proof.
  split; [| split].
  - intros c id message Hid Htype Hkey Hmessage.
    destruct (session_key c) as [k |] eqn:Ek; [clear Hkey | congruence].
    split.
    + intros pending rest Hacks. unfold receive.
      rewrite Hid, Hmessage, Htype. cbn. rewrite Ek, Hacks. reflexivity.
    + intros Hacks Hopen. unfold receive.
      rewrite Hid, Hmessage, Htype. cbn. rewrite Ek, Hacks.
      unfold destroy. cbn. rewrite Hopen, Hacks. reflexivity.
  - intros c message connection Hconnection. cbn [step].
    rewrite Hconnection. reflexivity.
  - intros id key st redirect handshake events history.
    destruct history as [a c] eqn:E. unfold history in E. cbn [fst snd].
    change (fifo ([] ++ resolved_waiters a) c).
    refine (run_holds
              (fun c a c1 => forall resolved,
                   fifo resolved c -> fifo (resolved ++ resolved_waiters a) c1)
              _ _ _ events _ a c E [] _).
    + intros c0 resolved Hfifo. cbn. now rewrite app_nil_r.
    + intros c1 a1 c2 a2 c3 H1 H2 resolved Hfifo.
      rewrite resolved_waiters_app, app_assoc. apply H2, H1, Hfifo.
    + intros e c0 a0 c1 H resolved. eapply step_fifo. eassumption.
    + exists 0%nat. split; [reflexivity |]. split; [cbn; lia |].
      intros _. reflexivity.
Qed.

(** ** No IV twice *)

Lemma be_value_big_endian (w : nat) (v acc : Z) :
  fold_left (fun a b => a * 256 + b) (big_endian w v) acc
  = acc * 256 ^ Z.of_nat w + v mod 256 ^ Z.of_nat w.
Proof.
  revert acc. induction w as [| w IH]; intros acc.
  - cbn [big_endian fold_left]. change (256 ^ Z.of_nat 0) with 1.
    rewrite Z.mod_1_r. ring.
  - cbn [big_endian fold_left]. rewrite IH.
    rewrite Nat2Z.inj_succ, Z.pow_succ_r by apply Nat2Z.is_nonneg.
    rewrite (Z.mul_comm 256 (256 ^ Z.of_nat w)).
    rewrite (Z.rem_mul_r v (256 ^ Z.of_nat w) 256)
      by (try apply Z.pow_nonzero; lia).
    ring.
Qed.

Lemma big_endian_injective (w : nat) (v1 v2 : Z) :
  0 <= v1 < 256 ^ Z.of_nat w -> 0 <= v2 < 256 ^ Z.of_nat w ->
  big_endian w v1 = big_endian w v2 -> v1 = v2.
Proof.
  intros H1 H2 H.
  assert (Hv := be_value_big_endian w v1 0).
  rewrite H, be_value_big_endian in Hv.
  rewrite !Z.mod_small in Hv by assumption. lia.
Qed.

Lemma spec_iv_injective (f1 f2 c1 c2 : Z) :
  0 <= f1 < 2 ^ 32 -> 0 <= f2 < 2 ^ 32 ->
  0 <= c1 < 2 ^ 64 -> 0 <= c2 < 2 ^ 64 ->
  spec_iv f1 c1 = spec_iv f2 c2 -> f1 = f2 /\ c1 = c2.
Proof.
  intros Hf1 Hf2 Hc1 Hc2 H. unfold spec_iv in H.
  assert (H34 : big_endian 4 f1 = big_endian 4 f2
                /\ big_endian 8 c1 = big_endian 8 c2).
  { cbn [big_endian app] in H |- *. injection H. intros. split; congruence. }
  destruct H34 as [H3 H4]. split.
  - apply (big_endian_injective 4); assumption.
  - apply (big_endian_injective 8); assumption.
Qed.

Lemma iv_history_frame (fixed : Z) (st st1 : crypto_state) :
  iv_history fixed st ->
  next_encryption_iv st1 = next_encryption_iv st ->
  encryptions st1 = encryptions st ->
  iv_history fixed st1.
Proof.
  intros H H1 H2. unfold iv_history. rewrite H1, H2. exact H.
Qed.

Lemma StronglySorted_snoc (calls : list nat) (n : nat) :
  StronglySorted lt calls -> Forall (fun k => (k < n)%nat) calls ->
  StronglySorted lt (calls ++ [n]).
Proof.
  induction 1 as [| k calls Hsorted IH Hk]; intros Hn; cbn.
  - repeat constructor.
  - inversion Hn as [| ? ? Hkn Hrest]; subst.
    constructor; [now apply IH |].
    apply Forall_app. split; [exact Hk | now repeat constructor].
Qed.

Lemma call_iv_spec (g : iv_closure) :
  0 <= counter g ->
  (counter g <= MAX_SAFE_INTEGER ->
   call_iv g
   = (Ok (spec_iv (fixed_field g) (counter g)),
      {| fixed_field := fixed_field g; counter := counter g + 1 |}))
  /\ (counter g > MAX_SAFE_INTEGER ->
      call_iv g = (Throw "Counter exhausted.", g)).
Proof.
  intros Hc. unfold call_iv. split; intros H.
  - now rewrite iv_generator_spec by lia.
  - unfold iv_generator.
    destruct (counter g >? MAX_SAFE_INTEGER) eqn:E; [reflexivity | lia].
Qed.

(** A call of [next_encryption_iv] that is not followed by an encryption
    keeps the history; one followed by [aes.encrypt] with the IV it returned
    extends it. *)
Lemma draw_encryption_history (fixed : Z) (st : crypto_state) :
  iv_history fixed st ->
  iv_history fixed (snd (draw_encryption_iv st))
  /\ forall (iv : ArrayBuffer) (key : CryptoKey) (plaintext : ArrayBuffer),
       fst (draw_encryption_iv st) = Ok iv ->
       iv_history fixed
         (snd (aes_encrypt plaintext key iv (snd (draw_encryption_iv st)))).
Proof.
  intros (Hfixed & n & calls & Hcounter & Hn & Hlog & Hsorted & Hbelow).
  unfold draw_encryption_iv.
  destruct (call_iv_spec (next_encryption_iv st)) as [Hok Hthrow];
    [rewrite Hcounter; lia |].
  destruct (Z_le_gt_dec (counter (next_encryption_iv st)) MAX_SAFE_INTEGER)
    as [Hle | Hgt].
  - assert (Hwider : Forall (fun k => (k < S n)%nat) calls)
      by (eapply Forall_impl; [| exact Hbelow]; intros k Hk; cbv beta in *; lia).
    rewrite (Hok Hle). cbn [fst snd]. split.
    + split; [exact Hfixed |]. exists (S n), calls.
      cbn [next_encryption_iv encryptions counter].
      split; [lia |]. split; [lia |]. now repeat split.
    + intros iv key plaintext Hiv. injection Hiv as <-.
      split; [exact Hfixed |]. exists (S n), (calls ++ [n]).
      cbn [aes_encrypt snd next_encryption_iv encryptions counter].
      split; [lia |]. split; [lia |]. split; [| split].
      * rewrite !map_app, Hlog. cbn [map snd]. now rewrite Hfixed, Hcounter.
      * now apply StronglySorted_snoc.
      * apply Forall_app. split; [exact Hwider |].
        constructor; [lia | constructor].
  - rewrite (Hthrow Hgt). cbn [fst snd]. split.
    + split; [exact Hfixed |]. exists n, calls. now repeat split.
    + intros iv key plaintext Hiv. discriminate.
Qed.

Lemma encrypt_with_history (fixed : Z) (key : option CryptoKey)
  (buffer : ArrayBuffer) (st : crypto_state) :
  iv_history fixed st -> iv_history fixed (snd (encrypt_with key buffer st)).
Proof.
  intros H. unfold encrypt_with.
  destruct (draw_encryption_history fixed st H) as [H1 H2].
  destruct (draw_encryption_iv st) as [[iv | m] st1]; [| exact H1].
  destruct key as [k |]; [| exact H1].
  specialize (H2 iv k buffer eq_refl). cbn [snd] in H2.
  destruct (aes_encrypt buffer k iv st1). exact H2.
Qed.

(** [make_record] keeps what every call of the encryption keeps. *)
Lemma map_encrypt_keeps {St : Type} (P : St -> Prop)
  (encrypt_buffer : encryptor St) (buffers : list ArrayBuffer) (st : St) :
  (forall b s, P s -> P (snd (encrypt_buffer b s))) ->
  P st -> P (snd (map_encrypt encrypt_buffer buffers st)).
Proof.
  intros Hkeeps. revert st. induction buffers as [| b bs IH]; intros st H.
  - exact H.
  - cbn [map_encrypt]. specialize (Hkeeps b st H).
    destruct (encrypt_buffer b st) as [[p | m] st1]; [| exact Hkeeps].
    specialize (IH st1 Hkeeps).
    destruct (map_encrypt encrypt_buffer bs st1) as [[ps | m] st2]; exact IH.
Qed.

Lemma make_record_keeps {St : Type} (P : St -> Prop)
  (identifier : list (string * json)) (message : message_arg)
  (encrypt_buffer : encryptor St) (st : St) :
  (forall b s, P s -> P (snd (encrypt_buffer b s))) ->
  P st -> P (snd (make_record identifier message encrypt_buffer st)).
Proof.
  intros Hkeeps H. unfold make_record.
  destruct message as [props | |]; try exact H.
  destruct (record_parts identifier props) as [identifier1 blob_buffers].
  destruct (byteLength _ >=? 2 ^ 16); [exact H |].
  pose proof (map_encrypt_keeps P encrypt_buffer
                (encode_json (VJson (JObject identifier1)) :: blob_buffers)
                st Hkeeps H) as H1.
  destruct (map_encrypt _ _ _) as [[ps | m] st1]; exact H1.
Qed.

Lemma keeps_lift {A : Type} (fixed : Z) (p : promise A) :
  keeps_history fixed (lift p).
Proof. intros st H. exact H. Qed.

Lemma keeps_then {A B : Type} (fixed : Z) (p : async A) (k : A -> async B) :
  keeps_history fixed p -> (forall a, keeps_history fixed (k a)) ->
  keeps_history fixed (p >>= k).
Proof.
  intros Hp Hk st H. unfold async_then. specialize (Hp st H).
  destruct (p st) as [[a | r] st1]; [| exact Hp].
  now apply Hk.
Qed.

Lemma keeps_generate_key {B : Type} (fixed : Z) (q : promise B) :
  keeps_history fixed
    (fun st =>
       let (p, st1) := aes_generate_key st in (Promise_all2 p q, st1)).
Proof.
  intros st H. unfold aes_generate_key.
  destruct (subtle_generateKey_AES (rng st)) as [p r]. cbn [snd].
  eapply iv_history_frame; [exact H | reflexivity | reflexivity].
Qed.

Lemma keeps_elliptic_encrypt (fixed : Z) (plaintext : ArrayBuffer)
  (public_key : CryptoKey) :
  keeps_history fixed (elliptic_encrypt plaintext public_key).
Proof.
  intros st H. unfold elliptic_encrypt.
  destruct (ecies_encrypt plaintext public_key (rng st)) as [p r]. cbn [snd].
  eapply iv_history_frame; [exact H | reflexivity | reflexivity].
Qed.

Lemma draw_decryption_history (fixed : Z) (st : crypto_state) :
  iv_history fixed st -> iv_history fixed (snd (draw_decryption_iv st)).
Proof.
  intros H. unfold draw_decryption_iv.
  destruct (call_iv (next_decryption_iv st)) as [r g]. cbn [snd].
  eapply iv_history_frame; [exact H | reflexivity | reflexivity].
Qed.

Lemma make_record_history (fixed : Z) (identifier : list (string * json))
  (message : message_arg) (key : option CryptoKey) (st : crypto_state) :
  iv_history fixed st ->
  iv_history fixed
    (snd (make_record identifier message (encrypt_with key) st)).
Proof.
  apply (make_record_keeps (iv_history fixed)).
  intros b s. apply encrypt_with_history.
Qed.

Lemma auth_hello_history (fixed : Z) (hello_message : jsobject)
  (key : CryptoKey) (st : crypto_state) :
  iv_history fixed st ->
  iv_history fixed (snd (auth_hello hello_message key st)).
Proof.
  intros H. unfold auth_hello.
  destruct (negb (is_zero (get_property hello_message "version")));
    [exact H |].
  destruct (ecies_decrypt _ key) as [decrypted | m]; [| exact H].
  match goal with
  | |- iv_history _ (snd (let (p, st1) := ?chain st in _)) =>
      assert (Hchain : keeps_history fixed chain)
  end.
  { apply keeps_then; [apply keeps_lift | intros handshake_key_buffer].
    apply keeps_then; [apply keeps_lift | intros handshake_key].
    apply keeps_then.
    { intros s Hs. pose proof (draw_decryption_history fixed s Hs) as Hd.
      destruct (draw_decryption_iv s) as [[iv | m] s1]; exact Hd. }
    intros hello_buffer.
    apply keeps_then; [apply keeps_lift | intros [initiatorPublicKey value]].
    apply keeps_then; [apply keeps_generate_key | intros [sk ipk]].
    apply keeps_then; [apply keeps_lift | intros session_key_buffer].
    apply keeps_then; [apply keeps_elliptic_encrypt |].
    intros encrypted_session_key.
    apply keeps_then; [| intros record; apply keeps_lift].
    intros s Hs.
    pose proof (make_record_history fixed
                  [("type"%string, JString "AuthHello")]
                  (MObject [("sessionKey"%string,
                             VArrayBuffer encrypted_session_key)])
                  (Some handshake_key) s Hs) as Hr.
    destruct (make_record _ _ _ s) as [r s1]. exact Hr. }
  specialize (Hchain st H).
  match goal with
  | |- iv_history _ (snd (let (p, st1) := ?chain st in _)) =>
      destruct (chain st) as [p st1]
  end.
  exact Hchain.
Qed.

Ltac history_kept Hhistory :=
  destroyed; decrypted;
  repeat match goal with
  | E : auth_hello ?m ?k ?s = (_, ?st) |- _ =>
      let X := fresh in
      pose proof (auth_hello_history _ m k s Hhistory) as X;
      rewrite E in X; cbn [snd] in X; clear E
  end;
  cbn;
  first [ exact Hhistory
        | assumption
        | apply draw_decryption_history; exact Hhistory ].

Lemma receive_history (fixed : Z) (c c1 : consumer) (a : list action)
  (f : flow) :
  receive c = (a, c1, f) ->
  iv_history fixed (crypto c) -> iv_history fixed (crypto c1).
Proof.
  intros H Hhistory. unfold receive in H.
  break_result H; simpl_equations; history_kept Hhistory.
Qed.

Lemma consume_body_history (fixed : Z) (c c1 : consumer) (a : list action)
  (f : flow) :
  consume_body c = (a, c1, f) ->
  iv_history fixed (crypto c) -> iv_history fixed (crypto c1).
Proof.
  intros H Hhistory. unfold consume_body, start_decrypt, take, bind in H.
  break_result H; try (history_kept Hhistory).
  all: eapply receive_history; eassumption.
Qed.

Lemma consume_history (fixed : Z) (c c1 : consumer) (a : list action)
  (f : flow) :
  consume c = (a, c1, f) ->
  iv_history fixed (crypto c) -> iv_history fixed (crypto c1).
Proof.
  revert c a c1 f.
  apply (consume_holds
           (fun c _ c1 =>
              iv_history fixed (crypto c) -> iv_history fixed (crypto c1))).
  - auto.
  - auto.
  - intros c a c1 f H. eapply consume_body_history. eassumption.
Qed.

Lemma run_task_history (fixed : Z) (t : task) (c : consumer) :
  iv_history fixed (crypto c) ->
  iv_history fixed (crypto (snd (run_task t c))).
Proof.
  intros H. destruct t; cbn [run_task].
  - destruct (export_public_key public_key); [| exact H].
    pose proof (make_record_history fixed
                  [("type"%string, JString "Redirect")]
                  (MObject [("address"%string, address);
                            ("publicKey"%string,
                             VJson (JString (hex_encode a)));
                            ("permanent"%string, permanent);
                            ("redirectContext"%string, redirect_context)])
                  (session_key c) (crypto c) H) as Hr.
    destruct (make_record _ _ _ _) as [r st]. exact Hr.
  - pose proof (make_record_history fixed [("type"%string, JString "Send")]
                  message (session_key c) (crypto c) H) as Hr.
    cbn [crypto set_pending_acks session_key].
    destruct (make_record _ _ _ _) as [r st]. exact Hr.
  - pose proof (make_record_history fixed
                  [("type"%string, JString "StatusSend")]
                  message (session_key c) (crypto c) H) as Hr.
    destruct (make_record _ _ _ _) as [r st]. exact Hr.
  - pose proof (make_record_history fixed
                  [("type"%string, JString "Acknowledge")]
                  (MObject []) (session_key c) (crypto c) H) as Hr.
    destruct (make_record _ _ _ _) as [r st]. exact Hr.
Qed.

Lemma step_history (fixed : Z) (e : event) (c c1 : consumer)
  (a : list action) :
  step e c = (a, c1) ->
  iv_history fixed (crypto c) -> iv_history fixed (crypto c1).
Proof.
  intros H Hhistory.
  assert (Hcaught : forall r a2 c2,
             caught r = (a2, c2) ->
             iv_history fixed (crypto (snd (fst r))) ->
             iv_history fixed (crypto c2)).
  { intros [[a0 c0] f0] a2 c2 Hr H0. cbn in Hr, H0.
    destruct f0; break_result Hr; destroyed; exact H0. }
  assert (Hconsume : forall c0,
             iv_history fixed (crypto c0) ->
             iv_history fixed (crypto (snd (fst (consume c0))))).
  { intros c0 H0. destruct (consume c0) as [[a0 c2] f0] eqn:E.
    eapply consume_history; eassumption. }
  destruct e; cbn [step] in H.
  - destruct (consume _) as [[a0 c0] f0] eqn:E.
    apply consume_history with (fixed := fixed) in E; [| exact Hhistory].
    destruct f0; cbn in H; injection H as <- <-; exact E.
  - destroyed_in H. exact Hhistory.
  - unfold settled in H. destruct (in_flight c) as [| op rest] eqn:Eops.
    + injection H as <- <-. exact Hhistory.
    + destruct op as [[b | r] | [b | r] | m [res | r] | [k | r] | m [k | r]];
        try (destroyed_in H; exact Hhistory).
      * destruct (decode_identifier b); [| destroyed_in H; exact Hhistory].
        eapply Hcaught; [eassumption |]. apply Hconsume. exact Hhistory.
      * eapply Hcaught; [eassumption |]. apply Hconsume. exact Hhistory.
      * cbn in H. destruct (transport_connection c);
          injection H as <- <-; exact Hhistory.
      * injection H as <- <-. exact Hhistory.
      * cbn in H. destruct (on_redirect c);
          [injection H as <- <-; exact Hhistory
          | destroyed_in H; exact Hhistory].
  - unfold queue_turn in H.
    destruct (sending c); [injection H as <- <-; exact Hhistory |].
    destruct (queue c) as [| t rest]; [injection H as <- <-; exact Hhistory |].
    cbn [transport_connection set_queue] in H.
    destruct (transport_connection c); [| injection H as <- <-; exact Hhistory].
    pose proof (run_task_history fixed t (set_queue c rest) Hhistory) as Ht.
    destruct (run_task t (set_queue c rest)) as [[p | m] c2].
    + injection H as <- <-. exact Ht.
    + destroyed_in H. exact Ht.
  - unfold record_settled in H.
    break_result H; destroyed; exact Hhistory.
  - break_result H; exact Hhistory.
  - break_result H; exact Hhistory.
  - break_result H; exact Hhistory.
  - break_result H; destroyed; exact Hhistory.
Qed.

(** The IVs of a history are pairwise different, and different from those
    of a history with the other fixed field. *)
Lemma history_bound (fixed : Z) (st : crypto_state) :
  iv_history fixed st ->
  exists calls : list nat,
    map snd (encryptions st) = map (fun k => spec_iv fixed (Z.of_nat k)) calls
    /\ StronglySorted lt calls
    /\ Forall (fun k => Z.of_nat k < 2 ^ 64) calls.
Proof.
  intros (_ & n & calls & _ & Hn & Hlog & Hsorted & Hbelow).
  exists calls. repeat split; try assumption.
  eapply Forall_impl; [| exact Hbelow]. intros k Hk. cbv beta in Hk.
  unfold MAX_SAFE_INTEGER in Hn. lia.
Qed.

Lemma sorted_ivs_differ (fixed : Z) (calls : list nat) :
  0 <= fixed < 2 ^ 32 ->
  StronglySorted lt calls ->
  Forall (fun k => Z.of_nat k < 2 ^ 64) calls ->
  NoDup (map (fun k => spec_iv fixed (Z.of_nat k)) calls).
Proof.
  intros Hfixed Hsorted. induction Hsorted as [| k calls Hsorted IH Hk];
    intros Hbound; cbn [map]; constructor.
  - inversion Hbound as [| ? ? Hkb Hrest]; subst.
    intros Hin. apply in_map_iff in Hin as (k1 & Heq & Hin).
    apply spec_iv_injective in Heq as [_ Heq]; try lia.
    + rewrite Forall_forall in Hk. specialize (Hk k1 Hin). lia.
    + rewrite Forall_forall in Hrest. specialize (Hrest k1 Hin).
      cbv beta in Hrest. lia.
  - apply IH. now inversion Hbound.
Qed.

Lemma histories_differ (st0 st1 : crypto_state) :
  iv_history 0 st0 -> iv_history 1 st1 ->
  NoDup (map snd (encryptions st0 ++ encryptions st1)).
Proof.
  intros H0 H1.
  destruct (history_bound 0 st0 H0) as (calls0 & Hlog0 & Hsorted0 & Hb0).
  destruct (history_bound 1 st1 H1) as (calls1 & Hlog1 & Hsorted1 & Hb1).
  rewrite map_app, Hlog0, Hlog1. apply NoDup_app.
  - apply sorted_ivs_differ; [lia | assumption | assumption].
  - apply sorted_ivs_differ; [lia | assumption | assumption].
  - intros iv Hin0 Hin1.
    apply in_map_iff in Hin0 as (k0 & Heq0 & Hin0).
    apply in_map_iff in Hin1 as (k1 & Heq1 & Hin1).
    rewrite Forall_forall in Hb0, Hb1.
    specialize (Hb0 k0 Hin0). specialize (Hb1 k1 Hin1).
    cbv beta in Hb0, Hb1. rewrite <- Heq1 in Heq0.
    apply spec_iv_injective in Heq0 as [Heq0 _]; lia.
Qed.

Lemma async_then_maps {A B : Type} (P Q R : crypto_state -> Prop)
  (p : async A) (k : A -> async B) :
  (forall st, P st -> Q (snd (p st))) ->
  (forall st, Q st -> R st) ->
  (forall a st, Q st -> R (snd (k a st))) ->
  forall st, P st -> R (snd ((p >>= k) st)).
Proof.
  intros Hp Hqr Hk st H. unfold async_then. specialize (Hp st H).
  destruct (p st) as [[a | r] st1]; cbn [snd] in Hp |- *.
  - now apply Hk.
  - now apply Hqr.
Qed.

(** [hello] is given the first IV of the generator and encrypts once
    with it. *)
Lemma hello_history (initiator_public_key receiver_public_key : CryptoKey)
  (info : jsvalue) (value : option json) (st : crypto_state) :
  next_encryption_iv st = {| fixed_field := 0; counter := 1 |} ->
  encryptions st = [] ->
  iv_history 0
    (snd (hello initiator_public_key receiver_public_key (spec_iv 0 0)
                info value st)).
Proof.
  intros Hiv Hlog.
  set (P0 := fun s : crypto_state =>
               next_encryption_iv s = {| fixed_field := 0; counter := 1 |}
               /\ encryptions s = []).
  set (P1 := fun s : crypto_state =>
               next_encryption_iv s = {| fixed_field := 0; counter := 1 |}
               /\ exists key, encryptions s = [(key, spec_iv 0 0)]).
  assert (H0 : forall s, P0 s -> iv_history 0 s).
  { intros s [Hs1 Hs2]. split; [now rewrite Hs1 |].
    exists 1%nat, []. rewrite Hs1, Hs2. cbn [counter map].
    unfold MAX_SAFE_INTEGER.
    repeat split; try lia; constructor. }
  assert (H1 : forall s, P1 s -> iv_history 0 s).
  { intros s [Hs1 [key Hs2]]. split; [now rewrite Hs1 |].
    exists 1%nat, [0%nat]. rewrite Hs1, Hs2. cbn [counter map snd].
    unfold MAX_SAFE_INTEGER.
    repeat split; try lia; repeat constructor. }
  unfold hello.
  apply (async_then_maps P0 P0 (iv_history 0)); [| exact H0 | | now split].
  - intros s [Hs1 Hs2]. unfold aes_generate_key.
    destruct (subtle_generateKey_AES (rng s)) as [p r]. unfold P0. cbn.
    now split.
  - intros [handshake_key initiator_public_key_buffer] s Hs.
    apply (async_then_maps P0 P1 (iv_history 0)); [| exact H1 | | exact Hs].
    + intros s1 [Hs1 Hs2].
      destruct ((lift (export_public_key handshake_key) >>= _) s1)
        as [encrypted_key s2] eqn:E.
      assert (Hframe : next_encryption_iv s2 = next_encryption_iv s1
                       /\ encryptions s2 = encryptions s1).
      { unfold async_then, lift, elliptic_encrypt in E.
        destruct (export_public_key handshake_key); cbn in E.
        - destruct (ecies_encrypt _ _ _) as [p r].
          injection E as _ <-. now split.
        - injection E as _ <-. now split. }
      destruct Hframe as [Hf1 Hf2]. unfold P1. cbn. split; [congruence |].
      exists handshake_key. now rewrite Hf2, Hs2.
    + intros [encrypted_handshake_key_buffer encrypted_hello_data_buffer]
             s1 Hs1.
      apply (async_then_maps P1 P1 (iv_history 0));
        [| exact H1 | | exact Hs1].
      * intros s2 Hs2. exact Hs2.
      * intros record s2 Hs2. apply H1. exact Hs2.
Qed.

Lemma deliver_history (a : action) (s s1 : initiator)
  (out : list connect_action) :
  deliver a s = (out, s1) -> initiator_history s -> initiator_history s1.
Proof.
  intros H Hs. destruct a; cbn [deliver] in H;
    try (injection H as <- <-; exact Hs).
  unfold redirected in H. destruct (the_consumer s) as [c |].
  - destruct (destroy _ _ c) as [rejections c1].
    injection H as <- <-. destruct Hs as [_ Hs].
    split; [intros c2 Hc2; discriminate | exact Hs].
  - injection H as <- <-. exact Hs.
Qed.

Lemma deliver_all_history (actions : list action) (s s1 : initiator)
  (out : list connect_action) :
  deliver_all actions s = (out, s1) ->
  initiator_history s -> initiator_history s1.
Proof.
  revert s out. induction actions as [| a actions IH]; intros s out H Hs.
  - injection H as <- <-. exact Hs.
  - cbn [deliver_all] in H. destruct (deliver a s) as [out1 s2] eqn:E.
    destruct (deliver_all actions s2) as [out2 s3] eqn:E2.
    injection H as <- <-.
    eapply IH; [eassumption |]. eapply deliver_history; eassumption.
Qed.

Lemma consumer_step_history (e : event) (c : consumer) (s s1 : initiator)
  (out : list connect_action) :
  the_consumer s = Some c ->
  deliver_all (fst (step e c)) (set_the_consumer s (Some (snd (step e c))))
  = (out, s1) ->
  initiator_history s -> initiator_history s1.
Proof.
  intros Hc H [Hs1 Hs2].
  eapply deliver_all_history; [eassumption |]. split.
  - intros c2 Hc2. cbn in Hc2. injection Hc2 as <-.
    destruct (step e c) as [a c1] eqn:E.
    eapply step_history; [eassumption |]. now apply Hs1.
  - exact Hs2.
Qed.

Lemma first_encryption_iv (r : entropy) :
  draw_encryption_iv
    {| next_encryption_iv := iv 0; next_decryption_iv := iv 1;
       rng := r; encryptions := [] |}
  = (Ok (spec_iv 0 0),
     {| next_encryption_iv := {| fixed_field := 0; counter := 1 |};
        next_decryption_iv := iv 1; rng := r; encryptions := [] |}).
Proof.
  unfold draw_encryption_iv, call_iv.
  cbn [next_encryption_iv iv fixed_field counter].
  rewrite iv_generator_spec by (unfold MAX_SAFE_INTEGER; lia).
  reflexivity.
Qed.

Lemma connect_step_history (e : connect_event) (s s1 : initiator)
  (out : list connect_action) :
  connect_step e s = (out, s1) ->
  initiator_history s -> initiator_history s1.
Proof.
  intros H Hs.
  assert (Hconsumer : forall e0 c out0 s0 s2,
             the_consumer s0 = Some c ->
             initiator_history s0 ->
             (let (actions, c1) := step e0 c in
              deliver_all actions (set_the_consumer s0 (Some c1)))
             = (out0, s2) ->
             initiator_history s2).
  { intros e0 c out0 s0 s2 Hc Hs0 H0.
    eapply (consumer_step_history e0 c s0); [exact Hc | | exact Hs0].
    destruct (step e0 c) as [actions c1]. exact H0. }
  destruct e as [| | e0 | reason]; cbn [connect_step] in H.
  - (* Transport_opened *)
    unfold on_transport_open in H.
    cbn [platform_rng set_transport_open] in H.
    rewrite first_encryption_iv in H.
    injection H as <- <-. destruct Hs as [Hs1 Hs2]. split.
    + exact Hs1.
    + intros p st Hopening. cbn in Hopening.
      match type of Hopening with
      | Some ?h = _ =>
          assert (Hh : iv_history 0 (snd h))
            by (apply hello_history; reflexivity)
      end.
      injection Hopening as Hopening. rewrite Hopening in Hh. exact Hh.
  - (* Hello_settled *)
    unfold hello_settled in H.
    destruct (opening s) as [[p st] |] eqn:Eopening;
      [| injection H as <- <-; exact Hs].
    destruct Hs as [Hs1 Hs2]. specialize (Hs2 p st Eopening).
    destruct p as [r | reason].
    + cbn [transport_open set_opening] in H.
      destruct (transport_open s); injection H as <- <-.
      * split; [| intros p0 st0 H0; discriminate].
        intros c Hc. cbn in Hc. injection Hc as <-. exact Hs2.
      * split; [exact Hs1 | intros p0 st0 H0; discriminate].
    + injection H as <- <-.
      split; [exact Hs1 | intros p0 st0 H0; discriminate].
  - (* Consumer *)
    destruct e0;
      try (destruct (the_consumer s) as [c |] eqn:Ec;
           [eapply Hconsumer; eassumption
           | injection H as <- <-; exact Hs]).
    cbn [the_consumer set_transport_open] in H.
    destruct (the_consumer s) as [c |] eqn:Ec;
      [| injection H as <- <-; exact Hs].
    destruct (step (Transport_closed reason) c) as [actions c1] eqn:E.
    destruct (deliver_all actions _) as [out0 s2] eqn:E2.
    injection H as <- <-.
    eapply (Hconsumer (Transport_closed reason) c out0
              (set_transport_open s false)); [exact Ec | exact Hs |].
    rewrite E. exact E2.
  - (* Close *)
    cbn [the_consumer set_transport_open] in H.
    destruct (the_consumer s) as [c |] eqn:Ec;
      [| injection H as <- <-; exact Hs].
    destruct (step (Transport_closed reason) c) as [actions c1] eqn:E.
    destruct (deliver_all actions _) as [out0 s2] eqn:E2.
    injection H as <- <-.
    eapply (Hconsumer (Transport_closed reason) c out0
              (set_transport_open s false)); [exact Ec | exact Hs |].
    rewrite E. exact E2.
Qed.

Lemma connect_run_history (events : list connect_event) (s s1 : initiator)
  (out : list connect_action) :
  connect_run events s = (out, s1) ->
  initiator_history s -> initiator_history s1.
Proof.
  revert s out. induction events as [| e events IH]; intros s out H Hs.
  - injection H as <- <-. exact Hs.
  - cbn [connect_run] in H. destruct (connect_step e s) as [out1 s2] eqn:E.
    destruct (connect_run events s2) as [out2 s3] eqn:E2.
    injection H as <- <-.
    eapply IH; [eassumption |]. eapply connect_step_history; eassumption.
Qed.

(** C1.  Take any history of an initiator, from [connect] on, and any
    history of a consumer made by [listen].  The IVs of the encryptions of
    the initiator's current session are IVs of fixed field 0 with growing
    counters, from the one [hello] uses under the handshake key to those of
    the records under the session key; those of the receiver are IVs of
    fixed field 1 with growing counters, from those of the AuthHello under
    the handshake key on.  No IV occurs twice among all of them, so no pair
    of a key and an IV does. *)
Theorem no_iv_twice (pair : CryptoKeyPair) (address : jsvalue)
  (remote : CryptoKey) (value : option json) (info : jsvalue) (r : entropy)
  (events : list connect_event)
  (id : nat) (pair1 : CryptoKeyPair) (r1 : entropy) (events1 : list event) :
  let s :=
    snd (connect_run events (snd (connect pair address remote value info r)))
  in
  let c := snd (run events1 (listen_consumer id pair1 r1)) in
  (exists calls : list nat,
      map snd (initiator_encryptions s)
      = map (fun k => spec_iv 0 (Z.of_nat k)) calls
      /\ StronglySorted lt calls)
  /\ (exists calls : list nat,
        map snd (encryptions (crypto c))
        = map (fun k => spec_iv 1 (Z.of_nat k)) calls
        /\ StronglySorted lt calls)
  /\ NoDup (map snd (initiator_encryptions s ++ encryptions (crypto c)))
  /\ NoDup (initiator_encryptions s ++ encryptions (crypto c)).
Proof.
  intros s c.
  assert (Hs : initiator_history s).
  { unfold s.
    destruct (connect_run events _) as [out s1] eqn:E. cbn [snd].
    eapply connect_run_history; [exact E |].
    cbn. split; intros; discriminate. }
  assert (Hc : iv_history 1 (crypto c)).
  { unfold c.
    destruct (run events1 (listen_consumer id pair1 r1)) as [a c1] eqn:E.
    cbn [snd].
    refine (run_holds
              (fun c _ c1 =>
                 iv_history 1 (crypto c) -> iv_history 1 (crypto c1))
              _ _ _ events1 _ a c1 E _).
    - auto.
    - auto.
    - intros e c0 a0 c2 H. eapply step_history. eassumption.
    - cbn. split; [reflexivity |]. exists 0%nat, [].
      unfold MAX_SAFE_INTEGER.
      repeat split; try (cbn; lia); constructor. }
  assert (Hst : exists st, iv_history 0 st
                           /\ initiator_encryptions s = encryptions st).
  { destruct Hs as [Hs1 Hs2]. unfold initiator_encryptions.
    destruct (the_consumer s) as [c0 |].
    - exists (crypto c0). split; [now apply Hs1 | reflexivity].
    - destruct (opening s) as [[p st] |].
      + exists st. split; [eapply Hs2; reflexivity | reflexivity].
      + exists {| next_encryption_iv := iv 0; next_decryption_iv := iv 1;
                  rng := platform_rng s; encryptions := [] |}.
        split; [| reflexivity].
        split; [reflexivity |]. exists 0%nat, [].
        unfold MAX_SAFE_INTEGER.
        repeat split; try (cbn; lia); constructor. }
  destruct Hst as (st & Hst & Hlog). rewrite Hlog.
  assert (Hno : NoDup (map snd (encryptions st ++ encryptions (crypto c))))
    by (now apply histories_differ).
  split; [| split; [| split]].
  - destruct (history_bound 0 st Hst) as (calls & H1 & H2 & _). eauto.
  - destruct (history_bound 1 (crypto c) Hc) as (calls & H1 & H2 & _). eauto.
  - exact Hno.
  - eapply NoDup_map_inv. exact Hno.
Qed.

(** ** Redirection *)

Lemma opened_connections_app (a1 a2 : list action) :
  opened_connections (a1 ++ a2)
  = opened_connections a1 ++ opened_connections a2.
Proof.
  induction a1 as [| x a1 IH]; [reflexivity |].
  destruct x; cbn; rewrite ?IH; reflexivity.
Qed.

Lemma destroy_opens_nothing (reason : jsvalue) (situation : option bool)
  (c : consumer) :
  opened_connections (fst (destroy reason situation c)) = [].
Proof.
  unfold destroy. destruct (transport_connection c); [| reflexivity].
  cbn [fst]. rewrite !opened_connections_app.
  assert (H : forall l, opened_connections
                          (map (fun pending => Reject pending reason) l) = [])
    by (induction l; [reflexivity | assumption]).
  rewrite H. destruct situation as [[|] |]; reflexivity.
Qed.

Lemma opens_its_own_nothing (c : consumer) : opens_its_own c [] c.
Proof. split; [reflexivity | constructor]. Qed.

Lemma opens_its_own_sequence (c1 : consumer) (a1 : list action)
  (c2 : consumer) (a2 : list action) (c3 : consumer) :
  opens_its_own c1 a1 c2 -> opens_its_own c2 a2 c3 ->
  opens_its_own c1 (a1 ++ a2) c3.
Proof.
  intros [H1 H2] [H3 H4]. split; [congruence |].
  rewrite opened_connections_app. apply Forall_app. split; [exact H2 |].
  rewrite <- H1. exact H4.
Qed.

Ltac opens_nothing :=
  repeat match goal with
  | H : destroy ?r ?s ?c = (?l, ?c1) |- _ =>
      let Q := fresh "Hnone" in
      assert (Q : opened_connections l = [])
        by (rewrite <- (destroy_opens_nothing r s c), H; reflexivity);
      destroyed_in H
  end;
  decrypted; ran_task;
  split;
  [ reflexivity
  | rewrite ?opened_connections_app; cbn [opened_connections];
    repeat match goal with
    | Q : opened_connections _ = [] |- _ => rewrite Q
    end;
    cbn [app]; repeat constructor ].

Lemma receive_opens (c c1 : consumer) (a : list action) (f : flow) :
  receive c = (a, c1, f) -> opens_its_own c a c1.
Proof.
  intros H. unfold receive in H.
  break_result H; opens_nothing.
Qed.

Lemma consume_body_opens (c c1 : consumer) (a : list action) (f : flow) :
  consume_body c = (a, c1, f) -> opens_its_own c a c1.
Proof.
  intros H. unfold consume_body, start_decrypt, take, bind in H.
  break_result H; try opens_nothing.
  all: eapply receive_opens; eassumption.
Qed.

Lemma consume_opens (c c1 : consumer) (a : list action) (f : flow) :
  consume c = (a, c1, f) -> opens_its_own c a c1.
Proof.
  revert c a c1 f. apply (consume_holds opens_its_own).
  - apply opens_its_own_nothing.
  - apply opens_its_own_sequence.
  - intros c a c1 f H. eapply consume_body_opens. eassumption.
Qed.

Lemma step_opens (e : event) (c c1 : consumer) (a : list action) :
  step e c = (a, c1) -> opens_its_own c a c1.
Proof.
  intros H.
  assert (Hcaught : forall r a2 c2,
             caught r = (a2, c2) ->
             opens_its_own c (fst (fst r)) (snd (fst r)) ->
             opens_its_own c a2 c2).
  { intros [[a0 c0] f0] a2 c2 Hr H0. cbn in Hr, H0.
    destruct f0; break_result Hr; try exact H0.
    eapply opens_its_own_sequence; [exact H0 |]. opens_nothing. }
  assert (Hconsume : forall c0,
             opens_its_own c [] c0 ->
             opens_its_own c (fst (fst (consume c0))) (snd (fst (consume c0)))).
  { intros c0 H0. destruct (consume c0) as [[a0 c2] f0] eqn:E. cbn [fst snd].
    apply (opens_its_own_sequence c [] c0 a0 c2 H0).
    eapply consume_opens. eassumption. }
  destruct e; cbn [step] in H.
  - specialize (Hconsume (set_buffer c (concat_buffers (buffer c) chunk))).
    destruct (consume _) as [[a0 c0] f0] eqn:E. cbn [fst snd] in Hconsume.
    assert (H0 : opens_its_own c a0 c0)
      by (apply Hconsume; split; [reflexivity | constructor]).
    destruct f0; cbn in H; injection H as <- <-; try exact H0.
    destruct H0 as [H1 H2]. split; [exact H1 |].
    rewrite opened_connections_app. cbn. now rewrite app_nil_r.
  - opens_nothing.
  - unfold settled in H. destruct (in_flight c) as [| op rest] eqn:Eops.
    + injection H as <- <-. apply opens_its_own_nothing.
    + destruct op as [[b | r] | [b | r] | m [res | r] | [k | r] | m [k | r]];
        try opens_nothing.
      * destruct (decode_identifier b); [| opens_nothing].
        eapply Hcaught; [eassumption |]. apply Hconsume.
        split; [reflexivity | constructor].
      * eapply Hcaught; [eassumption |]. apply Hconsume.
        split; [reflexivity | constructor].
      * cbn in H. destruct (transport_connection c);
          injection H as <- <-; opens_nothing.
      * injection H as <- <-. opens_nothing.
      * cbn in H. destruct (on_redirect c);
          [injection H as <- <- | ]; opens_nothing.
  - unfold queue_turn in H. break_result H; opens_nothing.
  - unfold record_settled in H. break_result H; opens_nothing.
  - break_result H; opens_nothing.
  - break_result H; opens_nothing.
  - break_result H; opens_nothing.
  - break_result H; opens_nothing.
Qed.

Lemma caller_opened_app (t1 t2 : list party_action) :
  caller_opened (t1 ++ t2) = caller_opened t1 ++ caller_opened t2.
Proof.
  induction t1 as [| x t1 IH]; [reflexivity |].
  destruct x; cbn; rewrite ?IH; reflexivity.
Qed.

Lemma party_trace_app (petname : string) (o1 o2 : list connect_action) :
  party_trace petname (o1 ++ o2)
  = party_trace petname o1 ++ party_trace petname o2.
Proof. unfold party_trace. apply flat_map_app. Qed.

Lemma caller_opened_rejections (petname : string) (reason : jsvalue)
  (l : list nat) :
  caller_opened
    (party_trace petname
       (map Of_consumer (map (fun pending => Reject pending reason) l)))
  = [].
Proof. induction l; [reflexivity | exact IHl]. Qed.

Lemma caller_opened_on_close (petname : string) (connection : option nat)
  (reason : jsvalue)
  (redirection : option (jsvalue * CryptoKey * jsvalue * jsvalue)) :
  caller_opened (party_on_close petname connection reason redirection) = [].
Proof.
  destruct redirection as [[[[address key] permanent] context] |];
    [| reflexivity].
  cbn. destruct (truthy permanent); reflexivity.
Qed.

Lemma caller_opened_destroy (petname : string) (reason : jsvalue)
  (situation : option bool) (c : consumer) :
  caller_opened
    (party_trace petname (map Of_consumer (fst (destroy reason situation c))))
  = [].
Proof.
  unfold destroy. destruct (transport_connection c); [| reflexivity].
  cbn [fst]. rewrite !map_app, !party_trace_app, !caller_opened_app.
  rewrite caller_opened_rejections.
  destruct situation as [[|] |]; reflexivity.
Qed.

Lemma deliver_makes (petname : string) (m : nat) (a : action)
  (s s1 : initiator) (out : list connect_action) :
  deliver a s = (out, s1) ->
  makes_from m s ->
  Forall (fun n => (m <= n)%nat) (opened_connections [a]) ->
  makes_from m s1
  /\ Forall (fun n => (m <= n)%nat) (caller_opened (party_trace petname out)).
Proof.
  intros H Hs Ha. destruct a; cbn [deliver] in H;
    try (injection H as <- <-; split; [exact Hs | ]; cbn;
         first [exact Ha | constructor]).
  unfold redirected in H. destruct (the_consumer s) as [c |].
  - pose proof (caller_opened_destroy petname (VJson (JString "Redirected."))
                    (Some false) c) as Hquiet.
    destruct (destroy _ _ c) as [rejections c1]. cbn [fst] in Hquiet.
    injection H as <- <-. destruct Hs as [Hs1 Hs2]. split.
    + split; [exact Hs1 | intros c2 Hc2; discriminate].
    + change (Close_transport :: ?l) with ([Close_transport] ++ l).
      rewrite !party_trace_app, !caller_opened_app, Hquiet.
      cbn [party_trace flat_map party_view caller_opened app].
      rewrite caller_opened_app, caller_opened_on_close. constructor.
  - injection H as <- <-. split; [exact Hs | constructor].
Qed.

Lemma deliver_all_makes (petname : string) (m : nat) (actions : list action)
  (s s1 : initiator) (out : list connect_action) :
  deliver_all actions s = (out, s1) ->
  makes_from m s ->
  Forall (fun n => (m <= n)%nat) (opened_connections actions) ->
  makes_from m s1
  /\ Forall (fun n => (m <= n)%nat) (caller_opened (party_trace petname out)).
Proof.
  revert s out. induction actions as [| a actions IH]; intros s out H Hs Ha.
  - injection H as <- <-. split; [exact Hs | constructor].
  - cbn [deliver_all] in H. destruct (deliver a s) as [out1 s2] eqn:E.
    destruct (deliver_all actions s2) as [out2 s3] eqn:E2.
    injection H as <- <-.
    change (a :: actions) with ([a] ++ actions) in Ha.
    rewrite opened_connections_app in Ha. apply Forall_app in Ha as [Ha1 Ha2].
    destruct (deliver_makes petname m a s s2 out1 E Hs Ha1) as [Hs2 Hout1].
    destruct (IH s2 out2 E2 Hs2 Ha2) as [Hs3 Hout2].
    split; [exact Hs3 |].
    rewrite party_trace_app, caller_opened_app. apply Forall_app. now split.
Qed.

Lemma consumer_step_makes (petname : string) (m : nat) (e : event)
  (c : consumer) (s s1 : initiator) (out : list connect_action) :
  (m <= connection_id c)%nat ->
  makes_from m s ->
  (let (actions, c1) := step e c in
   deliver_all actions (set_the_consumer s (Some c1))) = (out, s1) ->
  makes_from m s1
  /\ Forall (fun n => (m <= n)%nat) (caller_opened (party_trace petname out)).
Proof.
  intros Hc [Hs1 Hs2] H.
  destruct (step e c) as [actions c1] eqn:E.
  destruct (step_opens e c c1 actions E) as [Hid Hopens].
  eapply deliver_all_makes; [exact H | |].
  - split; [exact Hs1 |]. intros c2 Hc2. cbn in Hc2.
    injection Hc2 as <-. lia.
  - eapply Forall_impl; [| exact Hopens]. intros n Hn. cbv beta in Hn. lia.
Qed.

Lemma connect_step_makes (petname : string) (m : nat) (e : connect_event)
  (s s1 : initiator) (out : list connect_action) :
  connect_step e s = (out, s1) ->
  makes_from m s ->
  makes_from m s1
  /\ Forall (fun n => (m <= n)%nat) (caller_opened (party_trace petname out)).
Proof.
  intros H Hs.
  destruct e as [| | e0 | reason]; cbn [connect_step] in H.
  - unfold on_transport_open in H. cbn [platform_rng set_transport_open] in H.
    rewrite first_encryption_iv in H. injection H as <- <-.
    split; [exact Hs | constructor].
  - unfold hello_settled in H.
    destruct (opening s) as [[p st] |];
      [| injection H as <- <-; split; [exact Hs | constructor]].
    destruct p as [r | reason].
    + cbn [transport_open set_opening] in H.
      destruct (transport_open s); injection H as <- <-.
      * destruct Hs as [Hs1 Hs2]. split; [| constructor]. split.
        -- cbn. lia.
        -- intros c Hc. cbn in Hc. injection Hc as <-. cbn. exact Hs1.
      * split; [exact Hs | constructor].
    + injection H as <- <-. split; [exact Hs | constructor].
  - destruct e0;
      try (destruct (the_consumer s) as [c |] eqn:Ec;
           [eapply (consumer_step_makes petname m _ c s);
            [apply Hs; exact Ec | exact Hs | exact H]
           | injection H as <- <-; split; [exact Hs | constructor]]).
    cbn [the_consumer set_transport_open] in H.
    destruct (the_consumer s) as [c |] eqn:Ec;
      [| injection H as <- <-; split; [exact Hs | constructor]].
    destruct (step (Transport_closed reason) c) as [actions c1] eqn:E.
    destruct (deliver_all actions _) as [out0 s2] eqn:E2.
    injection H as <- <-.
    destruct (consumer_step_makes petname m (Transport_closed reason) c
                (set_transport_open s false) s2 out0) as [H1 H2];
      [apply Hs; exact Ec | exact Hs | rewrite E; exact E2 |].
    split; [exact H1 |].
    rewrite party_trace_app, caller_opened_app. cbn. now rewrite app_nil_r.
  - cbn [the_consumer set_transport_open] in H.
    destruct (the_consumer s) as [c |] eqn:Ec;
      [| injection H as <- <-; split; [exact Hs | constructor]].
    destruct (step (Transport_closed reason) c) as [actions c1] eqn:E.
    destruct (deliver_all actions _) as [out0 s2] eqn:E2.
    injection H as <- <-.
    destruct (consumer_step_makes petname m (Transport_closed reason) c
                (set_transport_open s false) s2 out0) as [H1 H2];
      [apply Hs; exact Ec | exact Hs | rewrite E; exact E2 |].
    split; [exact H1 |].
    rewrite party_trace_app, caller_opened_app. cbn. now rewrite app_nil_r.
Qed.

Lemma connect_run_makes (petname : string) (m : nat)
  (events : list connect_event) (s s1 : initiator)
  (out : list connect_action) :
  connect_run events s = (out, s1) ->
  makes_from m s ->
  makes_from m s1
  /\ Forall (fun n => (m <= n)%nat) (caller_opened (party_trace petname out)).
Proof.
  revert s out. induction events as [| e events IH]; intros s out H Hs.
  - injection H as <- <-. split; [exact Hs | constructor].
  - cbn [connect_run] in H. destruct (connect_step e s) as [out1 s2] eqn:E.
    destruct (connect_run events s2) as [out2 s3] eqn:E2.
    injection H as <- <-.
    destruct (connect_step_makes petname m e s s2 out1 E Hs) as [Hs2 Hout1].
    destruct (IH s2 out2 E2 Hs2) as [Hs3 Hout2].
    split; [exact Hs3 |].
    rewrite party_trace_app, caller_opened_app. apply Forall_app. now split.
Qed.

(** C8.  An initiator that reads a record of type Redirect sets [busy] and
    imports the public key of the record.  When the key is imported, the
    consumer calls [on_redirect]: the transport is closed, the pending
    waiters are rejected with "Redirected.", the party's [on_close] is
    called, which (after recording a permanent redirection in the store)
    calls the caller's [on_close] with the old connection and the reason
    "redirected", and only then the transport is asked to connect to the
    address of the record.  The initiator is left without consumer, with
    the imported key for remote public key and the redirect context of the
    record for connection info, which the Hello of the next transport
    connection is made of.  Every connection the caller sees opened in what
    follows is a later one than the old connection: its [on_open] comes
    after that [on_close]. *)
Theorem redirect_closes_before_opening (petname : string) (s : initiator)
  (c : consumer) (message : jsobject) (public_key : CryptoKey) :
  the_consumer s = Some c ->
  transport_connection c = true ->
  on_redirect c = true ->
  in_flight c = [Import_redirect_key message (Resolved public_key)] ->
  (connection_id c < made s)%nat ->
  let address := get_property message "address" in
  let permanent := get_property message "permanent" in
  let context := get_property message "redirectContext" in
  (forall (c0 : consumer) (id : identifier_info) (b : ArrayBuffer),
      identifier c0 = Some id ->
      id_type id = Some (JString "Redirect") ->
      session_key c0 <> None ->
      build_message (id_blobs id) 0 (blob_buffers c0) [] = Ok message ->
      hex_decode (get_property message "publicKey") = Ok b ->
      receive c0
      = ([], start (Import_redirect_key message (import_public_key b))
                   (set_busy (next_record c0) true), Return))
  /\ exists (out : list connect_action) (s1 : initiator),
       connect_step (Consumer Settled) s = (out, s1)
       /\ party_trace petname out
          = Below Close_transport
            :: map (fun pending =>
                      Below (Of_consumer
                               (Reject pending
                                       (VJson (JString "Redirected.")))))
                   (pending_acks c)
            ++ (if truthy permanent
                then [Store_add_acquaintance petname address public_key]
                else [])
            ++ [Caller_on_close (seif_connection c)
                                (VJson (JString "redirected"));
                Below (Transport_connect address)]
       /\ remote_public_key s1 = public_key
       /\ connection_info s1 = context
       /\ the_consumer s1 = None
       /\ (exists st : crypto_state,
             connect_step Transport_opened s1
             = ([], set_opening (set_transport_open s1 true)
                      (Some (hello (publicKey (keypair s)) public_key
                                   (spec_iv 0 0) context (hello_value s)
                                   st))))
       /\ forall (later : list connect_event) (out2 : list connect_action)
                 (s2 : initiator),
            connect_run later s1 = (out2, s2) ->
            Forall (fun n => (connection_id c < n)%nat)
                   (caller_opened (party_trace petname out2)).
Proof.
  intros Hc Hopen Hredirect Hflight Hmade address permanent context.
  split.
  - intros c0 id b Hid Htype Hkey Hmessage Hhex.
    destruct (session_key c0) as [k |] eqn:Ek; [clear Hkey | congruence].
    unfold receive. rewrite Hid, Hmessage, Htype. cbn. rewrite Ek, Hhex.
    reflexivity.
  - cbn [connect_step]. rewrite Hc. cbn [step]. unfold settled.
    rewrite Hflight. cbn [in_flight set_in_flight on_redirect]. rewrite Hredirect.
    cbn [deliver_all deliver]. unfold redirected.
    cbn [the_consumer set_the_consumer]. unfold destroy.
    cbn [transport_connection set_busy set_in_flight pending_acks].
    rewrite Hopen. cbn [app seif_connection set_busy set_in_flight].
    eexists. eexists. split; [reflexivity |].
    split; [| split; [| split; [| split; [| split]]]].
    + rewrite !app_nil_r. unfold party_trace.
      cbn [flat_map party_view app]. rewrite flat_map_app. f_equal. f_equal.
      * induction (pending_acks c) as [| w l IH]; [reflexivity |].
        cbn. f_equal. exact IH.
      * cbn [flat_map party_view party_on_close app].
        rewrite <- app_assoc. reflexivity.
    + reflexivity.
    + reflexivity.
    + reflexivity.
    + cbn [connect_step]. unfold on_transport_open.
      cbn [platform_rng set_transport_open]. rewrite first_encryption_iv.
      eexists. reflexivity.
    + intros later out2 s2 Hrun.
      eapply connect_run_makes with (petname := petname) (m := made s)
        in Hrun.
      * destruct Hrun as [_ Hrun]. eapply Forall_impl; [| exact Hrun].
        intros n Hn. cbv beta in Hn. lia.
      * split; [cbn; lia |]. intros c2 Hc2. discriminate.
Qed.

(** C9.  When an operation of the handshake resolves (the decryption of
    the session key at an initiator, [auth_hello] at a receiver), [on_open]
    is called and [busy] is cleared, and that is all: [consume] is not
    invoked, as it is when the decryption of an identifier or of a blob
    resolves.  The bytes that arrived in the meantime stay in the buffer,
    whatever they are, and the parse state stays as it was: parsing does
    not resume when the pending operation completes, but when [consume] is
    next called for another reason. *)
Theorem handshake_completion_does_not_resume (c : consumer)
  (rest : list operation) :
  (forall the_session_key : CryptoKey,
      in_flight c = Decrypt_session_key (Resolved the_session_key) :: rest ->
      settled c
      = ([On_open (connection_id c) None None VUndefined],
         set_busy (open_session (set_in_flight c rest) the_session_key) false)
      /\ buffer (snd (settled c)) = buffer c
      /\ busy (snd (settled c)) = false
      /\ identifier (snd (settled c)) = identifier c)
  /\ (forall (message : jsobject) (result : auth_hello_result),
        in_flight c = Auth_hello message (Resolved result) :: rest ->
        transport_connection c = true ->
        settled c
        = ([Transport_send (auth_hello_record result);
            On_open (connection_id c)
                    (Some (auth_initiator_public_key result))
                    (auth_hello_value result)
                    (get_property message "connectionInfo")],
           set_busy (open_session (set_in_flight c rest)
                                  (auth_session_key result)) false)
        /\ buffer (snd (settled c)) = buffer c
        /\ busy (snd (settled c)) = false
        /\ identifier (snd (settled c)) = identifier c).
Proof.
  split.
  - intros k H. unfold settled. rewrite H. repeat split.
  - intros message result H Hopen. unfold settled. rewrite H.
    cbn [transport_connection set_in_flight]. rewrite Hopen. repeat split.
Qed.

(** ** hex.js *)

Lemma byte_round_trip_all (x : Z) : is_byte x -> byte_round_trip x = true.
Proof.
  intros Hx.
  assert (H : forallb (fun n => byte_round_trip (Z.of_nat n)) (seq 0 256)
              = true) by (vm_compute; reflexivity).
  rewrite forallb_forall in H.
  specialize (H (Z.to_nat x)). rewrite Z2Nat.id in H by (unfold is_byte in Hx; lia).
  apply H. apply in_seq. unfold is_byte in Hx. lia.
Qed.

Lemma toUpperCase_app (s t : string) :
  toUpperCase (s ++ t) = (toUpperCase s ++ toUpperCase t)%string.
Proof. induction s as [| c s IH]; cbn; [reflexivity | now rewrite IH]. Qed.

Lemma concat_empty_cons (s : string) (l : list string) :
  String.concat EmptyString (s :: l)
  = (s ++ String.concat EmptyString l)%string.
Proof.
  destruct l as [| t l]; cbn [String.concat].
  - induction s as [| c s IH]; cbn; [reflexivity | now rewrite <- IH].
  - reflexivity.
Qed.

Lemma hex_encode_buffer_cons (x : Z) (b : ArrayBuffer) :
  hex_encode_buffer (x :: b)
  = (toUpperCase (hexify x) ++ hex_encode_buffer b)%string.
Proof.
  unfold hex_encode_buffer. cbn [map].
  now rewrite concat_empty_cons, toUpperCase_app.
Qed.

(** X3.  [decode] undoes [encode]: the string that [encode] writes for a
    buffer of bytes is read back by [decode] as the same bytes. *)
Theorem hex_decode_encode (buffer : ArrayBuffer) :
  Forall is_byte buffer ->
  hex_decode_string (VJson (JString (hex_encode_buffer buffer))) = Ok buffer.
Proof.
  intros Hbytes. cbn [hex_decode_string]. f_equal.
  induction Hbytes as [| x b Hx Hb IH]; [reflexivity |].
  rewrite hex_encode_buffer_cons.
  pose proof (byte_round_trip_all x Hx) as H. unfold byte_round_trip in H.
  destruct (toUpperCase (hexify x)) as [| h [| l [| ? ?]]]; try discriminate.
  apply andb_prop in H. destruct H as [H Hval].
  apply andb_prop in H. destruct H as [H Hl].
  apply andb_prop in H. destruct H as [_ Hh].
  cbn [String.append match_pairs]. rewrite Hh, Hl. cbn [andb map].
  apply Z.eqb_eq in Hval. rewrite Hval. f_equal. exact IH.
Qed.

(** X4.  [encode] writes two characters for each byte, each of them a
    digit or a capital letter from A to F. *)
Theorem hex_encode_digits (buffer : ArrayBuffer) :
  Forall is_byte buffer ->
  String.length (hex_encode_buffer buffer) = (2 * length buffer)%nat
  /\ Forall (fun c => is_upper_hex_digit c = true)
            (list_ascii_of_string (hex_encode_buffer buffer)).
Proof.
  intros Hbytes.
  induction Hbytes as [| x b Hx Hb [IHlen IHdigits]];
    [split; [reflexivity | constructor] |].
  rewrite hex_encode_buffer_cons.
  pose proof (byte_round_trip_all x Hx) as H. unfold byte_round_trip in H.
  destruct (toUpperCase (hexify x)) as [| h [| l [| ? ?]]]; try discriminate.
  apply andb_prop in H. destruct H as [H _].
  apply andb_prop in H. destruct H as [H _].
  apply andb_prop in H. destruct H as [H _].
  apply andb_prop in H. destruct H as [Hh Hl].
  cbn [String.append String.length list_ascii_of_string length].
  split; [rewrite IHlen; lia |].
  constructor; [exact Hh |]. constructor; [exact Hl | exact IHdigits].
Qed.

Lemma match_pairs_step (a b : ascii) (rest : string) :
  match_pairs (String a (String b rest))
  = if negb (is_line_terminator a) && negb (is_line_terminator b)
    then String a (String b EmptyString) :: match_pairs rest
    else match_pairs (String b rest).
Proof. reflexivity. Qed.

Lemma match_pairs_count (n : nat) (s : string) :
  (String.length s <= n)%nat ->
  (2 * length (match_pairs s) <= String.length s)%nat
  /\ (has_line_terminator s = false ->
      length (match_pairs s) = Nat.div2 (String.length s)).
Proof.
  revert s. induction n as [| n IH]; intros s Hlen.
  - destruct s; [split; [cbn; lia | reflexivity] | cbn in Hlen; lia].
  - destruct s as [| a [| b rest]]; [split; [cbn; lia | reflexivity] .. |].
    cbn [String.length] in Hlen.
    destruct (IH rest ltac:(lia)) as [H1 H2].
      destruct (IH (String b rest) ltac:(cbn [String.length]; lia))
        as [H3 H4].
      rewrite match_pairs_step. cbn [String.length] in H3, H4 |- *.
      split.
      * destruct (negb (is_line_terminator a) && negb (is_line_terminator b));
          cbn [length]; lia.
      * cbn [has_line_terminator]. intros Hno.
        apply orb_false_elim in Hno. destruct Hno as [Ha Hno].
        apply orb_false_elim in Hno. destruct Hno as [Hb Hno].
        rewrite Ha, Hb. cbn [negb andb length Nat.div2].
        now rewrite H2.
Qed.

Lemma ToUint8_byte (v : option Z) : is_byte (ToUint8 v).
Proof.
  unfold is_byte, ToUint8. destruct v as [n |]; [| lia].
  apply Z.mod_pos_bound. lia.
Qed.

(** X5.  [decode] accepts every string and never throws on one: it yields
    one byte for each pair of characters that it matches, at most half as
    many bytes as the string has characters, and exactly half (rounded
    down, a last odd character being dropped) when the string holds no
    line terminator.  What is not a hexadecimal number is not refused: it
    becomes a byte all the same. *)
Theorem hex_decode_total (s : string) :
  exists buffer : ArrayBuffer,
    hex_decode_string (VJson (JString s)) = Ok buffer
    /\ Forall is_byte buffer
    /\ (2 * length buffer <= String.length s)%nat
    /\ (has_line_terminator s = false ->
        length buffer = Nat.div2 (String.length s)).
Proof.
  eexists. split; [reflexivity |].
  destruct (match_pairs_count (String.length s) s (le_n _)) as [H1 H2].
  split; [| split].
  - apply Forall_forall. intros x Hx. apply in_map_iff in Hx.
    destruct Hx as (pair & <- & _). apply ToUint8_byte.
  - now rewrite length_map.
  - intros Hno. rewrite length_map. now apply H2.
Qed.

(** ** ECIES, there and back *)

(** X6.  [decrypt] undoes [encrypt]: where the recipient's keys are a pair
    (ECDH derives the same bits from the recipient's private key and the
    imported raw ephemeral public key, of 133 bytes, as from the
    recipient's public key and the ephemeral private key) and AES-GCM
    decrypts what it encrypted, the ciphertext that [encrypt] makes of a
    plaintext for the public key is decrypted to that plaintext with the
    private key. *)
Theorem ecies_decrypt_encrypt (plaintext : ArrayBuffer)
  (public_key private_key : CryptoKey) (r r1 : entropy)
  (ciphertext : ArrayBuffer) :
  (forall (pair : CryptoKeyPair) (e e1 : entropy) (raw : ArrayBuffer),
     subtle_generateKey_ECDH "P-521" e = (Resolved pair, e1) ->
     subtle_exportKey Raw (publicKey pair) = Resolved raw ->
     byteLength raw = 133
     /\ exists imported : CryptoKey,
          subtle_importKey Raw raw (ECDH "P-521") = Resolved imported
          /\ subtle_deriveBits imported private_key 256
             = subtle_deriveBits public_key (privateKey pair) 256) ->
  (forall (iv : ArrayBuffer) (key : CryptoKey) (p c : ArrayBuffer),
     subtle_encrypt iv key p = Resolved c ->
     subtle_decrypt iv key c = Resolved p) ->
  ecies_encrypt plaintext public_key r = (Resolved ciphertext, r1) ->
  ecies_decrypt (VArrayBuffer ciphertext) private_key
  = Ok (Resolved plaintext).
Proof.
  intros Hpair Hdec H. unfold ecies_encrypt, generate_keypair, curve in H.
  destruct (subtle_generateKey_ECDH "P-521" r) as [[ephemeral | ?] r2] eqn:Eg;
    cbn [then_] in H; [| discriminate].
  injection H as H <-.
  destruct (subtle_exportKey Raw (publicKey ephemeral)) as [raw | ?] eqn:Ee;
    cbn [Promise_all2 then_] in H; [| discriminate].
  destruct (subtle_deriveBits public_key (privateKey ephemeral) 256)
    as [bits | ?] eqn:Ed; cbn [then_] in H; [| discriminate].
  destruct (subtle_importKey Raw bits AES_GCM) as [aes_key | ?] eqn:Ei;
    cbn [then_] in H; [| discriminate].
  destruct (subtle_encrypt ecies_iv aes_key plaintext) as [encrypted | ?] eqn:Ec;
    cbn [then_] in H; [| discriminate].
  rewrite ecies_ciphertext_spec in H. cbn [settle] in H.
  injection H as <-.
  destruct (Hpair _ _ _ _ Eg Ee) as (Hr & imported & Himport & Hagree).
  unfold ecies_decrypt, slice_value. rewrite nr_raw_key_bytes_value.
  rewrite slice_prefix, slice_suffix by lia. cbn [bind settle then_].
  assert (Hn : Z.to_nat 133 = length raw)
    by (unfold byteLength in Hr; lia).
  rewrite Hn, firstn_app, Nat.sub_diag, firstn_all, skipn_app, Nat.sub_diag,
    skipn_all. cbn [firstn skipn app]. rewrite app_nil_r.
  unfold curve. rewrite Himport. cbn [then_]. rewrite Hagree, Ed. cbn [then_].
  rewrite Ei. cbn [then_]. now rewrite (Hdec _ _ _ _ Ec).
Qed.

(** ** A destroyed consumer *)

Lemma consume_gone (c : consumer) :
  transport_connection c = false -> consume c = ([], c, Return).
Proof.
  intros H. unfold consume, consume_body. now rewrite H.
Qed.

Lemma destroy_gone (reason : jsvalue) (situation_option : option bool)
  (c : consumer) :
  transport_connection c = false -> destroy reason situation_option c = ([], c).
Proof. intros H. unfold destroy. now rewrite H. Qed.

Lemma step_gone (e : event) (c c1 : consumer) (a : list action) :
  step e c = (a, c1) ->
  transport_connection c = false ->
  transport_connection c1 = false
  /\ Forall (fun x => straggler x = true) a
  /\ (length a + length (in_flight c1) <= length (in_flight c))%nat.
Proof.
  intros H Hgone.
  destruct e; cbn [step] in H.
  - rewrite consume_gone in H by exact Hgone. cbn in H.
    injection H as <- <-. cbn. auto.
  - rewrite destroy_gone in H by exact Hgone. injection H as <- <-. cbn. auto.
  - unfold settled in H. destruct (in_flight c) as [| op rest] eqn:Eops.
    + injection H as <- <-. rewrite Eops. cbn. auto.
    + destruct op as [[b | r] | [b | r] | m [res | r] | [k | r] | m [k | r]];
        try (rewrite destroy_gone in H by exact Hgone;
             injection H as <- <-; cbn; auto).
      * destruct (decode_identifier b).
        -- rewrite consume_gone in H by exact Hgone. cbn in H.
           injection H as <- <-. cbn. auto.
        -- rewrite destroy_gone in H by exact Hgone.
           injection H as <- <-. cbn. auto.
      * rewrite consume_gone in H by exact Hgone. cbn in H.
        injection H as <- <-. cbn. auto.
      * cbn in H. rewrite Hgone in H. injection H as <- <-. cbn. auto.
      * injection H as <- <-. cbn. repeat split; [exact Hgone | | lia].
        repeat constructor.
      * cbn in H. destruct (on_redirect c).
        -- injection H as <- <-. cbn. repeat split; [exact Hgone | | lia].
           repeat constructor.
        -- rewrite destroy_gone in H by exact Hgone.
           injection H as <- <-. cbn. auto.
  - unfold queue_turn in H.
    destruct (sending c); [injection H as <- <-; cbn; auto |].
    destruct (queue c) as [| t rest]; [injection H as <- <-; cbn; auto |].
    cbn in H. rewrite Hgone in H. injection H as <- <-. cbn. auto.
  - unfold record_settled in H.
    destruct (sending c) as [[record | r] |].
    + cbn in H. rewrite Hgone in H. injection H as <- <-. cbn. auto.
    + rewrite destroy_gone in H by exact Hgone. injection H as <- <-. cbn. auto.
    + injection H as <- <-. cbn. auto.
  - destruct (seif_connection c); injection H as <- <-; cbn; auto.
  - destruct (seif_connection c); injection H as <- <-; cbn; auto.
  - destruct (seif_connection c); [destruct (handshake_key c) |];
      injection H as <- <-; cbn; auto.
  - destruct (seif_connection c);
      [rewrite destroy_gone in H by exact Hgone |];
      injection H as <- <-; cbn; auto.
Qed.

(** X7.  A consumer that has been destroyed stays destroyed, and whatever
    happens next (chunks, settlements of promises, turns of the outgoing
    queue, calls of [send], [status_send], [redirect] and [close]) it sends
    nothing, closes nothing, delivers no message, calls [on_close] no more
    and settles no promise of [send].  The one thing it may still do is
    call [on_open] or [on_redirect], when the decryption of the session
    key or the import of the key of a redirection was in flight and
    resolves: their callbacks do not look at the transport connection. *)
Theorem destroyed_consumer_is_silent (c : consumer) (events : list event) :
  transport_connection c = false ->
  transport_connection (snd (run events c)) = false
  /\ Forall (fun a => straggler a = true) (fst (run events c))
  /\ (length (fst (run events c)) <= length (in_flight c))%nat.
Proof.
  intros Hgone.
  destruct (run events c) as [a c1] eqn:E. cbn [fst snd].
  assert (H : transport_connection c1 = false
              /\ Forall (fun x => straggler x = true) a
              /\ (length a + length (in_flight c1)
                  <= length (in_flight c))%nat).
  { refine (run_holds
              (fun c a c1 =>
                 transport_connection c = false ->
                 transport_connection c1 = false
                 /\ Forall (fun x => straggler x = true) a
                 /\ (length a + length (in_flight c1)
                     <= length (in_flight c))%nat)
              _ _ _ events c a c1 E Hgone).
    - intros c0 H0. cbn. auto.
    - intros c2 a1 c3 a2 c4 H1 H2 H0.
      destruct (H1 H0) as (H3 & H4 & H5).
      destruct (H2 H3) as (H6 & H7 & H8).
      split; [exact H6 |]. split; [now apply Forall_app |].
      rewrite length_app. lia.
    - intros e c0 a0 c2 Hstep H0. eapply step_gone; eassumption. }
  destruct H as (H1 & H2 & H3). repeat split; [exact H1 | exact H2 | lia].
Qed.

(** ** A message that cannot be sent *)

Lemma make_record_refused {St : Type} (identifier : list (string * json))
  (message : message_arg) (encrypt_buffer : encryptor St) (st : St)
  (m : string) :
  refused identifier message = Some m ->
  make_record identifier message encrypt_buffer st = (Throw m, st).
Proof.
  unfold refused, make_record. destruct message as [props | |].
  - destruct (record_parts identifier props) as [identifier1 blob_buffers].
    cbn [fst].
    destruct (byteLength _ >=? 2 ^ 16); [| discriminate].
    now intros [= <-].
  - now intros [= <-].
  - now intros [= <-].
Qed.

(** X8.  On an open connection whose outgoing queue is idle, [send] with a
    message that is not an object ("Bad message."), that is null
    (TypeError) or whose identifier reaches 2^16 bytes ("Identifier too
    big.") destroys the connection when the queue reaches it: the promises
    of the sends that wait for an acknowledgement and the promise of this
    one are rejected with the error, the transport connection is closed
    and [on_close] is called with the connection and the error.  Nothing
    has been encrypted and nothing is sent.  [status_send] does the same,
    without a promise of its own. *)
Theorem unsendable_message_destroys (c : consumer) (connection : nat)
  (message : message_arg) (m : string) :
  transport_connection c = true ->
  seif_connection c = Some connection ->
  sending c = None ->
  queue c = [] ->
  (refused [("type"%string, JString "Send")] message = Some m ->
   run [Call_send message; Queue_turn] c
   = (map (fun waiter => Reject waiter (VError m))
          (pending_acks c ++ [next_waiter c])
      ++ [Transport_close; On_close (Some connection) (VError m)],
      set_transport_connection
        (set_pending_acks
           (set_next_waiter c (S (next_waiter c)))
           (pending_acks c ++ [next_waiter c]))
        false))
  /\ (refused [("type"%string, JString "StatusSend")] message = Some m ->
      run [Call_status_send message; Queue_turn] c
      = (map (fun waiter => Reject waiter (VError m)) (pending_acks c)
         ++ [Transport_close; On_close (Some connection) (VError m)],
         set_transport_connection c false)).
Proof.
  intros Hopen Hconnection Hsending Hqueue. split; intros Hrefused.
  - cbn [run step]. rewrite Hconnection. unfold enqueue, queue_turn.
    cbn. rewrite Hsending, Hqueue. cbn. rewrite Hopen.
    rewrite (make_record_refused _ _ _ _ _ Hrefused).
    unfold destroy. cbn. rewrite Hopen, Hconnection.
    rewrite !app_nil_r. f_equal.
    destruct c; cbn in *; subst; reflexivity.
  - cbn [run step]. rewrite Hconnection. unfold enqueue, queue_turn.
    cbn. rewrite Hsending, Hqueue. cbn. rewrite Hopen.
    rewrite (make_record_refused _ _ _ _ _ Hrefused).
    unfold destroy. cbn. rewrite Hopen, Hconnection.
    rewrite !app_nil_r. f_equal.
    destruct c; cbn in *; subst; reflexivity.
Qed.

(** ** The version of the Hello *)


(** ** From [make_record] to [on_message] *)

Lemma blobs_view_entries (fields : jsobject) :
  blobs_view (map entry_of fields) = Ok (map info_of fields).
Proof.
  induction fields as [| [id v] fields IH]; [reflexivity |].
  cbn [map blobs_view]. unfold blob_view at 1, entry_of at 1. cbn.
  rewrite IH. reflexivity.
Qed.

Lemma identifier_view_made (type : string) (fields : jsobject) :
  identifier_view
    (JObject (set_property [("type"%string, JString type)] "blobs"
                           (JArray (map entry_of fields))))
  = Ok {| id_type := Some (JString type); id_blobs := map info_of fields |}.
Proof.
  unfold identifier_view. cbn. now rewrite blobs_view_entries.
Qed.

Lemma set_property_fresh {V : Type} (o : list (string * V)) (k : string)
  (v : V) :
  ~ In k (map fst o) -> set_property o k v = o ++ [(k, v)].
Proof.
  induction o as [| [k' v'] o IH]; intros Hfresh; [reflexivity |].
  cbn [set_property]. destruct (String.eqb k' k) eqn:E.
  - apply String.eqb_eq in E. exfalso. apply Hfresh. now left.
  - cbn [app]. rewrite IH; [reflexivity |].
    intros Hin. apply Hfresh. now right.
Qed.

Lemma build_message_fields (fields before : jsobject) :
  Forall (fun field => carried_faithfully (snd field)) fields ->
  NoDup (map fst (before ++ fields)) ->
  build_message (map info_of fields) (length before)
                (map plaintext_of (before ++ fields)) before
  = Ok (before ++ fields).
Proof.
  revert before. induction fields as [| [id v] fields IH];
    intros before Hcarried Hnodup.
  - cbn. now rewrite app_nil_r.
  - inversion Hcarried as [| ? ? Hv Hrest]; subst.
    cbn [map build_message]. unfold info_of at 1.
    cbn [blob_type blob_id fst snd].
    assert (Hnth : nth_error (map plaintext_of (before ++ (id, v) :: fields))
                             (length before)
                   = Some (plaintext_of (id, v))).
    { rewrite map_app, nth_error_app2 by (rewrite length_map; lia).
      rewrite length_map, Nat.sub_diag. reflexivity. }
    assert (Hfresh : ~ In id (map fst before)).
    { rewrite map_app in Hnodup. cbn [map fst] in Hnodup.
      apply NoDup_remove_2 in Hnodup. intros Hin. apply Hnodup.
      apply in_or_app. now left. }
    assert (Hnext : build_message (map info_of fields) (S (length before))
                      (map plaintext_of (before ++ (id, v) :: fields))
                      (before ++ [(id, v)])
                    = Ok (before ++ (id, v) :: fields)).
    { specialize (IH (before ++ [(id, v)])).
      rewrite <- app_assoc in IH. cbn [app] in IH.
      rewrite length_app in IH. cbn [length] in IH.
      rewrite Nat.add_1_r in IH. now apply IH. }
    destruct v as [| b | j | m]; cbn [snd carried_faithfully] in Hv;
      try contradiction.
    + cbn [is_raw_buffer has_type]. cbn. rewrite Hnth. cbn [bind].
      rewrite set_property_fresh by exact Hfresh. exact Hnext.
    + cbn [is_raw_buffer]. 
      replace (has_type (Some (JString "JSON")) "JSON") with true
        by reflexivity.
      rewrite (nth_error_nth _ _ _ Hnth).
      unfold plaintext_of at 1. cbn [snd]. rewrite Hv. cbn [bind].
      rewrite set_property_fresh by exact Hfresh. exact Hnext.
Qed.

Lemma incoming_idle (c : consumer) :
  buffer c = [] -> busy c = false -> identifier c = None ->
  identifier_length c = None -> blob_buffers c = [] -> in_flight c = [] ->
  c = incoming c [] false None None [] [] (next_decryption_iv (crypto c)).
Proof.
  intros. destruct c as [? ? ? ? ? [? ? ? ?] ? ? ? ? ? ? ? ? ? ? ? ?].
  cbn in *. subst. reflexivity.
Qed.

Lemma Promise_all_inv {A : Type} (ps : list (promise A)) (l : list A) :
  Promise_all ps = Resolved l -> ps = map Resolved l.
Proof.
  revert l. induction ps as [| [a | r] ps IH]; intros l H; cbn in H.
  - now injection H as <-.
  - destruct (Promise_all ps) as [l' | r]; [| discriminate].
    injection H as <-. cbn. f_equal. now apply IH.
  - discriminate.
Qed.

Lemma map_encrypt_with_cons (key : CryptoKey) (p : ArrayBuffer)
  (ps : list ArrayBuffer) (ct : ArrayBuffer) (cts : list ArrayBuffer)
  (st st1 : crypto_state) :
  map_encrypt (encrypt_with (Some key)) (p :: ps) st
  = (Ok (map Resolved (ct :: cts)), st1) ->
  exists (iv : ArrayBuffer) (st' : crypto_state),
    call_iv (next_encryption_iv st) = (Ok iv, next_encryption_iv st')
    /\ subtle_encrypt iv key p = Resolved ct
    /\ map_encrypt (encrypt_with (Some key)) ps st'
       = (Ok (map Resolved cts), st1).
Proof.
  cbn [map_encrypt map]. unfold encrypt_with at 1, draw_encryption_iv.
  destruct (call_iv (next_encryption_iv st)) as [[iv | m] g] eqn:Eiv;
    [| discriminate].
  unfold aes_encrypt.
  match goal with
  | |- context [map_encrypt _ ps ?s] => set (st' := s)
  end.
  destruct (map_encrypt (encrypt_with (Some key)) ps st')
    as [[promises | m] st2] eqn:E; [| discriminate].
  intros H. injection H as Hct Hcts <-.
  exists iv, st'. repeat split.
  - exact Hct.
  - now rewrite E, Hcts.
Qed.

Lemma map_encrypt_with_nil (key : CryptoKey) (cts : list ArrayBuffer)
  (st st1 : crypto_state) :
  map_encrypt (encrypt_with (Some key)) [] st = (Ok (map Resolved cts), st1) ->
  cts = [] /\ st1 = st.
Proof.
  cbn. intros H. injection H as H <-. destruct cts; [auto | discriminate].
Qed.

Lemma run_app (events1 events2 : list event) (c0 : consumer) :
  run (events1 ++ events2) c0
  = (let (a1, c1) := run events1 c0 in
     let (a2, c2) := run events2 c1 in
     (a1 ++ a2, c2)).
Proof.
  revert c0. induction events1 as [| e events1 IH]; intros c0.
  - cbn. now destruct (run events2 c0).
  - cbn [app run]. destruct (step e c0) as [a0 c1]. rewrite IH.
    destruct (run events1 c1) as [a1 c2].
    destruct (run events2 c2) as [a2 c3]. now rewrite app_assoc.
Qed.

Lemma get_property_absent (o : jsobject) (k : string) :
  ~ In k (map fst o) -> get_property o k = VUndefined.
Proof.
  induction o as [| [k' v] o IH]; intros H; [reflexivity |].
  cbn [get_property]. destruct (String.eqb k' k) eqn:E.
  - apply String.eqb_eq in E. exfalso. apply H. now left.
  - apply IH. intros Hin. apply H. now right.
Qed.

(** A field that is undefined reads as undefined once it is left out. *)
Lemma get_property_carried (props : jsobject) (k : string) :
  NoDup (map fst props) ->
  get_property (carried_fields props) k = get_property props k.
Proof.
  unfold carried_fields.
  induction props as [| [k' v] props IH]; intros H; [reflexivity |].
  inversion H as [| ? ? Hfresh Hrest]; subst.
  cbn [filter snd get_property].
  destruct (String.eqb k' k) eqn:E.
  - apply String.eqb_eq in E. subst k'.
    destruct v; cbn [is_undefined negb get_property];
      rewrite ?String.eqb_refl; try reflexivity.
    apply get_property_absent. intros Hin. apply Hfresh.
    apply in_map_iff in Hin. destruct Hin as (field & <- & Hin).
    apply filter_In in Hin. apply in_map. now destruct Hin.
  - destruct (negb (is_undefined v)); cbn [get_property]; rewrite ?E;
      now apply IH.
Qed.

Lemma slice_head (a b : ArrayBuffer) :
  slice (a ++ b) 0 (Some (byteLength a)) = a.
Proof.
  rewrite slice_prefix by (unfold byteLength; lia).
  unfold byteLength. rewrite Nat2Z.id, firstn_app, Nat.sub_diag, firstn_all.
  cbn [firstn]. apply app_nil_r.
Qed.

Lemma slice_tail (a b : ArrayBuffer) :
  slice (a ++ b) (byteLength a) None = b.
Proof.
  rewrite slice_suffix by (unfold byteLength; lia).
  unfold byteLength. rewrite Nat2Z.id, skipn_app, Nat.sub_diag, skipn_all.
  reflexivity.
Qed.

Lemma carried_fields_NoDup (props : jsobject) :
  NoDup (map fst props) -> NoDup (map fst (carried_fields props)).
Proof.
  unfold carried_fields. induction props as [| [k v] props IH]; intros H.
  - constructor.
  - inversion H as [| ? ? Hfresh Hrest]; subst. cbn [filter snd].
    destruct (negb (is_undefined v)); [| now apply IH].
    cbn [map fst]. constructor; [| now apply IH].
    intros Hin. apply Hfresh. apply in_map_iff in Hin.
    destruct Hin as (field & <- & Hin). apply filter_In in Hin.
    apply in_map. now destruct Hin.
Qed.

Lemma getUint16_length_field (n : Z) :
  0 <= n < 2 ^ 16 ->
  getUint16 [(ToUint16 n / 2 ^ 8) mod 256; ToUint16 n mod 256] = Ok n.
Proof.
  intros Hn. cbn [getUint16]. f_equal. unfold ToUint16.
  rewrite (Z.mod_small n (2 ^ 16)) by lia.
  change (2 ^ 8) with 256. change (2 ^ 16) with 65536 in Hn.
  generalize Hn. clear. intros Hn. Z.div_mod_to_equations. lia.
Qed.

(** Reduces the projections of a consumer that is spelled out. *)
Ltac fields :=
  cbn [incoming start enqueue
       set_transport_connection set_crypto open_session set_buffer set_busy
       set_identifier set_identifier_length set_blob_buffers set_queue
       set_sending set_pending_acks set_in_flight set_next_waiter
       connection_id private_key on_redirect handshake_key
       transport_connection crypto session_key seif_connection buffer busy
       identifier identifier_length blob_buffers queue sending pending_acks
       in_flight next_waiter
       next_encryption_iv next_decryption_iv rng encryptions].

Section Delivery.

Variable key : CryptoKey.
Variable c : consumer.

Hypothesis connected : transport_connection c = true.
Hypothesis in_session : session_key c = Some key.

Lemma in_session_not_clear (bytes : ArrayBuffer) (is_busy : bool)
  (id : option identifier_info) (id_length : option Z)
  (blobs : list ArrayBuffer) (ops : list operation) (g : iv_closure) :
  in_the_clear (incoming c bytes is_busy id id_length blobs ops g) = false.
Proof using in_session.
  unfold in_the_clear. cbn. now rewrite in_session.
Qed.

(** The length field and the identifier have arrived: the identifier is
    taken from the buffer and its decryption is started. *)
Lemma consume_starts_identifier (length_field ciphertext rest iv plaintext
  : ArrayBuffer) (g g1 : iv_closure) :
  length length_field = 2%nat ->
  getUint16 length_field = Ok (byteLength ciphertext) ->
  call_iv g = (Ok iv, g1) ->
  subtle_decrypt iv key ciphertext = Resolved plaintext ->
  consume (incoming c (length_field ++ ciphertext ++ rest) false None None
                    [] [] g)
  = ([], incoming c rest true None (Some (byteLength ciphertext)) []
                  [Decrypt_identifier (Resolved plaintext)] g1, Return).
Proof using connected in_session.
  intros Hlen Hfield Hiv Hdec.
  assert (Hbody : consume_body
                    (incoming c (length_field ++ ciphertext ++ rest) false
                              None None [] [] g)
                  = ([], incoming c rest true None
                                  (Some (byteLength ciphertext)) []
                                  [Decrypt_identifier (Resolved plaintext)] g1,
                     Return)).
  { unfold consume_body. fields. rewrite connected. cbn [negb orb].
    assert (H2 : (byteLength (length_field ++ ciphertext ++ rest) <? 2)
                 = false).
    { apply Z.ltb_ge. unfold byteLength. rewrite length_app. lia. }
    rewrite H2. unfold take at 1. fields.
    replace 2 with (byteLength length_field)
      by (unfold byteLength; rewrite Hlen; reflexivity).
    rewrite slice_head, slice_tail, Hfield. cbn [bind]. fields.
    assert (Hn : (byteLength (ciphertext ++ rest) <? byteLength ciphertext)
                 = false).
    { apply Z.ltb_ge. unfold byteLength. rewrite length_app. lia. }
    rewrite Hn. unfold in_the_clear. fields. rewrite in_session.
    unfold start_decrypt, take. fields. rewrite slice_head, slice_tail.
    unfold decrypt, draw_decryption_iv. fields. rewrite Hiv. fields.
    rewrite in_session. unfold aes_decrypt. rewrite Hdec. reflexivity. }
  unfold consume. now rewrite Hbody.
Qed.

(** The next blob has arrived: it is taken from the buffer and its
    decryption is started. *)
Lemma consume_starts_blob (id : identifier_info) (id_length : option Z)
  (before after : jsobject) (field : string * jsvalue)
  (ciphertext rest iv : ArrayBuffer) (g g1 : iv_closure) :
  id_blobs id = map info_of (before ++ field :: after) ->
  byteLength ciphertext = byteLength (plaintext_of field) + 16 ->
  call_iv g = (Ok iv, g1) ->
  subtle_decrypt iv key ciphertext = Resolved (plaintext_of field) ->
  consume (incoming c (ciphertext ++ rest) false (Some id) id_length
                    (map plaintext_of before) [] g)
  = ([], incoming c rest true (Some id) id_length (map plaintext_of before)
                  [Decrypt_blob (Resolved (plaintext_of field))] g1, Return).
Proof using connected in_session.
  intros Hblobs Hlen Hiv Hdec.
  assert (Hbody : consume_body
                    (incoming c (ciphertext ++ rest) false (Some id) id_length
                              (map plaintext_of before) [] g)
                  = ([], incoming c rest true (Some id) id_length
                                  (map plaintext_of before)
                                  [Decrypt_blob
                                     (Resolved (plaintext_of field))] g1,
                     Return)).
  { unfold consume_body. fields. rewrite connected. cbn [negb orb].
    rewrite Hblobs, length_map, map_app, nth_error_app2
      by (rewrite length_map; lia).
    rewrite length_map, Nat.sub_diag. cbn [map nth_error].
    unfold in_the_clear. fields. rewrite in_session.
    unfold info_of at 1 2. cbn [blob_length]. rewrite <- Hlen.
    assert (Hn : (byteLength (ciphertext ++ rest) <? byteLength ciphertext)
                 = false).
    { apply Z.ltb_ge. unfold byteLength. rewrite length_app. lia. }
    rewrite Hn. unfold start_decrypt, take. fields.
    rewrite slice_head, slice_tail.
    unfold decrypt, draw_decryption_iv. fields. rewrite Hiv. fields.
    rewrite in_session. unfold aes_decrypt. rewrite Hdec. reflexivity. }
  unfold consume. now rewrite Hbody.
Qed.


Hypothesis gcm :
  forall iv plaintext ciphertext : ArrayBuffer,
    subtle_encrypt iv key plaintext = Resolved ciphertext ->
    subtle_decrypt iv key ciphertext = Resolved plaintext
    /\ byteLength ciphertext = byteLength plaintext + 16.

Lemma map_encrypt_with_inv (p : ArrayBuffer) (ps cts : list ArrayBuffer)
  (st st1 : crypto_state) :
  map_encrypt (encrypt_with (Some key)) (p :: ps) st
  = (Ok (map Resolved cts), st1) ->
  exists (ct : ArrayBuffer) (cts' : list ArrayBuffer) (iv : ArrayBuffer)
         (st' : crypto_state),
    cts = ct :: cts'
    /\ call_iv (next_encryption_iv st) = (Ok iv, next_encryption_iv st')
    /\ subtle_encrypt iv key p = Resolved ct
    /\ map_encrypt (encrypt_with (Some key)) ps st'
       = (Ok (map Resolved cts'), st1).
Proof.
  intros H. destruct cts as [| ct cts'].
  - exfalso. cbn [map_encrypt map] in H.
    destruct (encrypt_with (Some key) p st) as [[? | ?] ?];
      [| discriminate].
    destruct (map_encrypt _ ps _) as [[? | ?] ?]; discriminate.
  - destruct (map_encrypt_with_cons key p ps ct cts' st st1 H)
      as (iv & st' & H1 & H2 & H3).
    exists ct, cts', iv, st'. auto.
Qed.

(** The blobs of a record of any type, one decryption after the other, up
    to the invocation of [consume] that finds them all. *)
Lemma blobs_decrypted (id : identifier_info) (id_length : option Z)
  (after before : jsobject) (cts : list ArrayBuffer)
  (st st1 : crypto_state) :
  id_blobs id = map info_of (before ++ after) ->
  map_encrypt (encrypt_with (Some key)) (map plaintext_of after) st
  = (Ok (map Resolved cts), st1) ->
  (let (a0, c0) :=
     caught (consume
               (incoming c (concat cts) false (Some id) id_length
                         (map plaintext_of before) []
                         (next_encryption_iv st))) in
   let (a1, c1) := run (repeat Settled (length after)) c0 in
   (a0 ++ a1, c1))
  = caught (consume
              (incoming c [] false (Some id) id_length
                        (map plaintext_of (before ++ after)) []
                        (next_encryption_iv st1))).
Proof using connected in_session gcm.
  revert before cts st.
  induction after as [| field after IH]; intros before cts st Hblobs H.
  - apply map_encrypt_with_nil in H. destruct H as [-> ->].
    rewrite app_nil_r. cbn [concat length repeat run].
    destruct (caught _) as [a0 c0]. now rewrite app_nil_r.
  - cbn [map] in H. apply map_encrypt_with_inv in H.
    destruct H as (ct & cts' & iv & st' & -> & Hiv & Henc & H).
    destruct (gcm _ _ _ Henc) as [Hdec Hlen].
    cbn [concat].
    rewrite (consume_starts_blob id id_length before after field ct
               (concat cts') iv _ _ Hblobs Hlen Hiv Hdec).
    specialize (IH (before ++ [field]) cts' st').
    rewrite <- app_assoc in IH. cbn [app] in IH.
    specialize (IH Hblobs H).
    rewrite (map_app plaintext_of) in IH. cbn [map] in IH.
    cbn [caught length repeat run].
    match type of IH with
    | context [caught (consume ?x)] =>
        match goal with
        | |- context [step Settled ?y] =>
            change (step Settled y) with (caught (consume x))
        end;
        destruct (caught (consume x)) as [a0 c0]
    end.
    destruct (run (repeat Settled (length after)) c0) as [a1 c1].
    exact IH.
Qed.

(** A record under the session key, given in one chunk, is decrypted
    piece by piece until [consume] finds the identifier and all the
    blobs. *)
Lemma record_is_decrypted (type : string) (props : jsobject)
  (st st1 : crypto_state) (record : ArrayBuffer) :
  let sent :=
    JObject (set_property [("type"%string, JString type)] "blobs"
               (JArray (map entry_of (carried_fields props)))) in
  decode_json (encode_json (VJson sent)) = Ok sent ->
  byteLength (encode_json (VJson sent)) < 65520 ->
  make_record [("type"%string, JString type)] (MObject props)
              (encrypt_with (Some key)) st
  = (Ok (Resolved record), st1) ->
  buffer c = [] -> busy c = false -> identifier c = None ->
  identifier_length c = None -> blob_buffers c = [] -> in_flight c = [] ->
  next_decryption_iv (crypto c) = next_encryption_iv st ->
  exists id_length : option Z,
    run (Chunk record :: repeat Settled (S (length (carried_fields props)))) c
    = caught (consume
                (incoming c [] false
                   (Some {| id_type := Some (JString type);
                            id_blobs := map info_of (carried_fields props) |})
                   id_length (map plaintext_of (carried_fields props)) []
                   (next_encryption_iv st1))).
Proof using connected in_session gcm.
  intros sent Hjson Hsize Hrecord Hbuffer Hbusy Hid Hlength Hblobs Hflight Hiv.
  unfold make_record in Hrecord. rewrite record_parts_spec in Hrecord.
  fold sent in Hrecord.
  destruct (byteLength (encode_json (VJson sent)) >=? 2 ^ 16) eqn:E;
    [lia | clear E].
  destruct (map_encrypt _ _ st) as [[promises | m] st2] eqn:Henc;
    [| discriminate].
  injection Hrecord as Hrecord <-.
  destruct (Promise_all promises) as [encrypted | r] eqn:Hall;
    [| discriminate].
  apply Promise_all_inv in Hall. subst promises. cbn [then_] in Hrecord.
  apply map_encrypt_with_inv in Henc.
  destruct Henc as (ct & cts & iv & st' & -> & Hdraw & Hfirst & Henc).
  rewrite assemble_record_spec in Hrecord. cbn [settle] in Hrecord.
  assert (Hbytes : [(ToUint16 (byteLength ct) / 2 ^ 8) mod 256;
                    ToUint16 (byteLength ct) mod 256] ++ ct ++ concat cts
                   = record) by congruence.
  clear Hrecord. subst record.
  destruct (gcm _ _ _ Hfirst) as [Hdec Hlen].
  exists (Some (byteLength ct)).
  cbn [run step].
  assert (Hstart : set_buffer c (concat_buffers (buffer c)
                     ([(ToUint16 (byteLength ct) / 2 ^ 8) mod 256;
                       ToUint16 (byteLength ct) mod 256]
                      ++ ct ++ concat cts))
                   = incoming c
                       ([(ToUint16 (byteLength ct) / 2 ^ 8) mod 256;
                         ToUint16 (byteLength ct) mod 256]
                        ++ ct ++ concat cts)
                       false None None [] [] (next_encryption_iv st)).
  { rewrite <- Hiv.
    rewrite (incoming_idle c Hbuffer Hbusy Hid Hlength Hblobs Hflight) at 1.
    rewrite Hbuffer. reflexivity. }
  rewrite Hstart.
  assert (Hfit : 0 <= byteLength ct < 2 ^ 16).
  { change (2 ^ 16) with 65536. rewrite Hlen.
    unfold byteLength in Hsize |- *. lia. }
  rewrite (consume_starts_identifier
             [(ToUint16 (byteLength ct) / 2 ^ 8) mod 256;
              ToUint16 (byteLength ct) mod 256]
             ct (concat cts) iv (encode_json (VJson sent))
             (next_encryption_iv st) (next_encryption_iv st') eq_refl
             (getUint16_length_field _ Hfit)
             Hdraw Hdec).
  cbn [escaped].
  cbn [repeat run step]. unfold settled. fields.
  unfold decode_identifier. rewrite Hjson. cbn [bind].
  unfold sent. rewrite identifier_view_made.
  pose proof (blobs_decrypted
                {| id_type := Some (JString type);
                   id_blobs := map info_of (carried_fields props) |}
                (Some (byteLength ct))
                (carried_fields props) [] cts st' st2 eq_refl Henc) as H.
  cbn [map app] in H.
  match type of H with
  | context [caught (consume ?x)] =>
      match goal with
      | |- context [caught (consume ?y)] => change y with x
      end;
      destruct (caught (consume x)) as [a0 c0]
  end.
  destruct (run (repeat Settled (length (carried_fields props))) c0)
    as [a1 c1].
  exact H.
Qed.


(** A Redirect is there with its blobs: the import of the public key
    starts. *)
Lemma consume_redirects (fields : jsobject) (id_length : option Z)
  (g : iv_closure) (raw : ArrayBuffer) :
  Forall (fun field => carried_faithfully (snd field)) fields ->
  NoDup (map fst fields) ->
  hex_decode (get_property fields "publicKey") = Ok raw ->
  consume (incoming c [] false
                    (Some {| id_type := Some (JString "Redirect");
                             id_blobs := map info_of fields |})
                    id_length (map plaintext_of fields) [] g)
  = ([], incoming c [] true None None []
                  [Import_redirect_key fields (import_public_key raw)] g,
     Return).
Proof using connected in_session.
  intros Hcarried Hnodup Hhex.
  assert (Hmessage := build_message_fields fields [] Hcarried Hnodup).
  cbn [length app] in Hmessage.
  unfold consume, consume_body. fields. rewrite connected.
  cbn [negb orb id_blobs]. rewrite !length_map.
  replace (nth_error (map info_of fields) (length fields)) with
    (@None blob_info)
    by (symmetry; apply nth_error_None; rewrite length_map; lia).
  unfold receive. fields. cbn [id_blobs id_type]. rewrite Hmessage.
  fields. rewrite in_session. cbn [has_type is_string String.eqb Ascii.eqb
                                   Bool.eqb andb].
  rewrite Hhex. reflexivity.
Qed.

(** X16.  A redirection arrives as it was made.  Take the record that
    the task of [redirect] builds under a session key from an address, a
    public key and the two optional values, and a consumer with the same
    session key that was given an [on_redirect], idle on its incoming
    side, whose decryption IV generator stands where the sender's
    encryption IV generator stood.  Where AES-GCM decrypts what it
    encrypted, the JSON values come back from their serialisation, the
    hexadecimal digits of the raw key decode to it and the raw key is
    imported, the consumer that is given the record in one chunk calls
    [on_redirect], once everything is decrypted and the key imported, with
    its connection, the address, the imported key and the two values, an
    undefined one being undefined; it calls nothing else and is idle
    again. *)
Theorem redirect_is_delivered (s s1 : consumer)
  (address permanent redirect_context : jsvalue)
  (public_key imported : CryptoKey) (raw record : ArrayBuffer) :
  let props :=
    [("address"%string, address);
     ("publicKey"%string, VJson (JString (hex_encode raw)));
     ("permanent"%string, permanent);
     ("redirectContext"%string, redirect_context)] in
  let sent :=
    JObject (set_property [("type"%string, JString "Redirect")] "blobs"
               (JArray (map entry_of (carried_fields props)))) in
  session_key s = Some key ->
  export_public_key public_key = Resolved raw ->
  run_task (Task_redirect address public_key permanent redirect_context) s
  = (Ok (Resolved record), s1) ->
  hex_decode (VJson (JString (hex_encode raw))) = Ok raw ->
  import_public_key raw = Resolved imported ->
  Forall (fun field => carried_faithfully (snd field)) (carried_fields props) ->
  decode_json (encode_json (VJson sent)) = Ok sent ->
  byteLength (encode_json (VJson sent)) < 65520 ->
  on_redirect c = true ->
  buffer c = [] -> busy c = false -> identifier c = None ->
  identifier_length c = None -> blob_buffers c = [] -> in_flight c = [] ->
  next_decryption_iv (crypto c) = next_encryption_iv (crypto s) ->
  run (Chunk record
       :: repeat Settled (S (length (carried_fields props))) ++ [Settled]) c
  = ([On_redirect (seif_connection c) address imported permanent
                  redirect_context],
     incoming c [] false None None [] []
              (next_encryption_iv (crypto s1))).
Proof using connected in_session gcm.
  intros props sent Hkey Hexport Htask Hhex Himport Hcarried Hjson Hsize
    Hredirect Hbuffer Hbusy Hid Hlength Hblobs Hflight Hiv.
  assert (Hnodup : NoDup (map fst props)).
  { cbn. repeat constructor; cbn; intuition discriminate. }
  unfold run_task in Htask. rewrite Hexport, Hkey in Htask.
  fold props in Htask.
  destruct (make_record _ (MObject props) _ (crypto s))
    as [[p | m] st1] eqn:Hrecord; cbn [flatten] in Htask;
    [| discriminate].
  injection Htask as -> <-. cbn [set_crypto crypto].
  destruct (record_is_decrypted "Redirect" props (crypto s) st1 record
              Hjson Hsize Hrecord Hbuffer Hbusy Hid Hlength Hblobs Hflight Hiv)
    as [id_length Hrun].
  change (Chunk record
          :: repeat Settled (S (length (carried_fields props))) ++ [Settled])
    with ((Chunk record :: repeat Settled (S (length (carried_fields props))))
          ++ [Settled]).
  rewrite run_app, Hrun.
  rewrite (consume_redirects (carried_fields props) id_length _ raw Hcarried
             (carried_fields_NoDup props Hnodup)).
  2: { rewrite (get_property_carried props "publicKey" Hnodup). exact Hhex. }
  cbn [caught run step]. unfold settled. fields.
  rewrite Himport. fields. rewrite Hredirect.
  rewrite !(get_property_carried props _ Hnodup). reflexivity.
Qed.

End Delivery.

(** ** A Hello without a handshake key *)



(** ** [on_close] is called once *)

Lemma closes_once_nothing (c : consumer) : closes_once c [] c.
Proof. left. cbn. auto. Qed.

Lemma closes_once_sequence (c1 c2 c3 : consumer) (a1 a2 : list action) :
  closes_once c1 a1 c2 -> closes_once c2 a2 c3 -> closes_once c1 (a1 ++ a2) c3.
Proof.
  unfold closes_once. rewrite filter_app, length_app.
  intros [[H1 H2] | (H1 & H2 & H3)] [[H4 H5] | (H4 & H5 & H6)].
  - left. rewrite H1, H4. auto.
  - right. rewrite H1, H4. cbn. repeat split; [| exact H6].
    destruct (transport_connection c1); [reflexivity |].
    rewrite H2 in H5; [discriminate | reflexivity].
  - right. rewrite H1, H4. cbn. auto.
  - congruence.
Qed.

Lemma rejections_close_nothing (reason : jsvalue) (waiters : list nat) :
  filter is_on_close (map (fun pending => Reject pending reason) waiters) = [].
Proof. induction waiters as [| w rest IH]; [reflexivity | exact IH]. Qed.

Lemma destroy_closes_once (reason : jsvalue) (situation_option : option bool)
  (c c1 : consumer) (a : list action) :
  destroy reason situation_option c = (a, c1) -> closes_once c a c1.
Proof.
  unfold destroy. intros H. destruct (transport_connection c) eqn:E.
  - injection H as <- <-. unfold closes_once.
    rewrite !filter_app, rejections_close_nothing.
    destruct situation_option as [[|] |]; cbn; auto.
  - injection H as <- <-. left. auto.
Qed.

Lemma closes_once_from (c c0 c1 : consumer) (a : list action) :
  transport_connection c0 = transport_connection c ->
  closes_once c0 a c1 -> closes_once c a c1.
Proof. unfold closes_once. intros ->. auto. Qed.

(** The invocation ended in [destroy]. *)
Ltac closed_once :=
  eapply closes_once_from;
  [| eapply destroy_closes_once; eassumption]; reflexivity.

(** The invocation took no action and left the transport connection as it
    was. *)
Ltac quiet :=
  left; split; [reflexivity | cbn; intros; assumption].

Lemma receive_closes_once (c c1 : consumer) (a : list action) (f : flow) :
  receive c = (a, c1, f) -> closes_once c a c1.
Proof.
  intros H. unfold receive in H.
  break_result H;
    first [closed_once | quiet].
Qed.

Lemma start_decrypt_closes_once (n : Z) (k : promise ArrayBuffer -> operation)
  (c c1 : consumer) (a : list action) (f : flow) :
  start_decrypt n k c = (a, c1, f) -> closes_once c a c1.
Proof.
  intros H. unfold start_decrypt, take in H.
  break_result H; decrypted; quiet.
Qed.

Lemma consume_body_closes_once (c c1 : consumer) (a : list action) (f : flow) :
  consume_body c = (a, c1, f) -> closes_once c a c1.
Proof.
  intros H. unfold consume_body in H. unfold take, bind in H.
  break_result H;
    first [ eapply receive_closes_once; eassumption
          | eapply closes_once_from;
            [| eapply start_decrypt_closes_once; eassumption]; reflexivity
          | closed_once
          | quiet
          | idtac ].
Qed.

Lemma consume_closes_once (c c1 : consumer) (a : list action) (f : flow) :
  consume c = (a, c1, f) -> closes_once c a c1.
Proof.
  intros H.
  refine (consume_holds closes_once closes_once_nothing _ _ c a c1 f H).
  - intros. eapply closes_once_sequence; eassumption.
  - intros. eapply consume_body_closes_once. eassumption.
Qed.

Lemma caught_closes_once (r : list action * consumer * flow) (c c1 : consumer)
  (a : list action) :
  (forall a0 c0 f, r = (a0, c0, f) -> closes_once c a0 c0) ->
  caught r = (a, c1) -> closes_once c a c1.
Proof.
  intros Hr H. destruct r as [[a0 c0] f]. specialize (Hr a0 c0 f eq_refl).
  unfold caught in H. destruct f; try (injection H as <- <-; exact Hr).
  destruct (destroy (VError exception) None c0) as [a1 c2] eqn:E.
  injection H as <- <-.
  eapply closes_once_sequence; [exact Hr |].
  eapply destroy_closes_once. exact E.
Qed.

Lemma escaped_closes_once (r : list action * consumer * flow) (c c1 : consumer)
  (a : list action) :
  (forall a0 c0 f, r = (a0, c0, f) -> closes_once c a0 c0) ->
  escaped r = (a, c1) -> closes_once c a c1.
Proof.
  intros Hr H. destruct r as [[a0 c0] f]. specialize (Hr a0 c0 f eq_refl).
  unfold escaped in H. destruct f; injection H as <- <-; try exact Hr.
  rewrite <- (app_nil_r a0) in Hr.
  unfold closes_once in *. rewrite !filter_app in *. cbn. exact Hr.
Qed.

Lemma settled_closes_once (c c1 : consumer) (a : list action) :
  settled c = (a, c1) -> closes_once c a c1.
Proof.
  intros H. unfold settled in H.
  destruct (in_flight c) as [| op rest] eqn:Eops;
    [injection H as <- <-; apply closes_once_nothing |].
  destruct op as [[b | r] | [b | r] | m [res | r] | [k | r] | m [k | r]];
    try (eapply closes_once_from; [| eapply destroy_closes_once; exact H];
         reflexivity).
  - destruct (decode_identifier b) as [id | m].
    + eapply closes_once_from; [| eapply caught_closes_once; [| exact H]].
      * reflexivity.
      * intros a2 c2 f E. eapply closes_once_from;
          [| eapply consume_closes_once; exact E]. reflexivity.
    + eapply closes_once_from; [| eapply destroy_closes_once; exact H].
      reflexivity.
  - eapply closes_once_from; [| eapply caught_closes_once; [| exact H]].
    + reflexivity.
    + intros a2 c2 f E. eapply closes_once_from;
        [| eapply consume_closes_once; exact E]. reflexivity.
  - cbn in H. destruct (transport_connection c) eqn:Et;
      injection H as <- <-; quiet.
  - injection H as <- <-. quiet.
  - cbn in H. destruct (on_redirect c).
    + injection H as <- <-. quiet.
    + eapply closes_once_from; [| eapply destroy_closes_once; exact H].
      reflexivity.
Qed.

Lemma run_task_transport (t : task) (c : consumer) :
  transport_connection (snd (run_task t c)) = transport_connection c.
Proof.
  destruct (run_task_state t c) as [st ->]. reflexivity.
Qed.

Lemma queue_turn_closes_once (c c1 : consumer) (a : list action) :
  queue_turn c = (a, c1) -> closes_once c a c1.
Proof.
  intros H. unfold queue_turn in H.
  destruct (sending c); [injection H as <- <-; apply closes_once_nothing |].
  destruct (queue c) as [| t rest];
    [injection H as <- <-; apply closes_once_nothing |].
  destruct (transport_connection (set_queue c rest)) eqn:Et;
    [| injection H as <- <-; quiet].
  pose proof (run_task_transport t (set_queue c rest)) as Hsame.
  destruct (run_task t (set_queue c rest)) as [[p | m] c2]; cbn [snd] in Hsame.
  - injection H as <- <-. left. split; [reflexivity |].
    cbn in Hsame |- *. congruence.
  - eapply closes_once_from; [| eapply destroy_closes_once; exact H].
    exact Hsame.
Qed.

Lemma record_settled_closes_once (c c1 : consumer) (a : list action) :
  record_settled c = (a, c1) -> closes_once c a c1.
Proof.
  intros H. unfold record_settled in H.
  destruct (sending c) as [[record | r] |].
  - destruct (transport_connection (set_sending c None));
      injection H as <- <-; quiet.
  - eapply closes_once_from; [| eapply destroy_closes_once; exact H].
    reflexivity.
  - injection H as <- <-. apply closes_once_nothing.
Qed.

Lemma step_closes_once (e : event) (c c1 : consumer) (a : list action) :
  step e c = (a, c1) -> closes_once c a c1.
Proof.
  intros H. destruct e; cbn [step] in H.
  - eapply closes_once_from; [| eapply escaped_closes_once; [| exact H]].
    + reflexivity.
    + intros a2 c2 f E. eapply closes_once_from;
        [| eapply consume_closes_once; exact E]. reflexivity.
  - eapply destroy_closes_once. exact H.
  - apply settled_closes_once. exact H.
  - apply queue_turn_closes_once. exact H.
  - apply record_settled_closes_once. exact H.
  - destruct (seif_connection c); injection H as <- <-; quiet.
  - destruct (seif_connection c); injection H as <- <-; quiet.
  - destruct (seif_connection c); [destruct (handshake_key c) |];
      injection H as <- <-; quiet.
  - destruct (seif_connection c);
      [eapply destroy_closes_once; exact H |].
    injection H as <- <-. quiet.
Qed.

(** ** [listen]: the map and the calls of [on_close] *)

Lemma Map_get_In (m : list (nat * nat)) (k v : nat) :
  Map_get m k = Some v -> In (k, v) m.
Proof.
  unfold Map_get. intros H.
  destruct (find (fun entry => Nat.eqb (fst entry) k) m) as [[k0 v0] |] eqn:E;
    [| discriminate].
  injection H as <-. apply find_some in E as [Hin Hk].
  apply Nat.eqb_eq in Hk. cbn in Hk. now subst k0.
Qed.

Lemma In_Map_set (m : list (nat * nat)) (k v k1 v1 : nat) :
  In (k1, v1) (Map_set m k v) -> (k1, v1) = (k, v) \/ In (k1, v1) m.
Proof.
  induction m as [| [k0 v0] rest IH]; cbn.
  - intros [H | []]. now left.
  - destruct (Nat.eqb k0 k); cbn.
    + intros [H | H]; auto.
    + intros [H | H]; auto. destruct (IH H); auto.
Qed.

Lemma In_Map_delete (m : list (nat * nat)) (k k1 v1 : nat) :
  In (k1, v1) (Map_delete m k) <-> In (k1, v1) m /\ k1 <> k.
Proof.
  unfold Map_delete. rewrite filter_In. cbn.
  rewrite negb_true_iff, Nat.eqb_neq. reflexivity.
Qed.

Lemma nth_error_set_nth {A : Type} (l : list A) (n k : nat) (x : A) :
  nth_error (set_nth l n x) k
  = if Nat.eqb k n
    then match nth_error l k with Some _ => Some x | None => None end
    else nth_error l k.
Proof.
  revert n k. induction l as [| y rest IH]; intros n k.
  - cbn. destruct k; destruct (Nat.eqb _ n); reflexivity.
  - destruct n as [| n]; destruct k as [| k]; cbn; try reflexivity.
    apply IH.
Qed.

Lemma length_set_nth {A : Type} (l : list A) (n : nat) (x : A) :
  length (set_nth l n x) = length l.
Proof.
  revert n. induction l as [| y rest IH]; intros n; [reflexivity |].
  destruct n; cbn; [reflexivity | now rewrite IH].
Qed.

Lemma closes_of_app (nr : nat) (out1 out2 : list listen_action) :
  closes_of nr (out1 ++ out2) = (closes_of nr out1 + closes_of nr out2)%nat.
Proof. unfold closes_of. now rewrite filter_app, length_app. Qed.

Lemma closes_of_consumer (nr n : nat) (a : list action) :
  closes_of nr (map (Listen_of n) a)
  = if Nat.eqb n nr then length (filter is_on_close a) else 0%nat.
Proof.
  unfold closes_of. induction a as [| x rest IH]; cbn.
  - now destruct (Nat.eqb n nr).
  - destruct x; cbn; try exact IH.
    destruct (Nat.eqb n nr); cbn; [now rewrite IH | exact IH].
Qed.

Lemma existsb_is_on_close (a : list action) :
  existsb is_on_close a = negb (Nat.eqb (length (filter is_on_close a)) 0).
Proof.
  induction a as [| x rest IH]; [reflexivity |].
  cbn. destruct (is_on_close x); [reflexivity | exact IH].
Qed.

Lemma acted_listening (out : list listen_action) (l : listener) (t nr : nat)
  (c c1 : consumer) (a : list action) :
  listening out l ->
  nth_error (consumers l) nr = Some (t, c) ->
  closes_once c a c1 ->
  listening (out ++ fst (consumer_acted t nr a c1 l))
            (snd (consumer_acted t nr a c1 l)).
Proof.
  intros (Hmap & Hone & Hclosed & Hnone) Hnth Hstep.
  unfold consumer_acted. cbn [fst snd].
  assert (Hsub : forall t1 n,
             In (t1, n) (if existsb is_on_close a
                         then Map_delete (consumer_map l) t
                         else consumer_map l) ->
             In (t1, n) (consumer_map l)).
  { intros t1 n. destruct (existsb is_on_close a); [| auto].
    intros H. now apply In_Map_delete in H. }
  assert (Hnr : (nr < length (consumers l))%nat)
    by (apply nth_error_Some; congruence).
  repeat split.
  - intros t1 n Hin. apply Hsub in Hin. destruct (Hmap _ _ Hin) as [c0 Hc0].
    cbn. rewrite nth_error_set_nth. destruct (Nat.eqb_spec n nr) as [-> | Hn].
    + rewrite Hnth in Hc0 |- *. injection Hc0 as -> ->. now exists c1.
    + now exists c0.
  - intros n. rewrite closes_of_app, closes_of_consumer.
    specialize (Hone n). destruct (Nat.eqb_spec nr n) as [<- | Hn]; [| lia].
    destruct Hstep as [[H0 _] | (H1 & Ht & _)].
    + rewrite H0. cbn. lia.
    + rewrite H1. destruct (closes_of nr out) as [| [| k]] eqn:E; [lia | | lia].
      destruct (Hclosed nr t c E Hnth). congruence.
  - cbn in H0. rewrite nth_error_set_nth in H0.
    rewrite closes_of_app, closes_of_consumer in H.
    destruct (Nat.eqb_spec nr0 nr) as [-> | Hn].
    + rewrite Hnth in H0. injection H0 as <- <-. rewrite Nat.eqb_refl in H.
      destruct Hstep as [[H0 Hkeep] | (H1 & Ht & Hgone)]; [| exact Hgone].
      rewrite H0 in H. cbn in H. rewrite Nat.add_0_r in H.
      destruct (Hclosed nr t c H Hnth). auto.
    + rewrite (proj2 (Nat.eqb_neq nr nr0)) in H by auto.
      rewrite Nat.add_0_r in H. now destruct (Hclosed nr0 t0 c0 H H0).
  - cbn. intros Hin. cbn in H0. rewrite nth_error_set_nth in H0.
    rewrite closes_of_app, closes_of_consumer in H.
    destruct (Nat.eqb_spec nr0 nr) as [-> | Hn].
    + rewrite Hnth in H0. injection H0 as <- <-. rewrite Nat.eqb_refl in H.
      destruct Hstep as [[H0 Hkeep] | (H1 & Ht & Hgone)].
      * rewrite H0 in H. cbn in H. rewrite Nat.add_0_r in H.
        destruct (Hclosed nr t c H Hnth) as [_ Hnot]. apply Hnot, Hsub, Hin.
      * rewrite existsb_is_on_close, H1 in Hin. cbn in Hin.
        apply In_Map_delete in Hin. now destruct Hin.
    + rewrite (proj2 (Nat.eqb_neq nr nr0)) in H by auto.
      rewrite Nat.add_0_r in H.
      destruct (Hclosed nr0 t0 c0 H H0) as [_ Hnot]. apply Hnot, Hsub, Hin.
  - intros n Hlen. cbn in Hlen. rewrite length_set_nth in Hlen.
    rewrite closes_of_app, closes_of_consumer, Hnone by exact Hlen.
    destruct (Nat.eqb_spec nr n); [lia | reflexivity].
Qed.

Lemma within_listening (out out1 : list listen_action) (l l1 : listener)
  (nr : nat) (e : event) :
  within_consumer nr e l = (out1, l1) ->
  listening out l -> listening (out ++ out1) l1.
Proof.
  unfold within_consumer. intros H Hl.
  destruct (nth_error (consumers l) nr) as [[t c] |] eqn:Hnth.
  - destruct (step e c) as [a c1] eqn:Hstep.
    apply step_closes_once in Hstep.
    pose proof (acted_listening out l t nr c c1 a Hl Hnth Hstep) as Hacted.
    now rewrite H in Hacted.
  - injection H as <- <-. now rewrite app_nil_r.
Qed.

Lemma stop_each_listening (reason : jsvalue) (entries : list (nat * nat))
  (out out1 : list listen_action) (l l1 : listener) :
  stop_each reason entries l = (out1, l1) ->
  listening out l -> listening (out ++ out1) l1.
Proof.
  revert out out1 l.
  induction entries as [| [t nr] rest IH]; intros out out1 l H Hl.
  - injection H as <- <-. now rewrite app_nil_r.
  - cbn [stop_each] in H.
    destruct (within_consumer nr (Transport_closed reason) l)
      as [out2 l2] eqn:E2.
    destruct (stop_each reason rest l2) as [out3 l3] eqn:E3.
    injection H as <- <-. rewrite app_assoc.
    eapply IH; [exact E3 |]. eapply within_listening; eassumption.
Qed.

(** [on_transport_close]: the consumer is told, the entry is deleted and
    [on_close] is called. *)
Lemma transport_closes_listening (out out1 : list listen_action)
  (l l1 : listener) (t nr : nat) (reason : jsvalue) (connection : option nat) :
  In (t, nr) (consumer_map l) ->
  within_consumer nr (Transport_closed reason) l = (out1, l1) ->
  listening out l ->
  listening ((out ++ out1) ++ [Listen_of nr (On_close connection reason)])
            {| listen_keypair := listen_keypair l1;
               consumers := consumers l1;
               consumer_map := Map_delete (consumer_map l1) t |}.
Proof.
  intros Hin H Hl.
  pose proof Hl as (Hmap & Hone & Hclosed & Hnone).
  destruct (Hmap t nr Hin) as [c Hnth].
  assert (Hfresh : closes_of nr out = 0%nat).
  { specialize (Hone nr).
    destruct (closes_of nr out) as [| [| k]] eqn:E; [reflexivity | | lia].
    now destruct (Hclosed nr t c E Hnth). }
  unfold within_consumer in H. rewrite Hnth in H. cbn [step] in H.
  unfold destroy in H.
  assert (Hquiet : forall waiters,
             existsb is_on_close
               (map (fun pending => Reject pending reason) waiters ++ [] ++ [])
             = false).
  { intros waiters. rewrite existsb_is_on_close, !filter_app.
    now rewrite rejections_close_nothing. }
  assert (Hcount : forall waiters,
             closes_of nr
               (map (Listen_of nr)
                  (map (fun pending => Reject pending reason) waiters
                   ++ [] ++ []))
             = 0%nat).
  { intros waiters. rewrite closes_of_consumer, Nat.eqb_refl, !filter_app.
    now rewrite rejections_close_nothing. }
  assert (Hlisten :
            forall a c1,
              existsb is_on_close a = false ->
              closes_of nr (map (Listen_of nr) a) = 0%nat ->
              transport_connection c1 = false ->
              (out1, l1) = consumer_acted t nr a c1 l ->
              listening
                ((out ++ out1) ++ [Listen_of nr (On_close connection reason)])
                {| listen_keypair := listen_keypair l1;
                   consumers := consumers l1;
                   consumer_map := Map_delete (consumer_map l1) t |}).
  { intros a c1 Ha Hzero Hgone E. unfold consumer_acted in E. rewrite Ha in E.
    injection E as -> ->. unfold listening.
    cbn [consumers consumer_map listen_keypair].
    assert (Hnr : (nr < length (consumers l))%nat)
      by (apply nth_error_Some; congruence).
    split; [| split; [| split]].
    - intros t1 n Hin1. apply In_Map_delete in Hin1 as [Hin1 _].
      destruct (Hmap _ _ Hin1) as [c0 Hc0]. rewrite nth_error_set_nth.
      destruct (Nat.eqb_spec n nr) as [-> | Hn]; [| now exists c0].
      rewrite Hnth in Hc0 |- *. injection Hc0 as -> ->. now exists c1.
    - intros n. rewrite !closes_of_app. specialize (Hone n).
      unfold closes_of at 3. cbn.
      destruct (Nat.eqb_spec nr n) as [<- | Hn].
      + rewrite Hfresh, Hzero. cbn. lia.
      + rewrite closes_of_consumer, (proj2 (Nat.eqb_neq nr n)) by exact Hn.
        cbn. lia.
    - intros n t1 c0 Hn1 Hc0. rewrite nth_error_set_nth in Hc0.
      rewrite !closes_of_app in Hn1. unfold closes_of at 3 in Hn1.
      cbn in Hn1. rewrite In_Map_delete.
      destruct (Nat.eqb_spec n nr) as [-> | Hn].
      + rewrite Hnth in Hc0. injection Hc0 as <- <-. split; [exact Hgone |].
        now intros [_ Hne].
      + rewrite closes_of_consumer in Hn1.
        rewrite (proj2 (Nat.eqb_neq nr n)) in Hn1 by auto.
        cbn in Hn1. rewrite !Nat.add_0_r in Hn1.
        destruct (Hclosed n t1 c0 Hn1 Hc0) as [Hf Hnot].
        split; [exact Hf |]. now intros [Hin1 _].
    - intros n Hlen. rewrite length_set_nth in Hlen.
      rewrite !closes_of_app, closes_of_consumer, Hnone by exact Hlen.
      unfold closes_of. cbn.
      destruct (Nat.eqb_spec nr n); [lia | reflexivity]. }
  destruct (transport_connection c) eqn:Et.
  - eapply Hlisten; [apply Hquiet | apply Hcount | | symmetry; exact H].
    reflexivity.
  - eapply (Hlisten [] c); [reflexivity | | exact Et | symmetry; exact H].
    rewrite closes_of_consumer, Nat.eqb_refl. reflexivity.
Qed.

Lemma listen_step_listening (e : listen_event) (out out1 : list listen_action)
  (l l1 : listener) :
  listen_step e l = (out1, l1) ->
  listening out l -> listening (out ++ out1) l1.
Proof.
  intros H Hl. destruct e as [t r | t chunk | t reason | nr e | reason];
    cbn [listen_step] in H.
  - injection H as <- <-. rewrite app_nil_r.
    destruct Hl as (Hmap & Hone & Hclosed & Hnone). unfold listening.
    cbn [consumers consumer_map].
    split; [| split; [exact Hone | split]].
    + intros t1 n Hin. apply In_Map_set in Hin as [Hin | Hin].
      * injection Hin as -> ->. rewrite nth_error_app2, Nat.sub_diag by lia.
        cbn. eauto.
      * destruct (Hmap _ _ Hin) as [c Hc]. exists c.
        rewrite nth_error_app1; [exact Hc |].
        apply nth_error_Some. congruence.
    + intros n t1 c Hn Hc.
      assert (Hlt : (n < length (consumers l))%nat).
      { destruct (Nat.lt_ge_cases n (length (consumers l))) as [Hlt | Hge];
          [exact Hlt |].
        rewrite (Hnone n Hge) in Hn. discriminate. }
      rewrite nth_error_app1 in Hc by exact Hlt.
      destruct (Hclosed n t1 c Hn Hc) as [Hgone Hnot].
      split; [exact Hgone |]. intros Hin.
      apply In_Map_set in Hin as [Hin | Hin]; [| auto].
      injection Hin as -> ->. lia.
    + intros n Hlen. rewrite length_app in Hlen. cbn in Hlen.
      apply Hnone. lia.
  - destruct (Map_get (consumer_map l) t) as [nr |].
    + eapply within_listening; eassumption.
    + injection H as <- <-. now rewrite app_nil_r.
  - destruct (Map_get (consumer_map l) t) as [nr |] eqn:Hget.
    + destruct (within_consumer nr (Transport_closed reason) l)
        as [out2 l2] eqn:E2.
      injection H as <- <-. rewrite app_assoc.
      eapply transport_closes_listening; [| exact E2 | exact Hl].
      apply Map_get_In. exact Hget.
    + injection H as <- <-. now rewrite app_nil_r.
  - destruct e;
      try (eapply within_listening; eassumption);
      injection H as <- <-; now rewrite app_nil_r.
  - destruct (stop_each reason (consumer_map l) l) as [out2 l2] eqn:E2.
    injection H as <- <-.
    pose proof (stop_each_listening _ _ out _ _ _ E2 Hl)
      as (Hmap & Hone & Hclosed & Hnone).
    unfold listening. cbn [consumers consumer_map].
    assert (Hsame : forall n,
               closes_of n (out ++ Stop_transport :: out2)
               = closes_of n (out ++ out2)).
    { intros n. now rewrite !closes_of_app. }
    split; [intros t n [] | split; [| split]].
    + intros n. rewrite Hsame. apply Hone.
    + intros n t c Hn Hc. rewrite Hsame in Hn.
      destruct (Hclosed n t c Hn Hc). auto.
    + intros n Hlen. rewrite Hsame. now apply Hnone.
Qed.

Lemma listen_run_listening (events : list listen_event)
  (out out1 : list listen_action) (l l1 : listener) :
  listen_run events l = (out1, l1) ->
  listening out l -> listening (out ++ out1) l1.
Proof.
  revert out out1 l. induction events as [| e rest IH];
    intros out out1 l H Hl.
  - injection H as <- <-. now rewrite app_nil_r.
  - cbn [listen_run] in H.
    destruct (listen_step e l) as [out2 l2] eqn:E2.
    destruct (listen_run rest l2) as [out3 l3] eqn:E3.
    injection H as <- <-. rewrite app_assoc.
    eapply IH; [exact E3 |]. eapply listen_step_listening; eassumption.
Qed.

(** X12.  Whatever happens to a listener (transport connections open,
    receive chunks and close, promises settle, the holders of connection
    objects call them, [stop] is called), the caller's [on_close] is called
    at most once for each consumer, that is for each transport connection
    that was opened: the consumer that calls [on_close] has lost its
    transport connection and is deleted from the map, and the listener calls
    [on_close] itself only for a consumer it finds in the map. *)
Theorem listen_closes_once (pair : CryptoKeyPair) (address : jsvalue)
  (events : list listen_event) (nr : nat) :
  (closes_of nr (fst (listen_run events (snd (listen pair address)))) <= 1)%nat.
Proof.
  destruct (listen_run events (snd (listen pair address))) as [out l] eqn:E.
  assert (H : listening ([] ++ out) l).
  { eapply listen_run_listening; [exact E |].
    unfold listening, listen. cbn.
    repeat split; try reflexivity; try lia; intros; contradiction. }
  destruct H as (_ & Hone & _). apply Hone.
Qed.

(** ** [listen]: after [stop] *)





























(** ** The handshake *)

Section Handshake.

(** The keys of the two parties, and the value the initiator sends. *)
Variables initiator_keys receiver_keys : CryptoKeyPair.
Variable value : option json.

(** What makes the keys pairs: ECIES with the private key undoes ECIES
    with the public key (see [ecies_decrypt_encrypt] for when it does). *)
Hypothesis ecies_receiver :
  forall (plaintext ciphertext : ArrayBuffer) (r r1 : entropy),
    ecies_encrypt plaintext (publicKey receiver_keys) r
    = (Resolved ciphertext, r1) ->
    ecies_decrypt (VArrayBuffer ciphertext) (privateKey receiver_keys)
    = Ok (Resolved plaintext).

Hypothesis ecies_initiator :
  forall (plaintext ciphertext : ArrayBuffer) (r r1 : entropy),
    ecies_encrypt plaintext (publicKey initiator_keys) r
    = (Resolved ciphertext, r1) ->
    ecies_decrypt (VArrayBuffer ciphertext) (privateKey initiator_keys)
    = Ok (Resolved plaintext).

(** AES-GCM decrypts what it encrypted. *)
Hypothesis gcm :
  forall (iv : ArrayBuffer) (key : CryptoKey) (plaintext ciphertext : ArrayBuffer),
    subtle_encrypt iv key plaintext = Resolved ciphertext ->
    subtle_decrypt iv key ciphertext = Resolved plaintext.

(** A generated AES key is imported from its raw export, and so is the
    initiator's public key. *)
Hypothesis raw_aes :
  forall (r r1 : entropy) (key : CryptoKey) (buffer : ArrayBuffer),
    subtle_generateKey_AES r = (Resolved key, r1) ->
    subtle_exportKey Raw key = Resolved buffer ->
    subtle_importKey Raw buffer AES_GCM = Resolved key.

Hypothesis raw_public :
  forall buffer : ArrayBuffer,
    export_public_key (publicKey initiator_keys) = Resolved buffer ->
    import_public_key buffer = Resolved (publicKey initiator_keys).

(** The hello data comes back from its JSON text, and the raw public key
    from its hexadecimal digits. *)
Hypothesis hello_data_parses :
  forall buffer : ArrayBuffer,
    export_public_key (publicKey initiator_keys) = Resolved buffer ->
    decode_json
      (encode_json
         (VJson (JObject (("initiatorPublicKey"%string,
                           JString (hex_encode buffer))
                          :: optional_property "value" value))))
    = Ok (JObject (("initiatorPublicKey"%string, JString (hex_encode buffer))
                   :: optional_property "value" value))
    /\ hex_decode (VJson (JString (hex_encode buffer))) = Ok buffer.

(** The two buffers that [hello] encrypts and the key it generates. *)
Lemma hello_parts (encryption_iv : ArrayBuffer) (connection_info : jsvalue)
  (st st1 : crypto_state) (r : hello_result) :
  hello (publicKey initiator_keys) (publicKey receiver_keys) encryption_iv
        connection_info value st
  = (Resolved r, st1) ->
  exists (public_key_buffer handshake_key_buffer : ArrayBuffer)
         (encrypted_handshake_key encrypted_hello_data : ArrayBuffer)
         (e e1 e2 : entropy),
    subtle_generateKey_AES e = (Resolved (hello_handshake_key r), e1)
    /\ export_public_key (publicKey initiator_keys) = Resolved public_key_buffer
    /\ subtle_exportKey Raw (hello_handshake_key r)
       = Resolved handshake_key_buffer
    /\ ecies_encrypt handshake_key_buffer (publicKey receiver_keys) e1
       = (Resolved encrypted_handshake_key, e2)
    /\ subtle_encrypt encryption_iv (hello_handshake_key r)
         (encode_json
            (VJson (JObject (("initiatorPublicKey"%string,
                              JString (hex_encode public_key_buffer))
                             :: optional_property "value" value))))
       = Resolved encrypted_hello_data
    /\ fst (make_record
              [("type"%string, JString "Hello")]
              (MObject [("version"%string, VJson (JNumber 0));
                        ("handshakeKey"%string,
                         VArrayBuffer encrypted_handshake_key);
                        ("helloData"%string,
                         VArrayBuffer encrypted_hello_data);
                        ("connectionInfo"%string, connection_info)])
              identity_encrypt tt)
       = Ok (Resolved (hello_record r)).
Proof using Type.
  clear ecies_receiver ecies_initiator gcm raw_aes raw_public
    hello_data_parses.
  intros H. unfold hello, async_then, lift, aes_generate_key in H.
  destruct (subtle_generateKey_AES (rng st)) as [[hk | ?] e1] eqn:Eg;
    cbn [Promise_all2] in H.
  2: { destruct (export_public_key (publicKey initiator_keys)); discriminate. }
  destruct (export_public_key (publicKey initiator_keys)) as [pkb | ?] eqn:Ep;
    [| discriminate].
  unfold export_public_key at 1 in H.
  destruct (subtle_exportKey Raw hk) as [hkb | ?] eqn:Eh.
  2: { cbn in H. discriminate. }
  unfold elliptic_encrypt, aes_encrypt in H. cbn [with_rng rng] in H.
  destruct (ecies_encrypt hkb (publicKey receiver_keys) e1)
    as [[ek | ?] e2] eqn:Ee; cbn [Promise_all2] in H.
  2: { discriminate. }
  destruct (subtle_encrypt encryption_iv hk _) as [ed | ?] eqn:Ed;
    [| discriminate].
  destruct (make_record _ _ identity_encrypt tt) as [[[record | ?] | ?] []] eqn:Er;
    cbn [fst flatten] in H; try discriminate.
  injection H as <- <-. cbn [hello_handshake_key hello_record].
  exists pkb, hkb, ek, ed, (rng st), e1, e2.
  repeat split; try assumption. now rewrite Er.
Qed.

Lemma hello_value_parsed (key : string) :
  json_property
    (JObject (("initiatorPublicKey"%string, JString key)
              :: optional_property "value" value)) "value"
  = Ok value.
Proof using Type.
  clear. destruct value; reflexivity.
Qed.

(** What [auth_hello] makes of the two buffers. *)
Lemma auth_hello_parts (hello_message : jsobject)
  (handshake_key : CryptoKey)
  (public_key_buffer handshake_key_buffer : ArrayBuffer)
  (encrypted_handshake_key encrypted_hello_data encryption_iv : ArrayBuffer)
  (e e1 e2 : entropy) (st st1 : crypto_state) (r : auth_hello_result) :
  subtle_generateKey_AES e = (Resolved handshake_key, e1) ->
  export_public_key (publicKey initiator_keys) = Resolved public_key_buffer ->
  subtle_exportKey Raw handshake_key = Resolved handshake_key_buffer ->
  ecies_encrypt handshake_key_buffer (publicKey receiver_keys) e1
  = (Resolved encrypted_handshake_key, e2) ->
  subtle_encrypt encryption_iv handshake_key
    (encode_json
       (VJson (JObject (("initiatorPublicKey"%string,
                         JString (hex_encode public_key_buffer))
                        :: optional_property "value" value))))
  = Resolved encrypted_hello_data ->
  is_zero (get_property hello_message "version") = true ->
  get_property hello_message "handshakeKey"
  = VArrayBuffer encrypted_handshake_key ->
  get_property hello_message "helloData" = VArrayBuffer encrypted_hello_data ->
  fst (draw_decryption_iv st) = Ok encryption_iv ->
  auth_hello hello_message (privateKey receiver_keys) st
  = (Ok (Resolved r), st1) ->
  auth_initiator_public_key r = publicKey initiator_keys
  /\ auth_hello_value r = value
  /\ exists (encrypted_session_key : ArrayBuffer) (st2 : crypto_state),
       next_encryption_iv st2 = next_encryption_iv st
       /\ make_record
            [("type"%string, JString "AuthHello")]
            (MObject [("sessionKey"%string,
                       VArrayBuffer encrypted_session_key)])
            (encrypt_with (Some handshake_key)) st2
          = (Ok (Resolved (auth_hello_record r)), st1)
       /\ exists decrypted : promise ArrayBuffer,
            ecies_decrypt (VArrayBuffer encrypted_session_key)
                          (privateKey initiator_keys)
            = Ok decrypted
            /\ then_ decrypted aes_import_key = Resolved (auth_session_key r).
Proof using ecies_receiver ecies_initiator gcm raw_aes raw_public
  hello_data_parses.
  intros Hgen Hpub Hraw Hkey Hdata Hversion Hfield1 Hfield2 Hiv H.
  unfold auth_hello in H. rewrite Hversion, Hfield1 in H. cbn [negb] in H.
  rewrite (ecies_receiver _ _ _ _ Hkey) in H.
  unfold async_then, lift, aes_import_key in H.
  rewrite (raw_aes _ _ _ _ Hgen Hraw) in H.
  destruct (draw_decryption_iv st) as [[iv | ?] st2] eqn:Ed;
    cbn [fst] in Hiv; [| discriminate].
  injection Hiv as ->.
  rewrite Hfield2 in H. unfold aes_decrypt_value, aes_decrypt in H.
  rewrite (gcm _ _ _ _ Hdata) in H.
  destruct (hello_data_parses _ Hpub) as [Hparse Hhex].
  rewrite Hparse in H. cbn [bind] in H.
  rewrite hello_value_parsed in H.
  cbn [json_property find fst snd String.eqb Ascii.eqb Bool.eqb settle bind] in H.
  unfold aes_generate_key in H.
  destruct (subtle_generateKey_AES (rng st2)) as [[sk | ?] e3] eqn:Eg.
  2: { cbn in H. injection H as H _. discriminate. }
  cbn [optional_value] in H. rewrite Hhex in H. cbn [settle then_] in H.
  rewrite (raw_public _ Hpub) in H. cbn [Promise_all2] in H.
  unfold export_public_key at 1 in H.
  destruct (subtle_exportKey Raw sk) as [skb | ?] eqn:Es.
  2: { cbn in H. injection H as H _. discriminate. }
  unfold elliptic_encrypt in H. cbn [with_rng rng] in H.
  destruct (ecies_encrypt skb (publicKey initiator_keys) e3)
    as [[esk | ?] e4] eqn:Ee.
  2: { cbn in H. injection H as H _. discriminate. }
  destruct (make_record [("type"%string, JString "AuthHello")]
              (MObject [("sessionKey"%string, VArrayBuffer esk)])
              (encrypt_with (Some handshake_key))
              (with_rng (with_rng st2 e3) e4))
    as [[[record | ?] | ?] st3] eqn:Er; cbn [flatten] in H;
    try (injection H as H _; discriminate).
  injection H as <- <-.
  cbn [auth_initiator_public_key auth_hello_value auth_hello_record
       auth_session_key].
  split; [reflexivity | split; [reflexivity |]].
  exists esk, (with_rng (with_rng st2 e3) e4).
  split; [| split; [exact Er |]].
  - unfold draw_decryption_iv in Ed.
    destruct (call_iv (next_decryption_iv st)). injection Ed as _ <-.
    reflexivity.
  - exists (Resolved skb). split; [exact (ecies_initiator _ _ _ _ Ee) |].
    cbn [then_]. unfold aes_import_key. exact (raw_aes _ _ _ _ Eg Es).
Qed.

(** X14.  The handshake agrees.  When [hello] resolves, the Hello record
    is the record of a message with version 0, the handshake key under
    ECIES for the receiver and the hello data under the handshake key.
    Whenever [auth_hello], given a message with these three fields, the
    receiver's private key and the initiator's first IV as its next
    decryption IV, resolves, it has recovered the initiator's public key
    and the hello value; the AuthHello record is the record of a message
    whose one field, sessionKey, is encrypted with the handshake key that
    [hello] generated; and what the initiator does with that field (ECIES
    with its private key, then the import as an AES key) resolves to the
    session key that [auth_hello] returns. *)
Theorem handshake_agrees (encryption_iv : ArrayBuffer)
  (connection_info : jsvalue) (st st1 : crypto_state) (r : hello_result) :
  hello (publicKey initiator_keys) (publicKey receiver_keys) encryption_iv
        connection_info value st
  = (Resolved r, st1) ->
  exists encrypted_handshake_key encrypted_hello_data : ArrayBuffer,
    fst (make_record
           [("type"%string, JString "Hello")]
           (MObject [("version"%string, VJson (JNumber 0));
                     ("handshakeKey"%string,
                      VArrayBuffer encrypted_handshake_key);
                     ("helloData"%string, VArrayBuffer encrypted_hello_data);
                     ("connectionInfo"%string, connection_info)])
           identity_encrypt tt)
    = Ok (Resolved (hello_record r))
    /\ forall (hello_message : jsobject) (st2 st3 : crypto_state)
              (a : auth_hello_result),
         is_zero (get_property hello_message "version") = true ->
         get_property hello_message "handshakeKey"
         = VArrayBuffer encrypted_handshake_key ->
         get_property hello_message "helloData"
         = VArrayBuffer encrypted_hello_data ->
         fst (draw_decryption_iv st2) = Ok encryption_iv ->
         auth_hello hello_message (privateKey receiver_keys) st2
         = (Ok (Resolved a), st3) ->
         auth_initiator_public_key a = publicKey initiator_keys
         /\ auth_hello_value a = value
         /\ exists (encrypted_session_key : ArrayBuffer) (st4 : crypto_state),
              next_encryption_iv st4 = next_encryption_iv st2
              /\ make_record
                   [("type"%string, JString "AuthHello")]
                   (MObject [("sessionKey"%string,
                              VArrayBuffer encrypted_session_key)])
                   (encrypt_with (Some (hello_handshake_key r))) st4
                 = (Ok (Resolved (auth_hello_record a)), st3)
              /\ exists decrypted : promise ArrayBuffer,
                   ecies_decrypt (VArrayBuffer encrypted_session_key)
                                 (privateKey initiator_keys)
                   = Ok decrypted
                   /\ then_ decrypted aes_import_key
                      = Resolved (auth_session_key a).
Proof using ecies_receiver ecies_initiator gcm raw_aes raw_public
  hello_data_parses.
  intros H.
  destruct (hello_parts _ _ _ _ _ H)
    as (pkb & hkb & ek & ed & e & e1 & e2 & Hgen & Hpub & Hraw & Hkey & Hdata
        & Hrecord).
  exists ek, ed. split; [exact Hrecord |].
  intros hello_message st2 st3 a Hversion Hfield1 Hfield2 Hiv Hauth.
  eapply auth_hello_parts; eassumption.
Qed.

End Handshake.

(** ** The first record, in the clear *)

Section Clear.

Variable c : consumer.

Hypothesis connected : transport_connection c = true.
Hypothesis no_session : session_key c = None.
Hypothesis no_handshake : handshake_key c = None.





End Clear.


(** ** The connections of a listening party *)

Lemma Map_get_set_same (m : list (nat * nat)) (k v : nat) :
  Map_get (Map_set m k v) k = Some v.
Proof.
  unfold Map_get. induction m as [| [k0 v0] rest IH]; cbn.
  - now rewrite Nat.eqb_refl.
  - destruct (Nat.eqb k0 k) eqn:E; cbn.
    + now rewrite Nat.eqb_refl.
    + now rewrite E.
Qed.

Lemma Map_get_set_other (m : list (nat * nat)) (k v k1 : nat) :
  k1 <> k -> Map_get (Map_set m k v) k1 = Map_get m k1.
Proof.
  intros Hk. unfold Map_get. induction m as [| [k0 v0] rest IH]; cbn.
  - destruct (Nat.eqb_spec k k1); [congruence | reflexivity].
  - destruct (Nat.eqb_spec k0 k) as [-> | Hk0]; cbn.
    + destruct (Nat.eqb_spec k k1); [congruence | reflexivity].
    + destruct (Nat.eqb k0 k1); [reflexivity | exact IH].
Qed.

Lemma length_Map_set_fresh (m : list (nat * nat)) (k v : nat) :
  Map_get m k = None -> length (Map_set m k v) = S (length m).
Proof.
  unfold Map_get. induction m as [| [k0 v0] rest IH]; cbn; [reflexivity |].
  destruct (Nat.eqb k0 k); cbn; [discriminate |].
  intros H. now rewrite IH.
Qed.

Lemma swizzle_one_to_one (protocol_connection : option nat)
  (m : list (nat * nat)) :
  one_to_one m ->
  one_to_one (snd (swizzle protocol_connection m))
  /\ (forall p c, Map_get m p = Some c ->
        Map_get (snd (swizzle protocol_connection m)) p = Some c)
  /\ fst (swizzle protocol_connection m)
     = match protocol_connection with
       | Some p => Map_get (snd (swizzle protocol_connection m)) p
       | None => None
       end
  /\ (forall p, protocol_connection = Some p ->
        Map_get (snd (swizzle protocol_connection m)) p <> None).
Proof.
  intros [Hbound Hinj]. unfold swizzle.
  destruct protocol_connection as [p |]; cbn [fst snd].
  - destruct (Map_get m p) as [c |] eqn:E; cbn [fst snd].
    + refine (conj (conj Hbound Hinj) (conj (fun _ _ H => H) (conj _ _))).
      * now rewrite E.
      * intros p0 H. injection H as <-. now rewrite E.
    + refine (conj (conj _ _) (conj _ (conj _ _))).
      * intros p0 c H. rewrite length_Map_set_fresh by exact E.
        destruct (Nat.eq_dec p0 p) as [-> | Hp].
        -- rewrite Map_get_set_same in H. injection H as <-. lia.
        -- rewrite Map_get_set_other in H by exact Hp.
           apply Hbound in H. lia.
      * intros p0 q c Hp Hq.
        destruct (Nat.eq_dec p0 p) as [-> | Hp0];
          destruct (Nat.eq_dec q p) as [-> | Hq0]; [reflexivity | | |].
        -- rewrite Map_get_set_same in Hp. injection Hp as <-.
           rewrite Map_get_set_other in Hq by exact Hq0.
           apply Hbound in Hq. lia.
        -- rewrite Map_get_set_same in Hq. injection Hq as <-.
           rewrite Map_get_set_other in Hp by exact Hp0.
           apply Hbound in Hp. lia.
        -- rewrite Map_get_set_other in Hp, Hq by assumption.
           exact (Hinj _ _ _ Hp Hq).
      * intros p0 c H. rewrite Map_get_set_other; [exact H |].
        intros ->. congruence.
      * now rewrite Map_get_set_same.
      * intros p0 H. injection H as <-. now rewrite Map_get_set_same.
  - refine (conj (conj Hbound Hinj) (conj (fun _ _ H => H) (conj eq_refl _))).
    discriminate.
Qed.

Lemma swizzled_one_to_one (calls : list (option nat)) (m : list (nat * nat)) :
  one_to_one m ->
  one_to_one (snd (swizzled calls m))
  /\ (forall p c, Map_get m p = Some c ->
        Map_get (snd (swizzled calls m)) p = Some c)
  /\ fst (swizzled calls m)
     = map (fun protocol_connection =>
              match protocol_connection with
              | Some p => Map_get (snd (swizzled calls m)) p
              | None => None
              end) calls
  /\ (forall p, In (Some p) calls ->
        Map_get (snd (swizzled calls m)) p <> None).
Proof.
  revert m. induction calls as [| call rest IH]; intros m Hm; cbn [swizzled].
  - cbn. refine (conj Hm (conj (fun _ _ H => H) (conj eq_refl _))).
    intros p [].
  - destruct (swizzle_one_to_one call m Hm) as (Hm1 & Hkept & Hfst & Hset).
    destruct (swizzle call m) as [connection m1] eqn:E1. cbn [fst snd] in *.
    destruct (IH m1 Hm1) as (Hm2 & Hkept2 & Hfst2 & Hset2).
    destruct (swizzled rest m1) as [connections m2] eqn:E2. cbn [fst snd] in *.
    refine (conj Hm2 (conj _ (conj _ _))).
    + intros p c H. apply Hkept2, Hkept, H.
    + cbn [map]. f_equal; [| exact Hfst2].
      rewrite Hfst. destruct call as [p |]; [| reflexivity].
      destruct (Map_get m1 p) as [c |] eqn:Ec; [| now destruct (Hset p)].
      symmetry. now apply Hkept2.
    + intros p [-> | Hin]; [| now apply Hset2].
      destruct (Map_get m1 p) as [c |] eqn:Ec; [| now destruct (Hset p)].
      rewrite (Hkept2 _ _ Ec). discriminate.
Qed.

(** X17.  The connections that the callbacks of a listening party are
    called with are the protocol's, renamed one to one: two calls get the
    same connection of the party exactly when the protocol made them with
    the same connection, and [undefined] stays [undefined]. *)
Theorem swizzle_is_one_to_one (calls : list (option nat)) :
  exists connection_of : nat -> nat,
    (forall p q : nat,
       In (Some p) calls -> In (Some q) calls ->
       connection_of p = connection_of q -> p = q)
    /\ fst (swizzled calls []) = map (option_map connection_of) calls.
Proof.
  assert (Hempty : one_to_one []) by (split; intros; discriminate).
  destruct (swizzled_one_to_one calls [] Hempty)
    as ((_ & Hinj) & _ & Hfst & Hset).
  exists (fun p => match Map_get (snd (swizzled calls [])) p with
                   | Some c => c
                   | None => O
                   end).
  split.
  - intros p q Hp Hq H.
    apply Hset in Hp, Hq.
    destruct (Map_get (snd (swizzled calls [])) p) as [c |] eqn:Ep;
      [| congruence].
    destruct (Map_get (snd (swizzled calls [])) q) as [d |] eqn:Eq;
      [| congruence].
    subst d. exact (Hinj _ _ _ Ep Eq).
  - rewrite Hfst. apply map_ext_in. intros [p |] Hin; [| reflexivity].
    cbn [option_map]. apply Hset in Hin.
    destruct (Map_get (snd (swizzled calls [])) p); congruence.
Qed.

(** ** The life of [connect] of a party *)

(** Once [on_close] is undefined and the protocol is not to be closed,
    nothing is left but the aftermath. *)
Lemma party_step_over (petname : string) (e : party_event)
  (s : party_connection) :
  protocol_close s = false -> caller_on_close s = false ->
  forallb is_aftermath (fst (party_step petname e s)) = true
  /\ protocol_close (snd (party_step petname e s)) = false
  /\ caller_on_close (snd (party_step petname e s)) = false.
Proof.
  intros Hp Hc.
  destruct e as [p | connection reason redirection | reason | reason];
    cbn [party_step]; unfold party_destroy; cbn [protocol_close caller_on_close].
  - destruct p as [[keys acquaintance] | reason];
      rewrite ?Hp, ?Hc; cbn; auto.
  - rewrite Hc.
    destruct redirection as [[[[address public_key] permanent] context] |];
      cbn; [destruct (truthy permanent); cbn |]; auto.
  - rewrite Hp, Hc. cbn. auto.
  - rewrite Hp. cbn. auto.
Qed.

Lemma party_run_over (petname : string) (events : list party_event)
  (s : party_connection) :
  protocol_close s = false -> caller_on_close s = false ->
  forallb is_aftermath (fst (party_run petname events s)) = true.
Proof.
  revert s. induction events as [| e rest IH]; intros s Hp Hc;
    cbn [party_run]; [reflexivity |].
  destruct (party_step_over petname e s Hp Hc) as (Hout & Hp1 & Hc1).
  destruct (party_step petname e s) as [out s1]. cbn [fst snd] in *.
  specialize (IH s1 Hp1 Hc1).
  destruct (party_run petname rest s1) as [out2 s2]. cbn [fst snd] in *.
  rewrite forallb_app, Hout, IH. reflexivity.
Qed.

(** X18.  [close] is final: whatever happened to [connect] of a party
    before, a call of [close] closes the protocol's connection if there is
    one, with the reason given, and does not call [on_close]; and whatever
    happens afterwards, the caller's [on_close] is not called, the
    [connect] and the [close] of the protocol are not called: the store is
    still updated for a permanent redirection, and the [on_close] given to
    the protocol throws. *)
Theorem party_close_is_final (petname : string)
  (before after : list party_event) (reason : jsvalue) :
  exists aftermath : list party_call,
    fst (party_run petname (Close_called reason :: after)
           (snd (party_run petname before party_connecting)))
    = (if protocol_close (snd (party_run petname before party_connecting))
       then [Protocol_close reason]
       else [])
      ++ aftermath
    /\ forallb is_aftermath aftermath = true.
Proof.
  set (s := snd (party_run petname before party_connecting)).
  cbn [party_run party_step]. unfold party_destroy.
  cbn [protocol_close caller_on_close]. rewrite app_nil_r.
  pose proof (party_run_over petname after
                {| protocol_close := false; caller_on_close := false |}
                eq_refl eq_refl) as H.
  destruct (party_run petname after
              {| protocol_close := false; caller_on_close := false |})
    as [out s2].
  cbn [fst snd] in *. now exists out.
Qed.

(** X19.  A party does not connect to a petname its store does not know:
    where the keypair is there (read from the store, or generated and
    written to it) and the store has no acquaintance of the petname,
    [on_close] is called once, with no connection and the error that names
    the petname, and the [connect] of the protocol is not called, whatever
    happens afterwards. *)
Theorem party_unknown_petname (petname : string)
  (autogenerate_keypair : bool) (read_keypair : promise (option CryptoKeyPair))
  (write_keypair : CryptoKeyPair -> promise unit) (r : entropy)
  (keys : CryptoKeyPair) (after : list party_event) :
  fst (get_keypair autogenerate_keypair read_keypair write_keypair r)
  = Resolved keys ->
  exists aftermath : list party_call,
    fst (party_run petname
           (Prepared (party_prepare autogenerate_keypair read_keypair
                        write_keypair r petname (Resolved None)) :: after)
           party_connecting)
    = Of_party (Caller_on_close None
                  (VError (String.append "Not acquainted with "
                                         (String.append petname "."))))
      :: aftermath
    /\ forallb is_aftermath aftermath = true.
Proof.
  pose proof (party_run_over petname after
                {| protocol_close := false; caller_on_close := false |}
                eq_refl eq_refl) as H.
  intros Hkeys. unfold party_prepare. rewrite Hkeys.
  cbn [get_acquaintance then_ Promise_all2 party_run party_step].
  unfold party_destroy, party_connecting.
  cbn [protocol_close caller_on_close app].
  destruct (party_run petname after
              {| protocol_close := false; caller_on_close := false |})
    as [out s2].
  cbn [fst snd app] in *. now exists out.
Qed.

(** X20.  A party without a keypair does not connect, unless it is to
    generate one: where the store has no keypair and
    [autogenerate_keypair] is false, and the store has the acquaintance,
    [on_close] is called once, with no connection and the error of the
    missing keypair; no keypair is generated (no randomness is drawn),
    and the [connect] of the protocol is not called, whatever happens
    afterwards. *)
Theorem party_missing_keypair (petname : string)
  (write_keypair : CryptoKeyPair -> promise unit) (r : entropy)
  (acquaintance : Acquaintance) (after : list party_event) :
  get_keypair false (Resolved None) write_keypair r
  = (Rejected (VError "Missing keypair."), r)
  /\ exists aftermath : list party_call,
       fst (party_run petname
              (Prepared (party_prepare false (Resolved None) write_keypair r
                           petname (Resolved (Some acquaintance))) :: after)
              party_connecting)
       = Of_party (Caller_on_close None (VError "Missing keypair."))
         :: aftermath
       /\ forallb is_aftermath aftermath = true.
Proof.
  pose proof (party_run_over petname after
                {| protocol_close := false; caller_on_close := false |}
                eq_refl eq_refl) as H.
  split; [reflexivity |]. unfold party_prepare.
  cbn [get_keypair negb fst get_acquaintance then_ Promise_all2 party_run
       party_step].
  unfold party_destroy, party_connecting.
  cbn [protocol_close caller_on_close app].
  destruct (party_run petname after
              {| protocol_close := false; caller_on_close := false |})
    as [out s2].
  cbn [fst snd app] in *. now exists out.
Qed.

(** ** The life of [listen] of a party *)

Lemma listening_step_over (e : listening_event) (s : party_listener) :
  protocol_stop s = false -> listener_on_close s = false ->
  forallb is_passed_on (fst (listening_step e s)) = true
  /\ protocol_stop (snd (listening_step e s)) = false
  /\ listener_on_close (snd (listening_step e s)) = false.
Proof.
  intros Hp Hc.
  destruct e as [p | callback protocol_connection
                 | protocol_connection petname read_acquaintance permanent
                     redirect_context
                 | reason];
    cbn [listening_step]; unfold listener_destroy;
    cbn [protocol_stop listener_on_close].
  - destruct p as [keys | reason]; rewrite ?Hp, ?Hc; cbn; auto.
  - destruct (swizzle protocol_connection (connection_weakmap s)); cbn; auto.
  - destruct (get_acquaintance petname read_acquaintance);
      rewrite ?Hp, ?Hc; cbn; auto.
  - rewrite Hp. cbn. auto.
Qed.

Lemma listening_run_over (events : list listening_event)
  (s : party_listener) :
  protocol_stop s = false -> listener_on_close s = false ->
  forallb is_passed_on (fst (listening_run events s)) = true.
Proof.
  revert s. induction events as [| e rest IH]; intros s Hp Hc;
    cbn [listening_run]; [reflexivity |].
  destruct (listening_step_over e s Hp Hc) as (Hout & Hp1 & Hc1).
  destruct (listening_step e s) as [out s1]. cbn [fst snd] in *.
  specialize (IH s1 Hp1 Hc1).
  destruct (listening_run rest s1) as [out2 s2]. cbn [fst snd] in *.
  rewrite forallb_app, Hout, IH. reflexivity.
Qed.

(** X21.  A redirection to a petname that the store does not know stops
    the listening party: where it listens, the function that the [listen]
    of the protocol returned is called with the error that names the
    petname, then the caller's [on_close] with no connection and that
    error; the connection is not redirected.  Whatever happens afterwards,
    the party does not listen, stop or report again: it passes on what the
    protocol calls, and the redirections to acquaintances. *)
Theorem unknown_redirection_stops (s : party_listener)
  (protocol_connection : nat) (petname : string)
  (permanent redirect_context : jsvalue) (after : list listening_event) :
  protocol_stop s = true -> listener_on_close s = true ->
  exists passed_on : list listening_call,
    fst (listening_run
           (Redirect_called protocol_connection petname (Resolved None)
              permanent redirect_context :: after) s)
    = Protocol_stop (VError (String.append "Not acquainted with "
                                           (String.append petname ".")))
      :: On_close_undefined
           (VError (String.append "Not acquainted with "
                                  (String.append petname ".")))
      :: passed_on
    /\ forallb is_passed_on passed_on = true.
Proof.
  intros Hp Hc.
  cbn [listening_run listening_step get_acquaintance then_].
  unfold listener_destroy. rewrite Hp, Hc. cbn [app].
  pose proof (listening_run_over after
                {| protocol_stop := false; listener_on_close := false;
                   connection_weakmap := connection_weakmap s |}
                eq_refl eq_refl) as H.
  destruct (listening_run after
              {| protocol_stop := false; listener_on_close := false;
                 connection_weakmap := connection_weakmap s |})
    as [out s2].
  cbn [fst snd app] in *. now exists out.
Qed.

Lemma swizzle_kept (protocol_connection : option nat) (m : list (nat * nat))
  (p c : nat) :
  Map_get m p = Some c ->
  Map_get (snd (swizzle protocol_connection m)) p = Some c
  /\ (protocol_connection = Some p ->
      fst (swizzle protocol_connection m) = Some c).
Proof.
  intros H. unfold swizzle. destruct protocol_connection as [q |]; cbn.
  - destruct (Map_get m q) as [d |] eqn:E; cbn.
    + split; [exact H |]. intros Hq. injection Hq as ->. congruence.
    + split.
      * rewrite Map_get_set_other; [exact H |]. intros ->. congruence.
      * intros Hq. injection Hq as ->. congruence.
  - split; [exact H | discriminate].
Qed.

Lemma listening_run_kept (events : list listening_event) (s : party_listener)
  (p c : nat) (callback : callback_name) :
  Map_get (connection_weakmap s) p = Some c ->
  In (Protocol_calls callback (Some p)) events ->
  In (Swizzled callback (Some c)) (fst (listening_run events s)).
Proof.
  revert s. induction events as [| e rest IH]; intros s Hs Hin; [destruct Hin |].
  cbn [listening_run].
  assert (Hkept : Map_get (connection_weakmap (snd (listening_step e s))) p
                  = Some c).
  { destruct e as [[keys | reason] | named protocol_connection
                   | protocol_connection petname read_acquaintance permanent
                       redirect_context
                   | reason];
      cbn [listening_step]; unfold listener_destroy.
    - now destruct (negb (listener_on_close s)).
    - exact Hs.
    - destruct (swizzle_kept protocol_connection (connection_weakmap s) p c Hs)
        as [H _].
      now destruct (swizzle protocol_connection (connection_weakmap s)).
    - now destruct (get_acquaintance petname read_acquaintance).
    - exact Hs. }
  destruct Hin as [-> | Hin].
  - cbn [listening_step].
    destruct (swizzle_kept (Some p) (connection_weakmap s) p c Hs)
      as [_ H]. specialize (H eq_refl).
    destruct (swizzle (Some p) (connection_weakmap s)) as [connection m].
    cbn [fst] in H. subst connection.
    destruct (listening_run rest _) as [out2 s2]. cbn. now left.
  - specialize (IH _ Hkept Hin).
    destruct (listening_step e s) as [out s1]. cbn [snd] in IH.
    destruct (listening_run rest s1) as [out2 s2]. cbn [fst] in *.
    apply in_or_app. now right.
Qed.

(** X22.  [stop] is final: whatever happened to [listen] of a party
    before, a call of [stop] calls the function that the [listen] of the
    protocol returned, if the party listens, with the reason given, and
    does not call [on_close] itself; and whatever happens afterwards, the
    party does not listen, stop or report.  The callbacks are still called
    when the protocol calls them: an [on_close] of the protocol for a
    connection reaches the caller's [on_close], with the connection of the
    party made for it before. *)
Theorem party_stop_is_final (before after : list listening_event)
  (reason : jsvalue) :
  exists passed_on : list listening_call,
    fst (listening_run (Stop_called reason :: after)
           (snd (listening_run before party_listening)))
    = (if protocol_stop (snd (listening_run before party_listening))
       then [Protocol_stop reason]
       else [])
      ++ passed_on
    /\ forallb is_passed_on passed_on = true
    /\ forall p c : nat,
         Map_get (connection_weakmap
                    (snd (listening_run before party_listening))) p
         = Some c ->
         In (Protocol_calls Named_on_close (Some p)) after ->
         In (Swizzled Named_on_close (Some c)) passed_on.
Proof.
  set (s := snd (listening_run before party_listening)).
  cbn [listening_run listening_step]. unfold listener_destroy.
  cbn [protocol_stop listener_on_close connection_weakmap].
  rewrite app_nil_r.
  pose proof (listening_run_over after
                {| protocol_stop := false; listener_on_close := false;
                   connection_weakmap := connection_weakmap s |}
                eq_refl eq_refl) as H.
  pose proof (fun p c => listening_run_kept after
                {| protocol_stop := false; listener_on_close := false;
                   connection_weakmap := connection_weakmap s |}
                p c Named_on_close) as Hkept.
  destruct (listening_run after
              {| protocol_stop := false; listener_on_close := false;
                 connection_weakmap := connection_weakmap s |})
    as [out s2].
  cbn [fst snd connection_weakmap] in *. exists out. auto.
Qed.

End Engine.

(** * Instances *)

Lemma iv_generator_nth_call_witness :
  (1 = 0 \/ 1 = 1)
  /\ nth_call 1 5 = Ok ([0; 0; 0; 1; 0; 0; 0; 0; 0; 0; 0; 5], 6).
Proof.
  split; [right; reflexivity |].
  exact (proj1 (proj1 (iv_generator_nth_call 1 5 (or_intror eq_refl))
                  ltac:(vm_compute; discriminate))).
Defined.

(** The record of a message of three fields, one of them undefined and one
    a raw buffer, under an encryption that lengthens by 16 bytes. *)
Lemma make_record_layout_witness :
  make_record model_stringify model_encode
    [("type"%string, JString "Send")]
    (MObject [("n"%string, VJson (JNumber 12));
              ("u"%string, VUndefined);
              ("b"%string, VArrayBuffer [1; 2; 3])])
    model_gcm tt
  = (Ok (Resolved
           ([0; 115]
            ++ (model_encode
                  (model_stringify
                     (VJson (JObject
                        [("type"%string, JString "Send");
                         ("blobs"%string,
                          JArray [JObject
                                    [("id"%string, JString "n");
                                     ("type"%string, JString "JSON");
                                     ("length"%string, JNumber 2)];
                                  JObject
                                    [("id"%string, JString "b");
                                     ("type"%string, JString "Buffer");
                                     ("length"%string, JNumber 3)]])])))
                ++ repeat 0 16)
            ++ ([49; 50] ++ repeat 0 16)
            ++ ([1; 2; 3] ++ repeat 0 16))), tt).
Proof.
  pose proof (make_record_layout model_stringify model_encode
                [("type"%string, JString "Send")]
                [("n"%string, VJson (JNumber 12));
                 ("u"%string, VUndefined);
                 ("b"%string, VArrayBuffer [1; 2; 3])]
                model_gcm tt tt
                (model_encode
                   (model_stringify
                      (VJson (JObject
                         [("type"%string, JString "Send");
                          ("blobs"%string,
                           JArray [JObject
                                     [("id"%string, JString "n");
                                      ("type"%string, JString "JSON");
                                      ("length"%string, JNumber 2)];
                                   JObject
                                     [("id"%string, JString "b");
                                      ("type"%string, JString "Buffer");
                                      ("length"%string, JNumber 3)]])])))
                 ++ repeat 0 16)
                [[49; 50] ++ repeat 0 16; [1; 2; 3] ++ repeat 0 16]
                ltac:(vm_compute; reflexivity)
                ltac:(vm_compute; reflexivity)
                ltac:(vm_compute; reflexivity)) as H.
  exact H.
Defined.


Lemma make_record_length_field_wraps_witness :
  exists length_field : ArrayBuffer,
    make_record model_stringify model_encode
      [("type"%string, JString "Send")]
      (MObject [(model_name 65460, VJson (JNumber 0))]) model_gcm tt
    = (Ok (Resolved
             (length_field
              ++ (model_encode
                    (model_stringify
                       (VJson (JObject
                          [("type"%string, JString "Send");
                           ("blobs"%string,
                            JArray [JObject
                              [("id"%string, JString (model_name 65460));
                               ("type"%string, JString "JSON");
                               ("length"%string, JNumber 1)]])])))
                  ++ repeat 0 16)
              ++ concat [[48] ++ repeat 0 16])), tt)
    /\ length length_field = 2%nat
    /\ getUint16 length_field = Ok 0.
Proof.
  destruct (make_record_length_field_wraps model_stringify model_encode
              [("type"%string, JString "Send")]
              [(model_name 65460, VJson (JNumber 0))] model_gcm tt tt
              (model_encode
                 (model_stringify
                    (VJson (JObject
                       [("type"%string, JString "Send");
                        ("blobs"%string,
                         JArray [JObject
                           [("id"%string, JString (model_name 65460));
                            ("type"%string, JString "JSON");
                            ("length"%string, JNumber 1)]])])))
               ++ repeat 0 16)
              [[48] ++ repeat 0 16])
    as (field & Hrecord & Hlen & Hget & _).
  - vm_compute. split; congruence.
  - reflexivity.
  - vm_compute. reflexivity.
  - exists field. split; [exact Hrecord | split; [exact Hlen |]].
    rewrite Hget. vm_compute. reflexivity.
Defined.

(** Two connected parties with a session key.  A status message whose
    identifier is serialised on 65519 bytes is delivered.  With one letter
    more in the name of its field the identifier has 65520 bytes, the length
    field of the record reads 0, and the party that receives the record
    decrypts nothing and closes the connection. *)
Lemma long_identifier_closes_the_connection :
  let run :=
    run model_stringify model_encode model_parse model_decode
      (list Z) Z model_generateKey_AES model_generateKey_ECDH model_importKey
      model_exportKey model_deriveBits model_encrypt model_decrypt
      model_hex_encode model_hex_decode in
  let sender :=
    open_session _ _
      (listen_consumer (list Z) Z 0
         {| publicKey := 4 :: repeat 11 132; privateKey := repeat 11 66 |}
         200)
      (repeat 5 32) in
  let receiver :=
    open_session _ _
      (make_consumer (list Z) Z 0 (repeat 10 66)
         {| next_encryption_iv := iv 0; next_decryption_iv := iv 1;
            rng := 100; encryptions := [] |}
         true (Some (repeat 6 32)))
      (repeat 5 32) in
  let record_of := fun n : Z =>
    concat (sent_records _
              (fst (run [Call_status_send _
                           (MObject [(model_name n, VJson (JNumber 0))]);
                         Queue_turn _; Record_settled _] sender))) in
  (byteLength (record_of 65453) = 2 + (65519 + 16) + (1 + 16)
   /\ getUint16 (firstn 2 (record_of 65453)) = Ok 65535
   /\ fst (run [Chunk _ (record_of 65453); Settled _; Settled _] receiver)
      = [On_message _ (Some 0%nat) [(model_name 65453, VJson (JNumber 0))]])
  /\ (byteLength (record_of 65454) = 2 + (65520 + 16) + (1 + 16)
      /\ getUint16 (firstn 2 (record_of 65454)) = Ok 0
      /\ fst (run [Chunk _ (record_of 65454); Settled _] receiver)
         = [Transport_close _;
            On_close _ (Some 0%nat) (VError "OperationError")]).
Proof.
  intros run sender receiver record_of.
  split; (split; [| split]).
  - vm_compute. reflexivity.
  - vm_compute. reflexivity.
  - lazymatch goal with
    | |- ?l = ?r => exact (@eq_refl _ r <: l = r)
    end.
  - vm_compute. reflexivity.
  - vm_compute. reflexivity.
  - vm_compute. reflexivity.
Qed.

(** An ECIES encryption of two bytes in the model of WebCrypto. *)
Lemma ecies_ciphertext_layout_witness :
  exists ciphertext : ArrayBuffer,
    ecies_encrypt (list Z) Z model_generateKey_ECDH model_importKey
      model_exportKey model_deriveBits model_encrypt
      [104; 105] (4 :: repeat 9 132) 3
    = (Resolved ciphertext, 4)
    /\ ciphertext = (4 :: repeat 3 132) ++ [104; 105] ++ repeat 0 16
    /\ byteLength ciphertext = 133 + 2 + 16.
Proof.
  eexists. split; [vm_compute; reflexivity |].
  split; [vm_compute; reflexivity |].
  assert (Hraw : forall (pair : KeyPair (list Z)) (e e1 : Z)
                          (raw : ArrayBuffer),
             model_generateKey_ECDH "P-521" e = (Resolved pair, e1) ->
             model_exportKey Raw (publicKey pair) = Resolved raw ->
             byteLength raw = 133).
  { intros pair e e1 raw Hg He. injection Hg as <- <-. injection He as <-.
    reflexivity. }
  assert (Htag : forall (iv key p c : ArrayBuffer),
             model_encrypt iv key p = Resolved c ->
             byteLength c = byteLength p + 16).
  { intros iv key p c Hc. injection Hc as <-.
    unfold byteLength. rewrite length_app. cbn [length]. lia. }
  destruct (ecies_ciphertext_layout (list Z) Z model_generateKey_ECDH
              model_importKey model_exportKey model_deriveBits
              model_encrypt model_decrypt
              [104; 105] (4 :: repeat 9 132) (repeat 9 66) 3 4
              ((4 :: repeat 3 132) ++ [104; 105] ++ repeat 0 16)
              Hraw Htag ltac:(vm_compute; reflexivity))
    as (ephemeral & raw & bits & encrypted & aes_key & H).
  exact (proj1 (proj2 (proj2 (proj2 (proj2 (proj2 (proj2 (proj2 H)))))))).
Defined.


(** A handshake in the model of the platform.  The receiver answers the
    Hello with its AuthHello and, in [on_open], sends a status message; the
    two records reach the initiator in one chunk.  When the session key of
    the AuthHello is decrypted the initiator calls [on_open] and stops: the
    113 bytes of the status message stay in the buffer, nothing is in flight
    and nothing moves, until the transport delivers another chunk, here an
    empty one. *)
Lemma record_behind_the_handshake_waits :
  let connect_run :=
    connect_run model_stringify model_encode model_parse model_decode
      (list Z) Z model_generateKey_AES model_generateKey_ECDH model_importKey
      model_exportKey model_deriveBits model_encrypt model_decrypt
      model_hex_encode model_hex_decode in
  let run :=
    run model_stringify model_encode model_parse model_decode
      (list Z) Z model_generateKey_AES model_generateKey_ECDH model_importKey
      model_exportKey model_deriveBits model_encrypt model_decrypt
      model_hex_encode model_hex_decode in
  let alice := {| publicKey := 4 :: repeat 10 132;
                  privateKey := repeat 10 66 |} in
  let bob := {| publicKey := 4 :: repeat 11 132;
                privateKey := repeat 11 66 |} in
  let opened :=
    connect_run [Transport_opened _; Hello_settled _]
      (snd (connect (list Z) Z alice (VJson (JString "wss://bob"))
              (publicKey bob) (Some (JString "hi")) (VJson (JNumber 7))
              100)) in
  let answered :=
    run [Chunk _ (concat (sent_records _ (of_consumer _ (fst opened))));
         Settled _;
         Call_status_send _
           (MObject [("text"%string, VJson (JString "welcome"))]);
         Queue_turn _;
         Record_settled _]
      (listen_consumer (list Z) Z 0 bob 200) in
  let waiting :=
    connect_run [Consumer _ (Chunk _ (concat (sent_records _ (fst answered))));
                 Consumer _ (Settled _);
                 Consumer _ (Settled _);
                 Consumer _ (Settled _)]
      (snd opened) in
  map byteLength (sent_records _ (fst answered)) = [294; 113]
  /\ fst waiting = [Of_consumer _ (On_open _ 0%nat None None VUndefined)]
  /\ option_map (fun c => (busy _ _ c, in_flight _ _ c,
                           byteLength (buffer _ _ c)))
                (the_consumer _ _ (snd waiting))
     = Some (false, [], 113)
  /\ connect_run [Consumer _ (Settled _); Consumer _ (Queue_turn _);
                  Consumer _ (Record_settled _)] (snd waiting)
     = ([], snd waiting)
  /\ fst (connect_run [Consumer _ (Chunk _ []); Consumer _ (Settled _);
                       Consumer _ (Settled _)] (snd waiting))
     = [Of_consumer _
          (On_message _ (Some 0%nat)
             [("text"%string, VJson (JString "welcome"))])].
Proof.
  intros connect_run run alice bob opened answered waiting.
  vm_compute. repeat split.
Qed.


(** An initiator with one waiter receives a permanent redirection. *)
Lemma redirect_closes_before_opening_witness :
  let message :=
    [("address"%string, VJson (JString "wss://carol"));
     ("publicKey"%string, VJson (JString "04"));
     ("permanent"%string, VJson (JBool true));
     ("redirectContext"%string, VJson (JNumber 9))] in
  let c :=
    set_pending_acks _ _
      (set_in_flight _ _
         (set_busy _ _
            (open_session _ _
               (make_consumer (list Z) Z 0 (repeat 10 66)
                  {| next_encryption_iv := iv 0; next_decryption_iv := iv 1;
                     rng := 100; encryptions := [] |}
                  true (Some (repeat 100 32)))
               (repeat 200 32))
            true)
         [Import_redirect_key _ message (Resolved [4; 12])])
      [0%nat] in
  let s :=
    {| keypair := {| publicKey := 4 :: repeat 10 132;
                     privateKey := repeat 10 66 |};
       hello_value := None;
       remote_public_key := 4 :: repeat 11 132;
       connection_info := VUndefined;
       transport_open := true;
       the_consumer := Some c;
       opening := None;
       made := 1;
       platform_rng := 101 |} in
  party_trace _ "bob"
    (fst (connect_step model_stringify model_encode model_parse model_decode
            (list Z) Z model_generateKey_AES model_generateKey_ECDH
            model_importKey model_exportKey model_deriveBits model_encrypt
            model_decrypt model_hex_encode model_hex_decode
            (Consumer _ (Settled _)) s))
  = [Below _ (Close_transport _);
     Below _ (Of_consumer _ (Reject _ 0%nat (VJson (JString "Redirected."))));
     Store_add_acquaintance _ "bob" (VJson (JString "wss://carol")) [4; 12];
     Caller_on_close _ (Some 0%nat) (VJson (JString "redirected"));
     Below _ (Transport_connect _ (VJson (JString "wss://carol")))].
Proof.
  intros message c s.
  destruct (redirect_closes_before_opening model_stringify model_encode
              model_parse model_decode (list Z) Z model_generateKey_AES
              model_generateKey_ECDH model_importKey model_exportKey
              model_deriveBits model_encrypt model_decrypt model_hex_encode
              model_hex_decode "bob" s c message [4; 12]
              eq_refl eq_refl eq_refl eq_refl (le_n 1))
    as [_ (out & s1 & Hstep & Htrace & _)].
  rewrite Hstep. exact Htrace.
Defined.

Lemma hex_decode_encode_witness :
  hex_decode_string (VJson (JString (hex_encode_buffer [0; 171; 255])))
  = Ok [0; 171; 255].
Proof.
  apply hex_decode_encode.
  repeat constructor; unfold is_byte; lia.
Defined.

Lemma hex_encode_digits_witness :
  String.length (hex_encode_buffer [4; 222]) = 4%nat
  /\ Forall (fun c => is_upper_hex_digit c = true)
            (list_ascii_of_string (hex_encode_buffer [4; 222])).
Proof.
  apply (hex_encode_digits [4; 222]).
  repeat constructor; unfold is_byte; lia.
Defined.

(** The AES-GCM of the model decrypts what it encrypted. *)
Lemma model_gcm_round_trip (iv key p c : ArrayBuffer) :
  model_encrypt iv key p = Resolved c ->
  model_decrypt iv key c = Resolved p /\ byteLength c = byteLength p + 16.
Proof.
  intros H.
  assert (Hc : c = p ++ repeat 0 16) by (unfold model_encrypt in H; congruence).
  subst c. unfold model_decrypt, byteLength.
  rewrite length_app, repeat_length.
  replace (16 <=? length p + 16)%nat with true
    by (symmetry; apply Nat.leb_le; lia).
  rewrite Nat.add_sub, firstn_app, Nat.sub_diag, firstn_all.
  cbn [firstn]. rewrite app_nil_r. split; [reflexivity | lia].
Qed.

(** An ECIES encryption for a keypair of the model, and its decryption. *)
Lemma ecies_decrypt_encrypt_witness :
  exists ciphertext : ArrayBuffer,
    ecies_encrypt (list Z) Z model_generateKey_ECDH model_importKey
      model_exportKey model_agreed_bits model_encrypt
      [104; 105] (4 :: repeat 9 132) 3
    = (Resolved ciphertext, 4)
    /\ ecies_decrypt (list Z) model_importKey model_agreed_bits
         model_decrypt (VArrayBuffer ciphertext) (repeat 9 66)
       = Ok (Resolved [104; 105]).
Proof.
  eexists. split; [vm_compute; reflexivity |].
  apply (ecies_decrypt_encrypt (list Z) Z model_generateKey_ECDH
           model_importKey model_exportKey model_agreed_bits model_encrypt
           model_decrypt [104; 105] (4 :: repeat 9 132) (repeat 9 66) 3 4).
  - intros pair e e1 raw Hg He. injection Hg as <- <-. injection He as <-.
    split; [reflexivity |]. eexists. split; [reflexivity |].
    unfold model_agreed_bits. cbn [publicKey privateKey nth repeat].
    change (nth 0 (repeat 9 66) 0) with 9.
    change (nth 0 (repeat e 132) 0) with e.
    change (nth 0 (repeat 9 132) 0) with 9.
    change (nth 0 (repeat e 66) 0) with e.
    now rewrite Z.add_comm.
  - intros iv key p c Hc. exact (proj1 (model_gcm_round_trip iv key p c Hc)).
  - vm_compute. reflexivity.
Defined.

(** An initiator is closed while the session key of the AuthHello is being
    decrypted; the key arrives, then a chunk. *)
Lemma destroyed_consumer_is_silent_witness :
  let c :=
    set_transport_connection _ _
      (set_in_flight _ _
         (set_busy _ _
            (make_consumer (list Z) Z 0 (repeat 10 66)
               {| next_encryption_iv := iv 0; next_decryption_iv := iv 1;
                  rng := 100; encryptions := [] |}
               true (Some (repeat 100 32)))
            true)
         [Decrypt_session_key _ (Resolved (repeat 200 32))])
      false in
  let history :=
    run model_stringify model_encode model_parse model_decode (list Z) Z
      model_generateKey_AES model_generateKey_ECDH model_importKey
      model_exportKey model_deriveBits model_encrypt model_decrypt
      model_hex_encode model_hex_decode
      [Settled _; Chunk _ [0; 1; 2]; Call_close _ VUndefined] c in
  transport_connection _ _ (snd history) = false
  /\ Forall (fun a => straggler _ a = true) (fst history)
  /\ (length (fst history) <= 1)%nat.
Proof.
  intros c history.
  exact (destroyed_consumer_is_silent model_stringify model_encode
           model_parse model_decode (list Z) Z model_generateKey_AES
           model_generateKey_ECDH model_importKey model_exportKey
           model_deriveBits model_encrypt model_decrypt model_hex_encode
           model_hex_decode c
           [Settled _; Chunk _ [0; 1; 2]; Call_close _ VUndefined] eq_refl).
Defined.

(** [send] with a string on a connection with one send waiting. *)
Lemma unsendable_message_destroys_witness :
  let c :=
    set_next_waiter _ _
      (set_pending_acks _ _
         (open_session _ _
            (listen_consumer (list Z) Z 0
               {| publicKey := 4 :: repeat 11 132;
                  privateKey := repeat 11 66 |} 200)
            (repeat 5 32))
         [0%nat])
      1%nat in
  fst (run model_stringify model_encode model_parse model_decode (list Z) Z
         model_generateKey_AES model_generateKey_ECDH model_importKey
         model_exportKey model_deriveBits model_encrypt model_decrypt
         model_hex_encode model_hex_decode
         [Call_send _ MPrimitive; Queue_turn _] c)
  = [Reject _ 0%nat (VError "Bad message.");
     Reject _ 1%nat (VError "Bad message.");
     Transport_close _;
     On_close _ (Some 0%nat) (VError "Bad message.")].
Proof.
  intros c.
  rewrite (proj1 (unsendable_message_destroys model_stringify model_encode
                    model_parse model_decode (list Z) Z model_generateKey_AES
                    model_generateKey_ECDH model_importKey model_exportKey
                    model_deriveBits model_encrypt model_decrypt
                    model_hex_encode model_hex_decode c 0%nat MPrimitive
                    "Bad message." eq_refl eq_refl eq_refl eq_refl)
                 eq_refl).
  reflexivity.
Defined.





(** The ECIES of the model decrypts what it encrypted, for a keypair whose
    two keys carry the same mark. *)
Lemma model_ecies_round_trip (mark : Z) (plaintext ciphertext : ArrayBuffer)
  (r r1 : Z) :
  ecies_encrypt (list Z) Z model_generateKey_ECDH model_importKey
    model_exportKey model_agreed_bits model_encrypt
    plaintext (4 :: repeat mark 132) r
  = (Resolved ciphertext, r1) ->
  ecies_decrypt (list Z) model_importKey model_agreed_bits model_decrypt
    (VArrayBuffer ciphertext) (repeat mark 66)
  = Ok (Resolved plaintext).
Proof.
  intros H.
  assert (Hc : ciphertext
               = (4 :: repeat r 132) ++ (plaintext ++ repeat 0 16)).
  { unfold ecies_encrypt, generate_keypair, model_generateKey_ECDH in H.
    cbn [then_ publicKey privateKey model_exportKey model_agreed_bits
         Promise_all2 model_importKey model_encrypt] in H.
    rewrite ecies_ciphertext_spec in H. cbn [settle] in H. congruence. }
  subst ciphertext. clear H.
  unfold ecies_decrypt, slice_value. rewrite nr_raw_key_bytes_value.
  change 133 with (byteLength (4 :: repeat r 132)) at 1 2.
  rewrite slice_head, slice_tail. cbn [bind settle then_ model_importKey].
  unfold model_agreed_bits. cbn [then_ model_importKey].
  change (nth 1 (4 :: repeat mark 132) 0) with mark.
  change (nth 1 (4 :: repeat r 132) 0) with r.
  change (nth 0 (repeat mark 66) 0) with mark.
  change (nth 0 (repeat r 66) 0) with r.
  rewrite (Z.add_comm r mark).
  f_equal. now apply model_gcm_round_trip.
Qed.

(** A handshake on the model platform: the initiator's keys carry the
    mark 7, the receiver's the mark 9, and the hello value is 5. *)
Lemma handshake_agrees_witness :
  let initiator_keys :=
    {| publicKey := 4 :: repeat 7 132; privateKey := repeat 7 66 |} in
  let receiver_keys :=
    {| publicKey := 4 :: repeat 9 132; privateKey := repeat 9 66 |} in
  let encryption_iv := repeat 0 12 in
  let st :=
    {| next_encryption_iv := iv 0; next_decryption_iv := iv 1;
       rng := 100; encryptions := [] |} in
  let auth_hello_of :=
    auth_hello model_stringify model_encode model_parse model_decode
      (list Z) Z model_generateKey_AES model_generateKey_ECDH
      model_importKey model_exportKey model_agreed_bits model_encrypt
      model_decrypt model_hex_decode in
  exists (r : hello_result (list Z)) (st1 : crypto_state (list Z) Z),
    hello model_stringify model_encode (list Z) Z model_generateKey_AES
      model_generateKey_ECDH model_importKey model_exportKey
      model_agreed_bits model_encrypt model_hex_encode
      (publicKey initiator_keys) (publicKey receiver_keys) encryption_iv
      (VJson (JString "here")) (Some (JNumber 5)) st
    = (Resolved r, st1)
    /\ exists encrypted_handshake_key encrypted_hello_data : ArrayBuffer,
         fst (make_record model_stringify model_encode
                [("type"%string, JString "Hello")]
                (MObject [("version"%string, VJson (JNumber 0));
                          ("handshakeKey"%string,
                           VArrayBuffer encrypted_handshake_key);
                          ("helloData"%string,
                           VArrayBuffer encrypted_hello_data);
                          ("connectionInfo"%string, VJson (JString "here"))])
                identity_encrypt tt)
         = Ok (Resolved (hello_record _ r))
         /\ forall (hello_message : jsobject)
                   (st2 st3 : crypto_state (list Z) Z)
                   (a : auth_hello_result (list Z)),
              is_zero (get_property hello_message "version") = true ->
              get_property hello_message "handshakeKey"
              = VArrayBuffer encrypted_handshake_key ->
              get_property hello_message "helloData"
              = VArrayBuffer encrypted_hello_data ->
              fst (draw_decryption_iv _ _ st2) = Ok encryption_iv ->
              auth_hello_of hello_message (privateKey receiver_keys) st2
              = (Ok (Resolved a), st3) ->
              auth_initiator_public_key _ a = publicKey initiator_keys
              /\ auth_hello_value _ a = Some (JNumber 5).
Proof.
  intros initiator_keys receiver_keys encryption_iv st auth_hello_of.
  assert (Hgcm : forall iv key p c : ArrayBuffer,
             model_encrypt iv key p = Resolved c ->
             model_decrypt iv key c = Resolved p)
    by (intros iv key p c H; now apply model_gcm_round_trip).
  assert (Haes : forall (r r1 : Z) (key buffer : ArrayBuffer),
             model_generateKey_AES r = (Resolved key, r1) ->
             model_exportKey Raw key = Resolved buffer ->
             model_importKey Raw buffer AES_GCM = Resolved key)
    by (unfold model_exportKey, model_importKey; congruence).
  assert (Hpublic : forall buffer : ArrayBuffer,
             export_public_key _ model_exportKey (publicKey initiator_keys)
             = Resolved buffer ->
             import_public_key _ model_importKey buffer
             = Resolved (publicKey initiator_keys))
    by (intros buffer H; symmetry; exact H).
  assert (Hdata : forall buffer : ArrayBuffer,
             export_public_key _ model_exportKey (publicKey initiator_keys)
             = Resolved buffer ->
             decode_json model_parse model_decode
               (encode_json model_stringify model_encode
                  (VJson (JObject
                     (("initiatorPublicKey"%string,
                       JString (model_hex_encode buffer))
                      :: optional_property "value" (Some (JNumber 5))))))
             = Ok (JObject
                     (("initiatorPublicKey"%string,
                       JString (model_hex_encode buffer))
                      :: optional_property "value" (Some (JNumber 5))))
             /\ model_hex_decode (VJson (JString (model_hex_encode buffer)))
                = Ok buffer).
  { intros buffer H.
    assert (Hbuffer : Resolved (4 :: repeat 7 132) = Resolved buffer)
      by exact H.
    assert (buffer = 4 :: repeat 7 132) by congruence.
    subst buffer. split; vm_compute; reflexivity. }
  destruct (hello model_stringify model_encode (list Z) Z
              model_generateKey_AES model_generateKey_ECDH model_importKey
              model_exportKey model_agreed_bits model_encrypt
              model_hex_encode (publicKey initiator_keys)
              (publicKey receiver_keys) encryption_iv
              (VJson (JString "here")) (Some (JNumber 5)) st)
    as [[r | reason] st1] eqn:Hhello;
    [| vm_compute in Hhello; discriminate Hhello].
  exists r, st1. split; [reflexivity |].
  destruct (handshake_agrees model_stringify model_encode model_parse
              model_decode (list Z) Z model_generateKey_AES
              model_generateKey_ECDH model_importKey model_exportKey
              model_agreed_bits model_encrypt model_decrypt model_hex_encode
              model_hex_decode initiator_keys receiver_keys
              (Some (JNumber 5))
              (model_ecies_round_trip 9) (model_ecies_round_trip 7)
              Hgcm Haes Hpublic Hdata
              encryption_iv (VJson (JString "here")) st st1 r Hhello)
    as (ek & ed & Hrecord & Hagree).
  exists ek, ed. split; [exact Hrecord |].
  intros hello_message st2 st3 a H1 H2 H3 H4 H5.
  destruct (Hagree hello_message st2 st3 a H1 H2 H3 H4 H5) as (H6 & H7 & _).
  split; assumption.
Defined.


(** A listening party redirects a connecting party, for good and without
    a context. *)
Lemma redirect_is_delivered_witness :
  let key := repeat 5 32 in
  let s :=
    open_session _ _
      (listen_consumer (list Z) Z 0
         {| publicKey := 4 :: repeat 9 132; privateKey := repeat 9 66 |} 200)
      key in
  let c :=
    open_session _ _
      (make_consumer (list Z) Z 0 (repeat 7 66)
         {| next_encryption_iv := iv 0; next_decryption_iv := iv 1;
            rng := 100; encryptions := [] |}
         true (Some (repeat 6 32)))
      key in
  exists (record : ArrayBuffer) (s1 : consumer (list Z) Z),
    run_task model_stringify model_encode (list Z) Z model_exportKey
      model_encrypt model_hex_encode
      (Task_redirect _ (VJson (JString "there")) (4 :: repeat 3 132)
                     (VJson (JBool true)) VUndefined) s
    = (Ok (Resolved record), s1)
    /\ run model_stringify model_encode model_parse model_decode (list Z) Z
         model_generateKey_AES model_generateKey_ECDH model_importKey
         model_exportKey model_deriveBits model_encrypt model_decrypt
         model_hex_encode model_hex_decode
         (Chunk _ record :: repeat (Settled _) 4 ++ [Settled _]) c
       = ([On_redirect _ (Some 0%nat) (VJson (JString "there"))
                       (4 :: repeat 3 132) (VJson (JBool true)) VUndefined],
          incoming _ _ c [] false None None [] []
                   (next_encryption_iv _ _ (crypto _ _ s1))).
Proof.
  intros key s c.
  destruct (run_task model_stringify model_encode (list Z) Z model_exportKey
              model_encrypt model_hex_encode
              (Task_redirect _ (VJson (JString "there")) (4 :: repeat 3 132)
                             (VJson (JBool true)) VUndefined) s)
    as [[[record | reason] | m] s1] eqn:Htask;
    try (vm_compute in Htask; discriminate Htask).
  exists record, s1. split; [reflexivity |].
  refine (redirect_is_delivered model_stringify model_encode model_parse
            model_decode (list Z) Z model_generateKey_AES
            model_generateKey_ECDH model_importKey model_exportKey
            model_deriveBits model_encrypt model_decrypt model_hex_encode
            model_hex_decode key c eq_refl eq_refl
            (fun iv p ct => model_gcm_round_trip iv key p ct)
            s s1 (VJson (JString "there")) (VJson (JBool true)) VUndefined
            (4 :: repeat 3 132) (4 :: repeat 3 132) (4 :: repeat 3 132)
            record eq_refl eq_refl Htask _ eq_refl _ _ _
            eq_refl eq_refl eq_refl eq_refl eq_refl eq_refl eq_refl eq_refl).
  - vm_compute. reflexivity.
  - repeat constructor; vm_compute; reflexivity.
  - vm_compute. reflexivity.
  - vm_compute. reflexivity.
Defined.

(** A party with an empty store that generates its keypair, and connects
    to a petname it does not know; the caller then calls [close]. *)
Lemma party_unknown_petname_witness :
  exists aftermath : list (party_call (list Z)),
    fst (party_run _ "bob"
           [Prepared _
              (party_prepare (list Z) Z model_generateKey_ECDH true
                 (Resolved None) (fun _ => Resolved tt) 3 "bob"
                 (Resolved None));
            Close_called _ VUndefined]
           party_connecting)
    = Of_party _ (Caller_on_close _ None
                    (VError "Not acquainted with bob."))
      :: aftermath
    /\ forallb (is_aftermath _) aftermath = true.
Proof.
  destruct (get_keypair (list Z) Z model_generateKey_ECDH true
              (Resolved None) (fun _ => Resolved tt) 3)
    as [[keys | reason] r1] eqn:Hkeys;
    [| vm_compute in Hkeys; discriminate Hkeys].
  apply (party_unknown_petname (list Z) Z model_generateKey_ECDH "bob" true
           (Resolved None) (fun _ => Resolved tt) 3 keys
           [Close_called _ VUndefined]).
  now rewrite Hkeys.
Defined.

(** A listening party, whose caller redirects connection 0 to a petname
    that the store does not know; the protocol then closes the
    connection. *)
Lemma unknown_redirection_stops_witness :
  exists passed_on : list (listening_call (list Z)),
    fst (listening_run _
           [Redirect_called _ 0%nat "bob" (Resolved None) (VJson (JBool true))
              VUndefined;
            Protocol_calls _ Named_on_close (Some 0%nat)]
           (snd (listening_run _
                   [Keypair_settled _
                      (Resolved {| publicKey := [4]; privateKey := [1] |});
                    Protocol_calls _ Named_on_open (Some 0%nat)]
                   party_listening)))
    = Protocol_stop _ (VError "Not acquainted with bob.")
      :: On_close_undefined _ (VError "Not acquainted with bob.")
      :: passed_on
    /\ forallb (is_passed_on _) passed_on = true.
Proof.
  apply (unknown_redirection_stops (list Z)
           (snd (listening_run _
                   [Keypair_settled _
                      (Resolved {| publicKey := [4]; privateKey := [1] |});
                    Protocol_calls _ Named_on_open (Some 0%nat)]
                   party_listening))
           0%nat "bob" (VJson (JBool true)) VUndefined
           [Protocol_calls _ Named_on_close (Some 0%nat)]);
    reflexivity.
Defined.
